(** * Transaction scheduling with conflicts: simulator, decoder and encoder

    A shallow embedding of the Python sources [src/solution.py],
    [src/utils.py], [src/task.py], [src/variable_representation.py],
    [src/transformation.py] and [src/qubo.py].

    Conventions of the embedding.
    - Python exceptions are the [Raise] outcome of a small error monad.
    - Times and lengths ([np.float64] in the source) are the rationals
      ([Q]) the floating-point numbers stand for. The simulator compares
      times and adds a duration to a start time; that sum is taken
      exactly. The encoder divides, sums and converts: there every
      [float64] operation rounds its exact result to binary64
      ([round64]).
    - Identifiers are Python integers ([Z]); indexing follows the
      Python/NumPy rule that a negative index counts from the end.
    - A list of [MachineSolution] objects is a Rocq list; the identity of
      a machine object is its position in that list. *)

From Stdlib Require Import ZArith QArith Qround Qpower Lqa Lia String Ascii.
From stdpp Require Import base option list gmap strings pretty sorting.

Local Open Scope Z_scope.

(** ** Outcomes of a Python call

    [Ok] is a normal return and [Raise] an exception. [Unspecified] marks
    a run that leaves the embedding: a control decision that depends on a
    number NumPy does not define portably, or a machine argument that is
    not an element of the machine list. No theorem below reads it as a
    result of the program. *)

Inductive exn : Type :=
  | IndexError
  | ValueError
  | KeyError
  | AttributeError.

Inductive outcome (A : Type) : Type :=
  | Ok (a : A)
  | Raise (e : exn)
  | Unspecified.
Arguments Ok {A} a.
Arguments Raise {A} e.
Arguments Unspecified {A}.

#[global] Instance outcome_ret : MRet outcome := fun A a => Ok a.
#[global] Instance outcome_bind : MBind outcome := fun A B f m =>
  match m with
  | Ok a => f a
  | Raise e => Raise e
  | Unspecified => Unspecified
  end.

Definition or_raise {A} (e : exn) (o : option A) : outcome A :=
  match o with
  | Some a => Ok a
  | None => Raise e
  end.

(** Left-to-right monadic fold: a Python [for] loop over a list that
    threads one piece of state and stops at the first exception. *)
Fixpoint foldM {A S : Type} (f : S -> A -> outcome S) (s : S) (l : list A)
  : outcome S :=
  match l with
  | [] => Ok s
  | a :: l' => s' ← f s a; foldM f s' l'
  end.

(** ** Numbers *)

Definition Qltb (a b : Q) : bool := negb (Qle_bool b a).

(** Python's two-argument [max(a, b)]: [a] unless [b > a]. *)
Definition py_max2 (a b : Q) : Q := if Qltb a b then b else a.

(** Python/NumPy indexing of a sequence by an integer. *)
Definition py_index {A} (l : list A) (i : Z) : option A :=
  let n := Z.of_nat (length l) in
  if (0 <=? i) && (i <? n) then l !! Z.to_nat i
  else if (- n <=? i) && (i <? 0) then l !! Z.to_nat (n + i)
  else None.

(** ** solution.py: the data model of a schedule *)

Record TransactionSolution : Type := {
  tx_id : Z;
  start_time : Q;
  end_time : Q;
  duration : Q
}.

Record MachineSolution : Type := {
  transactions : list TransactionSolution
}.

(** [MachineSolution.processing_time] *)
Definition processing_time (m : MachineSolution) : Q :=
  match last (transactions m) with
  | None => 0%Q
  | Some t => end_time t
  end.

(** A [Solution] object; [cached_length] is the lazily set attribute
    [_length], absent on a freshly constructed object. *)
Record Solution : Type := {
  machines : list MachineSolution;
  cached_length : option Q
}.

Definition new_solution (ms : list MachineSolution) : Solution :=
  {| machines := ms; cached_length := None |}.

(** The dataclass-generated [__eq__]: field-wise comparison. *)
Definition tx_eqb (a b : TransactionSolution) : bool :=
  (tx_id a =? tx_id b) && Qeq_bool (start_time a) (start_time b)
  && Qeq_bool (end_time a) (end_time b) && Qeq_bool (duration a) (duration b).

Fixpoint txs_eqb (l1 l2 : list TransactionSolution) : bool :=
  match l1, l2 with
  | [], [] => true
  | a :: l1', b :: l2' => tx_eqb a b && txs_eqb l1' l2'
  | _, _ => false
  end.

Definition machine_eqb (m1 m2 : MachineSolution) : bool :=
  txs_eqb (transactions m1) (transactions m2).

(** [min(machines, key=lambda x: x.processing_time)], as the position of
    the machine it returns: the first one whose key is smallest. *)
Fixpoint argmin_from (best_i : nat) (best : Q) (i : nat) (keys : list Q) : nat :=
  match keys with
  | [] => best_i
  | k :: keys' =>
      if Qltb k best then argmin_from i k (S i) keys'
      else argmin_from best_i best (S i) keys'
  end.

Definition min_machine (ms : list MachineSolution) : outcome nat :=
  match processing_time <$> ms with
  | [] => Raise ValueError
  | k :: keys => Ok (argmin_from 0 k 1 keys)
  end.

(** [machines.index(machine)]: the first position holding an equal value. *)
Fixpoint index_from (i : nat) (m : MachineSolution) (ms : list MachineSolution)
  : outcome nat :=
  match ms with
  | [] => Raise ValueError
  | m' :: ms' => if machine_eqb m' m then Ok i else index_from (S i) m ms'
  end.

(** [machine.transactions.append(t)] on the machine at position [k]. *)
Definition append_transaction (k : nat) (t : TransactionSolution)
    (ms : list MachineSolution) : list MachineSolution :=
  alter (fun m => {| transactions := transactions m ++ [t] |}) k ms.

(** ** utils.py: placing one transaction *)

(** [conflicts[a][b]] on a two-dimensional array. *)
Definition conflict_entry (conflicts : list (list Z)) (a b : Z) : outcome Z :=
  row ← or_raise IndexError (py_index conflicts a);
  or_raise IndexError (py_index row b).

(** The body of the inner loop: one already placed transaction [omt] of
    another machine is checked against the candidate start. *)
Definition scan_transaction (conflicts : list (list Z)) (transaction_id : Z)
    (dur : Q) (earliest_possible : Q) (omt : TransactionSolution) : outcome Q :=
  c ← conflict_entry conflicts (tx_id omt) transaction_id;
  if (0 <? c)
     && Qle_bool (start_time omt) (earliest_possible + dur)
     && Qle_bool earliest_possible (end_time omt)
  then Ok (py_max2 (end_time omt) earliest_possible)
  else Ok earliest_possible.

(** The outer loop over all machines, skipping the target machine [k]. *)
Fixpoint scan_machines (conflicts : list (list Z)) (transaction_id : Z)
    (dur : Q) (k j : nat) (ms : list MachineSolution) (earliest_possible : Q)
  : outcome Q :=
  match ms with
  | [] => Ok earliest_possible
  | other_machine :: ms' =>
      ep ← (if decide (j = k) then Ok earliest_possible
            else foldM (scan_transaction conflicts transaction_id dur)
                       earliest_possible (transactions other_machine));
      scan_machines conflicts transaction_id dur k (S j) ms' ep
  end.


Definition initial_earliest (machine : MachineSolution) : Q :=
  match last (transactions machine) with
  | Some t => end_time t
  | None => 0%Q
  end.

(** [build_transaction_solution]; [k] is the position of [machine] in
    [machines] (every caller passes an element of [machines]; a position
    outside the list is outside the model). The result is the list of
    machines after the append. *)
Definition build_transaction_solution (k : nat) (ms : list MachineSolution)
    (transaction_id : Z) (dur : Q) (conflicts : list (list Z))
  : outcome (list MachineSolution) :=
  machine ← match ms !! k with Some m => Ok m | None => Unspecified end;
  ep ← scan_machines conflicts transaction_id dur k 0 ms (initial_earliest machine);
  Ok (append_transaction k
        {| tx_id := transaction_id; start_time := ep;
           end_time := (ep + dur)%Q; duration := dur |} ms).

(** ** task.py *)

Record TransactionScheduleTask : Type := {
  task_id : Z;
  num_machines : Z;
  lengths : list Q;
  conflicts : list (list Z);
  solution : list Z
}.

Definition num_transactions (task : TransactionScheduleTask) : Z :=
  Z.of_nat (length (lengths task)).

Definition empty_machines (n : Z) : list MachineSolution :=
  replicate (Z.to_nat n) {| transactions := [] |}.

(** One iteration of the loop of [solution_order_to_solution]. *)
Definition place_next (task : TransactionScheduleTask)
    (ms : list MachineSolution) (transaction_id : Z)
  : outcome (list MachineSolution) :=
  k ← min_machine ms;
  dur ← or_raise IndexError (py_index (lengths task) transaction_id);
  build_transaction_solution k ms transaction_id dur (conflicts task).

Definition solution_order_to_solution (task : TransactionScheduleTask)
    (solution_order : list Z) : outcome Solution :=
  ms ← foldM (place_next task) (empty_machines (num_machines task)) solution_order;
  Ok (new_solution ms).

(** ** solution.py: makespan and order reconstruction *)

(** Python's [max] of a list: the first largest element, [ValueError] on
    an empty list. *)
Definition py_max (l : list Q) : outcome Q :=
  match l with
  | [] => Raise ValueError
  | x :: l' => Ok (fold_left py_max2 l' x)
  end.

Definition end_times (s : Solution) : list Q :=
  m ← machines s; t ← transactions m; [end_time t].

(** The property [Solution.length]: the value read and the object after
    the read (the attribute [_length] is set by the first read). *)
Definition solution_length (s : Solution) : outcome (Q * Solution) :=
  match cached_length s with
  | Some v => Ok (v, s)
  | None =>
      v ← py_max (end_times s);
      Ok (v, {| machines := machines s; cached_length := Some v |})
  end.

(** State of the replay loop of [solution_to_solution_order]. *)
Record replay_state : Type := {
  virtual_machines : list MachineSolution;
  index_tracker : gmap nat nat;
  solution_order : list Z
}.

Definition initial_tracker (n : nat) : gmap nat nat :=
  list_to_map ((fun m => (m, 0%nat)) <$> seq 0 n).

Definition replay_step (self : Solution) (st : replay_state)
  : outcome replay_state :=
  i ← min_machine (virtual_machines st);
  machine ← or_raise IndexError (virtual_machines st !! i);
  machine_id ← index_from 0 machine (virtual_machines st);
  transaction_id ← or_raise KeyError (index_tracker st !! machine_id);
  original ← or_raise IndexError (machines self !! machine_id);
  transaction ← or_raise IndexError (transactions original !! transaction_id);
  Ok {| virtual_machines := append_transaction i transaction (virtual_machines st);
        index_tracker := <[machine_id := S transaction_id]> (index_tracker st);
        solution_order := solution_order st ++ [tx_id transaction] |}.

Fixpoint replay (self : Solution) (n : nat) (st : replay_state)
  : outcome replay_state :=
  match n with
  | O => Ok st
  | S n' => st' ← replay_step self st; replay self n' st'
  end.

Definition solution_to_solution_order (self : Solution) : outcome (list Z) :=
  let num_transactions :=
    sum_list ((fun m => length (transactions m)) <$> machines self) in
  let n := length (machines self) in
  st ← replay self num_transactions
         {| virtual_machines := replicate n {| transactions := [] |};
            index_tracker := initial_tracker n;
            solution_order := [] |};
  Ok (solution_order st).

(** ** Properties of a schedule *)

(** The half-open windows of two timed transactions share a time point. *)
Definition windows_overlap (a b : TransactionSolution) : Prop :=
  exists t : Q,
    (start_time a <= t /\ t < end_time a /\ start_time b <= t /\ t < end_time b)%Q.

(** The transaction at position [p] of track [k]. *)
Definition placed_at (s : Solution) (k p : nat) (t : TransactionSolution) : Prop :=
  exists m, machines s !! k = Some m /\ transactions m !! p = Some t.

Definition conflicting (task : TransactionScheduleTask) (i j : Z) : Prop :=
  exists c, conflict_entry (conflicts task) i j = Ok c /\ 0 < c.

(** The conflict invariant of a schedule for a task. *)
Definition conflict_free (task : TransactionScheduleTask) (s : Solution) : Prop :=
  forall k1 p1 a k2 p2 b,
    placed_at s k1 p1 a -> placed_at s k2 p2 b ->
    conflicting task (tx_id a) (tx_id b) ->
    ~ windows_overlap a b.

Definition symmetric_conflicts (task : TransactionScheduleTask) : Prop :=
  forall i j, 0 <= i < Z.of_nat (length (lengths task)) ->
    0 <= j < Z.of_nat (length (lengths task)) ->
    conflict_entry (conflicts task) i j = conflict_entry (conflicts task) j i.

Definition nonneg_lengths (task : TransactionScheduleTask) : Prop :=
  Forall (fun l => (0 <= l)%Q) (lengths task).

(** ** variable_representation.py *)

(** [str.split(sep)] for a one-character separator. *)
Fixpoint split (sep : ascii) (s : string) : list string :=
  match s with
  | EmptyString => [EmptyString]
  | String c s' =>
      if Ascii.eqb c sep then EmptyString :: split sep s'
      else match split sep s' with
           | f :: fs => String c f :: fs
           | [] => [String c EmptyString]
           end
  end.

(** The ASCII characters that [int] skips around a literal: tab, line
    feed, vertical tab, form feed, carriage return (0x09-0x0d) and the
    space (0x20). The separators 0x1c-0x1f are whitespace for
    [str.isspace] but are not skipped by [int] in an ASCII string. *)
Definition is_space (c : ascii) : bool :=
  let n := Z.of_nat (nat_of_ascii c) in
  ((9 <=? n) && (n <=? 13)) || (n =? 32).

Definition digit_of (c : ascii) : option Z :=
  let n := Z.of_nat (nat_of_ascii c) in
  if (48 <=? n) && (n <=? 57) then Some (n - 48) else None.

Fixpoint lstrip (s : string) : string :=
  match s with
  | EmptyString => EmptyString
  | String c s' => if is_space c then lstrip s' else s
  end.

Fixpoint rstrip (s : string) : string :=
  match s with
  | EmptyString => EmptyString
  | String c s' =>
      match rstrip s' with
      | EmptyString => if is_space c then EmptyString else String c EmptyString
      | r => String c r
      end
  end.

(** Digits of a decimal literal, where single underscores may separate
    digits; returns the value and the number of digits read. *)
Fixpoint int_digits (after_digit : bool) (acc : Z) (count : nat) (s : string)
  : option (Z * nat) :=
  match s with
  | EmptyString => if after_digit then Some (acc, count) else None
  | String c s' =>
      match digit_of c with
      | Some d => int_digits true (10 * acc + d) (S count) s'
      | None =>
          if Ascii.eqb c "_" && after_digit then int_digits false acc count s'
          else None
      end
  end.

(** [sys.int_info.default_max_str_digits] *)
Definition int_max_str_digits : nat := 4300.

(** [int(s)] for an ASCII string [s], base ten. *)
Definition py_int (s : string) : outcome Z :=
  let s1 := rstrip (lstrip s) in
  let '(negative, s2) :=
    match s1 with
    | String "+" r => (false, r)
    | String "-" r => (true, r)
    | _ => (false, s1)
    end in
  match int_digits false 0 0 s2 with
  | Some (v, n) =>
      if (n <=? int_max_str_digits)%nat
      then Ok (if negative : bool then - v else v)
      else Raise ValueError
  | None => Raise ValueError
  end.

Module VariableRepresentation.

Record t : Type := {
  transaction_id : Z;
  machine_id : Z;
  start_time : Z
}.

(** The class method [from_string]. *)
Definition from_string (input : string) : outcome t :=
  let splits := split "-" input in
  f0 ← or_raise IndexError (splits !! 0%nat);
  a ← py_int f0;
  f1 ← or_raise IndexError (splits !! 1%nat);
  b ← py_int f1;
  f2 ← or_raise IndexError (splits !! 2%nat);
  c ← py_int f2;
  Ok {| transaction_id := a - 1; machine_id := b - 1; start_time := c |}.

End VariableRepresentation.

(** ** transformation.py *)

(** A list comprehension whose body may raise. *)
Fixpoint mapM {A B : Type} (f : A -> outcome B) (l : list A) : outcome (list B) :=
  match l with
  | [] => Ok []
  | a :: l' => b ← f a; bs ← mapM f l'; Ok (b :: bs)
  end.

(** [machine_var_map[rep.machine_id].append(rep)] on a [defaultdict(list)]. *)
Definition group_append (m : gmap Z (list VariableRepresentation.t))
    (rep : VariableRepresentation.t) : gmap Z (list VariableRepresentation.t) :=
  <[VariableRepresentation.machine_id rep :=
      default [] (m !! VariableRepresentation.machine_id rep) ++ [rep]]> m.

(** [sorted(v, key=lambda x: x.start_time)]: a stable sort. *)
Fixpoint insert_by_start_time (x : VariableRepresentation.t)
    (l : list VariableRepresentation.t) : list VariableRepresentation.t :=
  match l with
  | [] => [x]
  | y :: l' =>
      if VariableRepresentation.start_time x <? VariableRepresentation.start_time y
      then x :: l
      else y :: insert_by_start_time x l'
  end.

Definition sorted_by_start_time (l : list VariableRepresentation.t)
  : list VariableRepresentation.t :=
  foldr insert_by_start_time [] l.

(** [list.pop()]: removes and returns the last element. *)
Definition list_pop {A} (l : list A) : outcome (A * list A) :=
  match last l with
  | Some x => Ok (x, removelast l)
  | None => Raise IndexError
  end.

Record decode_state : Type := {
  decode_machines : list MachineSolution;
  machine_var_map : gmap Z (list VariableRepresentation.t)
}.

(** One iteration of the loop of [binary_variables_to_solution]. *)
Definition decode_step (task : TransactionScheduleTask) (st : decode_state)
  : outcome decode_state :=
  i ← min_machine (decode_machines st);
  machine ← or_raise IndexError (decode_machines st !! i);
  machine_id ← index_from 0 machine (decode_machines st);
  let group := default [] (machine_var_map st !! Z.of_nat machine_id) in
  '(transaction_var, rest) ← list_pop group;
  let var_map := <[Z.of_nat machine_id := rest]> (machine_var_map st) in
  let transaction_id := VariableRepresentation.transaction_id transaction_var in
  dur ← or_raise IndexError (py_index (lengths task) transaction_id);
  ms ← build_transaction_solution i (decode_machines st) transaction_id dur
         (conflicts task);
  Ok {| decode_machines := ms; machine_var_map := var_map |}.

Fixpoint decode_loop (task : TransactionScheduleTask) (n : nat) (st : decode_state)
  : outcome decode_state :=
  match n with
  | O => Ok st
  | S n' => st' ← decode_step task st; decode_loop task n' st'
  end.

Definition binary_variables_to_solution (vars : list string)
    (task : TransactionScheduleTask) : outcome Solution :=
  representations ← mapM VariableRepresentation.from_string vars;
  let var_map := foldl group_append ∅ representations in
  (* The source builds this sorted copy and drops it. *)
  let discarded := sorted_by_start_time <$> var_map in
  st ← decode_loop task (Z.to_nat (num_transactions task))
         {| decode_machines := empty_machines (num_machines task);
            machine_var_map := var_map |};
  Ok (new_solution (decode_machines st)).

Definition binary_variables_to_solution_order (vars : list string)
    (task : TransactionScheduleTask) : outcome (list Z) :=
  s ← binary_variables_to_solution vars task;
  solution_to_solution_order s.

(** ** Invariants of a machine track *)

(** Each transaction starts no earlier than its predecessor ends. *)
Definition chained (l : list TransactionSolution) : Prop :=
  forall p a b, l !! p = Some a -> l !! S p = Some b ->
    (end_time a <= start_time b)%Q.

Definition well_timed (l : list TransactionSolution) : Prop :=
  Forall (fun t => (start_time t <= end_time t)%Q) l.

Definition all_tracks (P : list TransactionSolution -> Prop)
    (ms : list MachineSolution) : Prop :=
  Forall (fun m => P (transactions m)) ms.

(** [F] is [M] after more transactions were appended to its tracks. *)
Definition extends (M F : list MachineSolution) : Prop :=
  length M = length F /\
  forall j m, M !! j = Some m ->
    exists f, F !! j = Some f /\ transactions m `prefix_of` transactions f.

Definition placed_count (ms : list MachineSolution) : nat :=
  sum_list ((fun m => length (transactions m)) <$> ms).

(** ** Well-formed tasks *)

Definition valid_id (task : TransactionScheduleTask) (i : Z) : Prop :=
  0 <= i < num_transactions task.

(** The conflict matrix has one row and one column per transaction. *)
Definition square_conflicts (task : TransactionScheduleTask) : Prop :=
  length (conflicts task) = length (lengths task) /\
  Forall (fun row => length row = length (lengths task)) (conflicts task).

Definition valid_tracks (task : TransactionScheduleTask)
    (ms : list MachineSolution) : Prop :=
  all_tracks (Forall (fun t => valid_id task (tx_id t))) ms.

(** ** Concrete instances *)

(** Three machines, five transactions; 1, 3 and 4 conflict pairwise. *)
Definition late_conflict_task : TransactionScheduleTask :=
  {| task_id := 0; num_machines := 3;
     lengths := [1; 4; 1; 2; 2]%Q;
     conflicts := [[0;0;0;0;0]; [0;0;0;1;1]; [0;0;0;0;0]; [0;1;0;0;1]; [0;1;0;1;0]];
     solution := [0; 1; 2; 3; 4] |}.

Definition mk_tx (i : Z) (s d : Q) : TransactionSolution :=
  {| tx_id := i; start_time := s; end_time := (s + d)%Q; duration := d |}.


Definition one_machine_task : TransactionScheduleTask :=
  {| task_id := 0; num_machines := 1;
     lengths := [1; 1]%Q;
     conflicts := [[0;0]; [0;0]];
     solution := [0; 1] |}.

(** A schedule has a timed transaction / has only empty tracks. *)
Definition has_transaction (s : Solution) : Prop :=
  exists k p t, placed_at s k p t.

Definition all_tracks_empty_in (s : Solution) : Prop :=
  Forall (fun m => transactions m = []) (machines s).

(** ** Well-formed variable names *)

Fixpoint all_digits (s : string) : bool :=
  match s with
  | EmptyString => true
  | String c s' => bool_decide (is_Some (digit_of c)) && all_digits s'
  end.

(** A field of a well-formed name: a non-empty run of decimal digits that
    [int] accepts. *)
Definition decimal_field (s : string) : Prop :=
  s <> EmptyString /\ all_digits s = true /\
  (String.length s <= int_max_str_digits)%nat.

(** The number written by a run of decimal digits. *)
Fixpoint decimal_value_from (acc : Z) (s : string) : Z :=
  match s with
  | EmptyString => acc
  | String c s' => decimal_value_from (10 * acc + default 0 (digit_of c)) s'
  end.

Definition decimal_value (s : string) : Z := decimal_value_from 0 s.

(** [a + "-" + b + "-" + c] *)
Definition join3 (a b c : string) : string :=
  String.append a (String "-" (String.append b (String "-" c))).

(** The scenario of the specification: lengths 3, 2, 4 on two machines. *)
Definition scenario_task : TransactionScheduleTask :=
  {| task_id := 0; num_machines := 2;
     lengths := [3; 2; 4]%Q;
     conflicts := [[0; 0; 0]; [0; 0; 0]; [0; 0; 0]];
     solution := [0; 1; 2] |}.

(** The conflict-forced delay scenario: two conflicting transactions of
    length 5 on two machines. *)
Definition delay_task : TransactionScheduleTask :=
  {| task_id := 0; num_machines := 2;
     lengths := [5; 5]%Q;
     conflicts := [[0; 1]; [1; 0]];
     solution := [0; 1] |}.

(** ** qubo.py: discretization and the Hamiltonian *)

(** [np.int64] arithmetic wraps around. *)
Definition wrap64 (z : Z) : Z := (z + 2 ^ 63) mod 2 ^ 64 - 2 ^ 63.

Definition i64_add (a b : Z) : Z := wrap64 (a + b).
Definition i64_sub (a b : Z) : Z := wrap64 (a - b).

(** *** IEEE 754 binary64 arithmetic *)

(** [2 ^ e] as a rational, for any integer [e]. *)
Definition pow2 (e : Z) : Q := (2 ^ e)%Q.

(** The integer nearest to a rational, the even one on a tie. *)
Definition round_half_even (y : Q) : Z :=
  let f := Qfloor y in
  match (y - inject_Z f ?= 1 # 2)%Q with
  | Lt => f
  | Gt => f + 1
  | Eq => if Z.even f then f else f + 1
  end.

(** The exponent [e] of a positive rational [x]:
    [2 ^ e <= x < 2 ^ (e + 1)]. *)
Definition binade (x : Q) : Z :=
  let e := Z.log2 (Qnum x) - Z.log2 (Z.pos (Qden x)) in
  if Qle_bool (pow2 e) x then e else e - 1.

(** The exponent of the unit in the last place at a positive [x]: 53
    significant bits, and the fixed spacing [2 ^ -1074] of the subnormal
    numbers below [2 ^ -1022]. *)
Definition ulp_exponent (x : Q) : Z := Z.max (binade x) (-1022) - 52.

(** The multiple of the unit in the last place nearest to a positive
    [x], ties to the even multiple. *)
Definition round_positive (x : Q) : Q :=
  let s := ulp_exponent x in
  Qred (inject_Z (round_half_even (x / pow2 s)) * pow2 s).

(** An [np.float64] value: the rational it stands for, or [None] for a
    value the embedding does not track (the infinities and nan that
    NumPy returns, with a warning, for an overflow or a division by
    zero). The sign of a zero is not tracked. Likewise an [np.int64]
    obtained by casting is [None] when the cast is platform-dependent. *)
Definition npfloat : Type := option Q.
Definition npint : Type := option Z.

(** Rounding to binary64, to nearest and ties to even, as every
    [float64] operation does with its exact result; a result that
    rounds to [2 ^ 1024] or beyond is an infinity. *)
Definition round64 (x : Q) : npfloat :=
  match (x ?= 0)%Q with
  | Eq => Some 0%Q
  | Gt => let r := round_positive x in
          if Qle_bool (pow2 1024) r then None else Some r
  | Lt => let r := round_positive (- x) in
          if Qle_bool (pow2 1024) r then None else Some (- r)%Q
  end.

(** [a / b] on [float64] *)
Definition np_div (a b : npfloat) : npfloat :=
  match a, b with
  | Some x, Some y => if Qeq_bool y 0 then None else round64 (x / y)
  | _, _ => None
  end.

(** [a + b] on [float64] *)
Definition np_add (a b : npfloat) : npfloat :=
  match a, b with
  | Some x, Some y => round64 (x + y)
  | _, _ => None
  end.

(** Python's [max(a, b)] on two NumPy scalars. *)
Definition np_max2 (a b : npfloat) : npfloat :=
  match a, b with
  | Some x, Some y => Some (py_max2 x y)
  | _, _ => None
  end.

(** [np.ceil(x).astype(int)] *)
Definition ceil_to_int (x : npfloat) : npint :=
  match x with
  | Some q =>
      let c := Qceiling q in
      if (- 2 ^ 63 <=? c) && (c <? 2 ^ 63) then Some c else None
  | None => None
  end.

(** The two kinds of array handed to [estimate_execution_time]. *)
Inductive ndarray : Type :=
  | FloatArray (l : list Q)
  | IntArray (l : list npint).

(** The conversion of an [np.int64] to [float64], which rounds above
    [2 ^ 53]. *)
Definition int_to_float (z : npint) : npfloat :=
  match z with
  | Some n => round64 (inject_Z n)
  | None => None
  end.

(** A Python [int] met by a NumPy scalar in an operation: tracked when
    it is in the range of [np.int64]. *)
Definition py_int_operand (z : Z) : npint :=
  if (- 2 ^ 63 <=? z) && (z <? 2 ^ 63) then Some z else None.

(** NumPy sums a contiguous [float64] array pairwise: fewer than 8
    elements one after the other; up to 128 elements in 8 interleaved
    partial sums that are added in pairs at the end, followed by the
    elements beyond the last multiple of 8; a longer array in two parts,
    split at a multiple of 8, whose sums are added. *)
Definition sum_sequential (acc : npfloat) (l : list Q) : npfloat :=
  foldl (fun a x => np_add a (Some x)) acc l.

(** The 8 partial sums take in the array block after block; what is
    left is shorter than a block. *)
Fixpoint add_blocks (fuel : nat) (r : list npfloat) (l : list Q)
  : list npfloat * list Q :=
  match fuel with
  | O => (r, l)
  | S fuel' =>
      if (8 <=? length l)%nat
      then add_blocks fuel' (zip_with np_add r (Some <$> take 8 l)) (drop 8 l)
      else (r, l)
  end.

Definition sum_unrolled (l : list Q) : npfloat :=
  let '(r, rest) := add_blocks (length l) (Some <$> take 8 l) (drop 8 l) in
  match r with
  | [r0; r1; r2; r3; r4; r5; r6; r7] =>
      sum_sequential
        (np_add (np_add (np_add r0 r1) (np_add r2 r3))
                (np_add (np_add r4 r5) (np_add r6 r7)))
        rest
  | _ => None
  end.

Fixpoint pairwise_sum (fuel : nat) (l : list Q) : npfloat :=
  let n := length l in
  if (n <? 8)%nat then sum_sequential (Some 0%Q) l
  else if (n <=? 128)%nat then sum_unrolled l
  else match fuel with
       | O => None
       | S fuel' =>
           let n2 := (n / 2 - (n / 2) mod 8)%nat in
           np_add (pairwise_sum fuel' (take n2 l)) (pairwise_sum fuel' (drop n2 l))
       end.

Definition array_values (a : ndarray) : list npfloat :=
  match a with
  | FloatArray l => Some <$> l
  | IntArray l => int_to_float <$> l
  end.

(** [lengths.sum()] *)
Definition array_sum (a : ndarray) : npfloat :=
  match a with
  | FloatArray l => pairwise_sum (length l) l
  | IntArray l =>
      int_to_float (foldl (fun acc x => a ← acc; b ← x; Some (i64_add a b)) (Some 0) l)
  end.

(** [lengths.max()]: [ValueError] on an empty array. *)
Definition array_max (a : ndarray) : outcome npfloat :=
  match array_values a with
  | [] => Raise ValueError
  | x :: l => Ok (foldl np_max2 x l)
  end.

(** [TransactionScheduleTask.estimate_execution_time] *)
Definition estimate_execution_time (task : TransactionScheduleTask)
    (lengths : ndarray) : outcome npfloat :=
  let medium_execution_time :=
    np_div (array_sum lengths)
           (int_to_float (py_int_operand (num_machines task))) in
  max_transaction_length ← array_max lengths;
  Ok (np_max2 medium_execution_time max_transaction_length).

(** The time step used by [build_discrete_qubo]. *)
Definition time_step (task : TransactionScheduleTask)
    (time_step_length : option Q) (number_time_steps : option Z)
  : outcome npfloat :=
  match time_step_length with
  | Some ts => Ok (Some ts)
  | None =>
      let n := default 10 number_time_steps in
      r ← estimate_execution_time task (FloatArray (lengths task));
      Ok (np_div r (int_to_float (py_int_operand n)))
  end.

(** [np.ceil(task.lengths/time_step_length).astype(int)]: each quotient
    is a [float64] division, rounded to binary64 before the ceiling is
    taken. *)
Definition discrete_lengths (task : TransactionScheduleTask) (ts : npfloat)
  : list npint :=
  (fun l => ceil_to_int (np_div (Some l) ts)) <$> lengths task.

Record discretization : Type := {
  d_lengths : list npint;
  d_execution_length : npint;
  d_max_start_times : list npint
}.

Definition discretize (task : TransactionScheduleTask)
    (time_step_length : option Q) (number_time_steps : option Z)
  : outcome discretization :=
  ts ← time_step task time_step_length number_time_steps;
  let dl := discrete_lengths task ts in
  r ← estimate_execution_time task (IntArray dl);
  let h := ceil_to_int r in
  Ok {| d_lengths := dl;
        d_execution_length := h;
        d_max_start_times :=
          (fun d => a ← h; b ← d; Some (i64_sub a b)) <$> dl |}.

(** *** pyqubo expressions *)

Inductive coefficient : Type :=
  | CInt (z : Z)
  | CFloat (x : npfloat).

Inductive expr : Type :=
  | Num (c : coefficient)
  | Binary (name : string)
  | Add (a b : expr)
  | Mul (a b : expr)
  | Pow (a : expr) (n : Z).

(** A Python value that is a plain integer or a pyqubo expression. *)
Inductive pyval : Type :=
  | PyInt (z : Z)
  | PyExpr (e : expr).

Definition to_expr (v : pyval) : expr :=
  match v with
  | PyInt z => Num (CInt z)
  | PyExpr e => e
  end.

Definition py_add (a b : pyval) : pyval :=
  match a, b with
  | PyInt x, PyInt y => PyInt (x + y)
  | _, _ => PyExpr (Add (to_expr a) (to_expr b))
  end.

Definition py_pow (a : pyval) (n : Z) : pyval :=
  match a with
  | PyInt x => PyInt (x ^ n)
  | PyExpr e => PyExpr (Pow e n)
  end.

(** [b_var]: the binary variable named ["{transaction}-{machine}-{time}"]. *)
Definition b_var (transaction machine time : Z) : expr :=
  Binary (pretty transaction +:+ "-" +:+ pretty machine +:+ "-" +:+ pretty time).

(** [range(a, b)] *)
Definition py_range (a b : Z) : list Z :=
  (fun k => a + Z.of_nat k) <$> seq 0 (Z.to_nat (b - a)).

(** Reading an element of an integer array that is then used as a
    number: outside the model when the element is not tracked. *)
Definition get_int (l : list npint) (i : Z) : outcome Z :=
  match py_index l i with
  | None => Raise IndexError
  | Some None => Unspecified
  | Some (Some z) => Ok z
  end.

(** [start_times(idx)] = [range(max_start_times[idx]+1)] *)
Definition start_times (d : discretization) (idx : Z) : outcome (list Z) :=
  m ← get_int (d_max_start_times d) idx;
  Ok (py_range 0 (i64_add m 1)).

(** Python's [max(0, x)] and [min(a, b)] on integers. *)
Definition py_max0 (x : Z) : Z := if 0 <? x then x else 0.
Definition py_min2 (a b : Z) : Z := if b <? a then b else a.

(** The start times of [u] that collide with [t] starting at
    [start_time]: [range(q, p+1)]. *)
Definition invalid_start_times (d : discretization) (t u start_time : Z)
  : outcome (list Z) :=
  du ← get_int (d_lengths d) (u - 1);
  let q := py_max0 (i64_add (i64_sub start_time du) 1) in
  dt ← get_int (d_lengths d) (t - 1);
  mu ← get_int (d_max_start_times d) (u - 1);
  let p := py_min2 (i64_sub (i64_add start_time dt) 1) mu in
  Ok (py_range q (i64_add p 1)).

Definition machine_idxs (task : TransactionScheduleTask) : list Z :=
  py_range 1 (num_machines task + 1).

Definition transaction_idxs (task : TransactionScheduleTask) : list Z :=
  py_range 1 (num_transactions task + 1).

(** 1.1 Each transaction starts exactly once. *)
Definition term_A (task : TransactionScheduleTask) (d : discretization)
  : outcome pyval :=
  foldM (fun A t_idx =>
    a ← foldM (fun a m_idx =>
           sts ← start_times d (t_idx - 1);
           Ok (foldl (fun a start_time =>
                        py_add a (PyExpr (b_var t_idx m_idx start_time)))
                     a sts))
         (PyInt (-1)) (machine_idxs task);
    Ok (py_add A (py_pow a 2)))
  (PyInt 0) (transaction_idxs task).

(** The products added for one start time of [t] on machine [m]. *)
Definition add_products (d : discretization) (t m u m' start_time : Z)
    (acc : pyval) : outcome pyval :=
  invalid ← invalid_start_times d t u start_time;
  Ok (foldl (fun acc invalid_start_time =>
               py_add acc (PyExpr (Mul (b_var t m start_time)
                                        (b_var u m' invalid_start_time))))
            acc invalid).

(** 1.2 Transactions do not overlap on one machine. *)
Definition term_B (task : TransactionScheduleTask) (d : discretization)
  : outcome pyval :=
  let idxs := transaction_idxs task in
  foldM (fun B m_idx =>
    foldM (fun B t_idx =>
      sts ← start_times d (t_idx - 1);
      foldM (fun B start_time =>
        foldM (fun B remaining_t_idx =>
                 add_products d t_idx m_idx remaining_t_idx m_idx start_time B)
              B (drop (Z.to_nat t_idx) idxs))
        B sts)
      B (removelast idxs))
  (PyInt 0) (machine_idxs task).

(** [np.where(task.conflicts == 1)], stacked: the index pairs of the
    entries equal to 1, in row-major order. *)
Definition conflicts_list (conflicts : list (list Z)) : list (Z * Z) :=
  '(i, row) ← imap (fun i row => (Z.of_nat i, row)) conflicts;
  '(j, x) ← imap (fun j x => (Z.of_nat j, x)) row;
  if x =? 1 then [(i, j)] else [].

(** [np.sort(..., axis=1)] on one row of two entries. *)
Definition sort_pair (p : Z * Z) : Z * Z :=
  if p.2 <? p.1 then (p.2, p.1) else p.

Definition pair_ltb (p q : Z * Z) : bool :=
  (p.1 <? q.1) || ((p.1 =? q.1) && (p.2 <? q.2)).

(** [np.unique(..., axis=0)]: the distinct rows in lexicographic order. *)
Fixpoint insert_unique (p : Z * Z) (l : list (Z * Z)) : list (Z * Z) :=
  match l with
  | [] => [p]
  | q :: l' =>
      if pair_ltb p q then p :: l
      else if pair_ltb q p then q :: insert_unique p l'
      else l
  end.

Definition np_unique (l : list (Z * Z)) : list (Z * Z) :=
  foldr insert_unique [] l.

Definition unique_conflicts_list (conflicts : list (list Z)) : list (Z * Z) :=
  (fun p => (p.1 + 1, p.2 + 1)) <$> np_unique (sort_pair <$> conflicts_list conflicts).

(** 1.3 Conflicting transactions do not overlap on two machines. *)
Definition term_C (task : TransactionScheduleTask) (d : discretization)
  : outcome pyval :=
  foldM (fun C '(t_idx_a, t_idx_b) =>
    foldM (fun C m_idx =>
      sts ← start_times d (t_idx_a - 1);
      foldM (fun C start_time =>
        foldM (fun C remaining_m_idx =>
                 if m_idx =? remaining_m_idx then Ok C
                 else add_products d t_idx_a m_idx t_idx_b remaining_m_idx
                        start_time C)
              C (machine_idxs task))
        C sts)
      C (machine_idxs task))
  (PyInt 0) (unique_conflicts_list (conflicts task)).

(** [a ** b] on [np.int64]: negative powers are refused. *)
Definition i64_pow (a b : Z) : outcome Z :=
  if b <? 0 then Raise ValueError else Ok (wrap64 (a ^ b)).

(** 1.4 Earlier completion is preferred. *)
Definition term_D (task : TransactionScheduleTask) (d : discretization)
  : outcome pyval :=
  let machines := num_machines task + 1 in
  foldM (fun D t_idx =>
    foldM (fun D m_idx =>
      sts ← start_times d (t_idx - 1);
      foldM (fun D start_time =>
        h ← match d_execution_length d with
            | Some h => Ok h
            | None => Unspecified
            end;
        w1 ← i64_pow machines h;
        dt ← get_int (d_lengths d) (t_idx - 1);
        w2 ← i64_pow machines (i64_sub (i64_add start_time dt) 1);
        let w := np_div (int_to_float (Some w2)) (int_to_float (Some w1)) in
        Ok (py_add D (PyExpr (Mul (b_var t_idx m_idx start_time)
                                   (Num (CFloat w))))))
        D sts)
      D (machine_idxs task))
  (PyInt 0) (transaction_idxs task).

Definition hamiltonian (task : TransactionScheduleTask) (d : discretization)
  : outcome pyval :=
  A ← term_A task d;
  B ← term_B task d;
  C ← term_C task d;
  D ← term_D task d;
  Ok (py_add (py_add (py_add A B) C) D).

(** [qubo.compile().to_qubo()]. The method exists on pyqubo expressions
    only; pyqubo itself is a library outside the repository, and the
    embedding returns the compiled Hamiltonian in symbolic form. *)
Definition compile_to_qubo (qubo : pyval) : outcome expr :=
  match qubo with
  | PyInt _ => Raise AttributeError
  | PyExpr e => Ok e
  end.

Definition build_discrete_qubo (task : TransactionScheduleTask)
    (time_step_length : option Q) (number_time_steps : option Z)
  : outcome expr :=
  d ← discretize task time_step_length number_time_steps;
  qubo ← hamiltonian task d;
  compile_to_qubo qubo.

(** ** Reading the conflict matrix *)

(** [conflicts[i][j] == 1] *)
Definition flagged (M : list (list Z)) (i j : nat) : Prop :=
  exists row, M !! i = Some row /\ row !! j = Some 1.

(** Two matrices flag the same unordered pairs of transactions. *)
Definition same_conflict_pairs (M M' : list (list Z)) : Prop :=
  forall i j, (flagged M i j \/ flagged M j i) <-> (flagged M' i j \/ flagged M' j i).

Definition with_conflicts (task : TransactionScheduleTask) (M : list (list Z))
  : TransactionScheduleTask :=
  {| task_id := task_id task; num_machines := num_machines task;
     lengths := lengths task; conflicts := M; solution := solution task |}.

Definition pair_lt (p q : Z * Z) : Prop :=
  p.1 < q.1 \/ (p.1 = q.1 /\ p.2 < q.2).

Definition is_py_int (v : pyval) : Prop :=
  match v with
  | PyInt _ => True
  | PyExpr _ => False
  end.

(** Two transactions of length 5 on two machines; only [conflicts[0][1]]
    is set. *)
Definition asymmetric_task : TransactionScheduleTask :=
  {| task_id := 0; num_machines := 2;
     lengths := [5; 5]%Q;
     conflicts := [[0; 1]; [0; 0]];
     solution := [0; 1] |}.

Definition negative_lengths_task : TransactionScheduleTask :=
  {| task_id := 0; num_machines := 1;
     lengths := [-1; -1]%Q;
     conflicts := [[0; 0]; [0; 0]];
     solution := [0; 1] |}.

Definition no_machine_task : TransactionScheduleTask :=
  {| task_id := 0; num_machines := 0;
     lengths := [1; 1]%Q;
     conflicts := [[0; 1]; [1; 0]];
     solution := [0; 1] |}.

(** The [float64] numbers that Python writes [0.9] and [0.3]. *)
Definition float_0_9 : Q := 8106479329266893 # 9007199254740992.
Definition float_0_3 : Q := 5404319552844595 # 18014398509481984.

(** One transaction of length [0.9] on one machine. *)
Definition short_ceiling_task : TransactionScheduleTask :=
  {| task_id := 0; num_machines := 1;
     lengths := [float_0_9];
     conflicts := [[0]];
     solution := [0] |}.

(** ** Further notions for schedules *)

(** The transaction identifiers of a schedule, track after track. *)
Definition schedule_ids (ms : list MachineSolution) : list Z :=
  m ← ms; tx_id <$> transactions m.

(** No entry of the conflict matrix is positive. *)
Definition no_conflicts (task : TransactionScheduleTask) : Prop :=
  Forall (Forall (fun c => c <= 0)) (conflicts task).

(** A track without idle time: it starts at 0 and every transaction
    starts when its predecessor ends. *)
Definition gapless (l : list TransactionSolution) : Prop :=
  (forall a, l !! 0%nat = Some a -> start_time a = 0%Q) /\
  (forall p a b, l !! p = Some a -> l !! S p = Some b ->
     start_time b = end_time a).

(** The conflict invariant between two different placements. *)
Definition pairwise_conflict_free (task : TransactionScheduleTask)
    (s : Solution) : Prop :=
  forall k1 p1 a k2 p2 b,
    (k1, p1) <> (k2, p2) ->
    placed_at s k1 p1 a -> placed_at s k2 p2 b ->
    conflicting task (tx_id a) (tx_id b) ->
    ~ windows_overlap a b.

(** Conflicting transactions of different tracks do not overlap. *)
Definition cross_conflict_free (task : TransactionScheduleTask)
    (ms : list MachineSolution) : Prop :=
  forall k1 m1 a k2 m2 b,
    k1 <> k2 -> ms !! k1 = Some m1 -> a ∈ transactions m1 ->
    ms !! k2 = Some m2 -> b ∈ transactions m2 ->
    conflicting task (tx_id a) (tx_id b) ->
    ~ windows_overlap a b.

(** The summed lengths of the transactions of a processing order. *)
Definition total_length (task : TransactionScheduleTask) (order : list Z) : Q :=
  foldr (fun i acc => (default 0%Q (py_index (lengths task) i) + acc)%Q) 0%Q order.



(** A placed transaction [omt] leaves the window of length [dur] that
    starts at [ep] alone: it ends by [ep] or starts after the window. *)
Definition clear_of (dur ep : Q) (omt : TransactionSolution) : Prop :=
  (end_time omt <= ep)%Q \/ (ep + dur < start_time omt)%Q.

(** The invariant of the construction on at most two machines. *)
Definition two_machine_invariant (task : TransactionScheduleTask)
    (ms : list MachineSolution) : Prop :=
  (length ms <= 2)%nat /\ all_tracks chained ms /\ all_tracks well_timed ms /\
  valid_tracks task ms /\ cross_conflict_free task ms.

(** The replay loop has copied, on every track, the first transactions
    of the schedule it replays, and has emitted their identifiers. *)
Definition replay_invariant (self : Solution) (st : replay_state) : Prop :=
  length (virtual_machines st) = length (machines self) /\
  (forall j v, virtual_machines st !! j = Some v ->
     exists f n, machines self !! j = Some f /\
                 index_tracker st !! j = Some n /\
                 transactions v = take n (transactions f) /\
                 (n <= length (transactions f))%nat) /\
  solution_order st ≡ₚ schedule_ids (virtual_machines st).

(** ** Further notions for the decoder *)

(** Appending timed transactions one by one, each to the machine with the
    smallest processing time at that moment. *)
Fixpoint greedy (ms : list MachineSolution) (txs : list TransactionSolution)
  : outcome (list MachineSolution) :=
  match txs with
  | [] => Ok ms
  | t :: txs' => k ← min_machine ms; greedy (append_transaction k t ms) txs'
  end.

(** What the decoder can see of the parsed variables: the transaction
    and machine identifiers of the variables that name one of the
    [num_machines] machines, in input order. *)
Definition decode_view (task : TransactionScheduleTask)
    (reps : list VariableRepresentation.t) : list (Z * Z) :=
  (fun r => (VariableRepresentation.transaction_id r,
             VariableRepresentation.machine_id r))
  <$> filter (fun r => 0 <= VariableRepresentation.machine_id r < num_machines task)
        reps.

(** Two variable maps hand the same transactions to every machine. *)
Definition same_consumption (n : nat)
    (m m' : gmap Z (list VariableRepresentation.t)) : Prop :=
  forall k, (k < n)%nat ->
    VariableRepresentation.transaction_id <$> default [] (m !! Z.of_nat k)
    = VariableRepresentation.transaction_id <$> default [] (m' !! Z.of_nat k).

(** The number of variables still waiting in the groups of the first
    [n] machines. *)
Definition waiting (n : nat) (m : gmap Z (list VariableRepresentation.t)) : nat :=
  sum_list ((fun k => length (default [] (m !! Z.of_nat k))) <$> seq 0 n).

(** Two runs of the decoder loop agree: same machines and the same
    transactions still to come, or the same failure. *)
Definition decode_agree (r r' : outcome decode_state) : Prop :=
  match r, r' with
  | Ok st, Ok st' =>
      decode_machines st = decode_machines st' /\
      same_consumption (length (decode_machines st))
        (machine_var_map st) (machine_var_map st')
  | Raise e, Raise e' => e = e'
  | Unspecified, Unspecified => True
  | _, _ => False
  end.

(** ** Further notions for variable names *)

(** The character [c] occurs in [s]. *)
Fixpoint contains (c : ascii) (s : string) : bool :=
  match s with
  | EmptyString => false
  | String c' s' => Ascii.eqb c' c || contains c s'
  end.

(** ** Further notions for the encoder *)

(** A discretization all of whose numbers are tracked: the discrete
    lengths [ns] are non-negative, the horizon [h] exceeds none of them,
    and the latest start of a transaction is the horizon minus its
    discrete length. *)
Definition regular_discretization (d : discretization) (ns : list Z) (h : Z)
  : Prop :=
  d_lengths d = Some <$> ns /\
  d_execution_length d = Some h /\
  d_max_start_times d = (fun n => Some (h - n)) <$> ns /\
  Forall (fun n => 0 <= n <= h) ns /\
  h + 1 < 2 ^ 63.

(** What is known of the discrete length [n] the encoder computes for
    a non-negative length [l]: the division rounds, so [n] may be
    smaller than the exact ceiling of [l / ts], but it is not negative,
    it is 0 for a length 0 and at least 1 for a length of at least one
    time step. *)
Definition discrete_for (ts l : Q) (n : Z) : Prop :=
  0 <= n <= Qceiling (l / ts) /\
  ((l == 0)%Q -> n = 0) /\
  ((ts <= l)%Q -> 1 <= n).

(** The exact ceilings of the quotients [l / ts], and their sum: upper
    bounds of the discrete lengths the encoder computes. *)
Definition ceilings (task : TransactionScheduleTask) (ts : Q) : list Z :=
  (fun l => Qceiling (l / ts)) <$> lengths task.

Definition discrete_total (task : TransactionScheduleTask) (ts : Q) : Z :=
  foldr Z.add 0 (ceilings task ts).

(** The value is a pyqubo expression, not a plain number. *)
Definition is_py_expr (v : pyval) : Prop :=
  match v with
  | PyInt _ => False
  | PyExpr _ => True
  end.

(** Two transactions on one machine, the first of length zero. *)
Definition zero_length_task : TransactionScheduleTask :=
  {| task_id := 0; num_machines := 1;
     lengths := [0; 2]%Q;
     conflicts := [[0; 0]; [0; 0]];
     solution := [0; 1] |}.

(** A zero-length transaction beside two long ones: the total discrete
    work, [2 ^ 63 - 424], is an [np.int64] but not a [float64]. *)
Definition near_limit_task : TransactionScheduleTask :=
  {| task_id := 0; num_machines := 1;
     lengths := [0; inject_Z (2 ^ 63 - 1024); 600]%Q;
     conflicts := [[0; 0; 0]; [0; 0; 0]; [0; 0; 0]];
     solution := [0; 1; 2] |}.

(** * Proofs *)

(** ** The error monad *)

Lemma bind_Ok {A B} (m : outcome A) (f : A -> outcome B) (b : B) :
  (m ≫= f) = Ok b -> exists a, m = Ok a /\ f a = Ok b.
Proof. destruct m as [a| |]; simpl; intros H; try discriminate. eauto. Qed.

Lemma or_raise_Ok {A} e (o : option A) a : or_raise e o = Ok a -> o = Some a.
Proof. destruct o; simpl; congruence. Qed.

Ltac inv_bind H :=
  let a := fresh "a" in
  let Ha := fresh "Ha" in
  apply bind_Ok in H; destruct H as (a & Ha & H).

Lemma foldM_app {A S} (f : S -> A -> outcome S) s l1 l2 :
  foldM f s (l1 ++ l2) = (s' ← foldM f s l1; foldM f s' l2).
Proof.
  revert s; induction l1 as [|a l1 IH]; intros s; simpl; [done|].
  destruct (f s a); simpl; auto.
Qed.

(** ** Rational comparisons *)

Lemma Qltb_lt a b : Qltb a b = true <-> (a < b)%Q.
Proof.
  unfold Qltb. rewrite negb_true_iff. split.
  - intros H. apply Qnot_le_lt. intros Hle. apply Qle_bool_iff in Hle. congruence.
  - intros H. destruct (Qle_bool b a) eqn:E; [|done].
    apply Qle_bool_iff in E. lra.
Qed.

Lemma Qltb_ge a b : Qltb a b = false <-> (b <= a)%Q.
Proof.
  unfold Qltb. rewrite negb_false_iff. apply Qle_bool_iff.
Qed.

Lemma py_max2_ge_l a b : (a <= py_max2 a b)%Q.
Proof. unfold py_max2. destruct (Qltb a b) eqn:E; [apply Qltb_lt in E|]; lra. Qed.

Lemma py_max2_ge_r a b : (b <= py_max2 a b)%Q.
Proof. unfold py_max2. destruct (Qltb a b) eqn:E; [|apply Qltb_ge in E]; lra. Qed.

Lemma py_max2_cases a b : py_max2 a b = a \/ py_max2 a b = b.
Proof. unfold py_max2. destruct (Qltb a b); auto. Qed.

(** ** Selecting the machine with the smallest processing time *)

Lemma argmin_from_spec keys : forall bi b i,
  let r := argmin_from bi b i keys in
  (r = bi /\ Forall (fun k => (b <= k)%Q) keys) \/
  (exists p kp, r = (i + p)%nat /\ keys !! p = Some kp /\ (kp < b)%Q /\
     Forall (fun k => (kp <= k)%Q) keys /\
     forall q kq, (q < p)%nat -> keys !! q = Some kq -> (kp < kq)%Q).
Proof.
  induction keys as [|k keys IH]; intros bi b i; simpl.
  - left. split; [done|constructor].
  - destruct (Qltb k b) eqn:E.
    + apply Qltb_lt in E. right.
      destruct (IH i k (S i)) as [[-> HF]|(p & kp & -> & Hp & Hlt & HF & Hq)].
      * exists 0%nat, k. split; [lia|]. split; [done|]. split; [done|]. split.
        -- constructor; [cbn beta; lra|done].
        -- intros q kq Hq. lia.
      * exists (S p), kp. split; [lia|]. split; [done|]. split; [lra|]. split.
        -- constructor; [cbn beta; lra|done].
        -- intros [|q] kq Hlq; simpl; intros Hk.
           ++ inversion Hk; subst. lra.
           ++ apply (Hq q); [lia|done].
    + apply Qltb_ge in E.
      destruct (IH bi b (S i)) as [[-> HF]|(p & kp & -> & Hp & Hlt & HF & Hq)].
      * left. split; [done|]. constructor; done.
      * right. exists (S p), kp.
        split; [lia|]. split; [done|]. split; [done|]. split.
        -- constructor; [cbn beta; lra|done].
        -- intros [|q] kq Hlq; simpl; intros Hk.
           ++ inversion Hk; subst. lra.
           ++ apply (Hq q); [lia|done].
Qed.

(** [min] returns a machine of the list, none is strictly faster and
    all machines before it are strictly slower. *)
Lemma min_machine_spec ms i :
  min_machine ms = Ok i ->
  exists m, ms !! i = Some m /\
    (forall j mj, ms !! j = Some mj -> (processing_time m <= processing_time mj)%Q) /\
    (forall j mj, (j < i)%nat -> ms !! j = Some mj ->
        (processing_time m < processing_time mj)%Q).
Proof.
  unfold min_machine. destruct ms as [|m0 ms]; [done|].
  rewrite fmap_cons. intros [= Hi].
  pose proof (argmin_from_spec (processing_time <$> ms) 0%nat
                (processing_time m0) 1%nat) as Hs.
  cbv zeta in Hs. rewrite Hi in Hs.
  destruct Hs as [[-> HF]|(p & kp & -> & Hp & Hlt & HF & Hq)].
  - exists m0. split; [done|]. split.
    + intros [|j] mj; simpl; intros Hj.
      * inversion Hj; subst. lra.
      * rewrite Forall_forall in HF. apply HF.
        apply list_elem_of_fmap. exists mj. split; [done|].
        by apply list_elem_of_lookup_2 in Hj.
    + intros j mj Hj. lia.
  - rewrite list_lookup_fmap in Hp.
    destruct (ms !! p) as [mp|] eqn:Emp; simpl in Hp; [|done].
    inversion Hp; subst kp. exists mp. split; [done|]. split.
    + intros [|j] mj; simpl; intros Hj.
      * inversion Hj; subst. lra.
      * rewrite Forall_forall in HF. apply HF.
        apply list_elem_of_fmap. exists mj. split; [done|].
        by apply list_elem_of_lookup_2 in Hj.
    + intros [|j] mj Hlj; simpl; intros Hj.
      * inversion Hj; subst. done.
      * apply (Hq j); [lia|]. rewrite list_lookup_fmap, Hj. done.
Qed.

(** ** Equality of machine objects and [list.index] *)

Lemma tx_eqb_refl t : tx_eqb t t = true.
Proof.
  unfold tx_eqb. rewrite Z.eqb_refl. simpl.
  rewrite !(proj2 (Qeq_bool_iff _ _) (Qeq_refl _)). done.
Qed.

Lemma txs_eqb_refl l : txs_eqb l l = true.
Proof. induction l as [|t l IH]; simpl; [done|]. by rewrite tx_eqb_refl, IH. Qed.

Lemma machine_eqb_refl m : machine_eqb m m = true.
Proof. apply txs_eqb_refl. Qed.

Lemma txs_eqb_last l1 : forall l2,
  txs_eqb l1 l2 = true ->
  match last l1, last l2 with
  | Some a, Some b => (end_time a == end_time b)%Q
  | None, None => True
  | _, _ => False
  end.
Proof.
  induction l1 as [|a l1 IH]; intros [|b l2]; simpl; try done.
  intros H. apply andb_true_iff in H as [Hab H].
  specialize (IH l2 H).
  destruct l1 as [|a' l1], l2 as [|b' l2]; simpl in *; try done.
  unfold tx_eqb in Hab. rewrite !andb_true_iff in Hab.
  destruct Hab as [[_ He] _]. by apply Qeq_bool_iff.
Qed.

Lemma machine_eqb_processing_time m1 m2 :
  machine_eqb m1 m2 = true -> (processing_time m1 == processing_time m2)%Q.
Proof.
  unfold machine_eqb, processing_time. intros H.
  apply txs_eqb_last in H.
  destruct (last (transactions m1)), (last (transactions m2)); try done.
Qed.

Lemma index_from_first ms : forall s i m,
  ms !! i = Some m ->
  (forall j mj, (j < i)%nat -> ms !! j = Some mj -> machine_eqb mj m = false) ->
  index_from s m ms = Ok (s + i)%nat.
Proof.
  induction ms as [|m' ms IH]; intros s i m Hi Hlt; [done|].
  destruct i as [|i]; simpl in *.
  - inversion Hi; subst. rewrite machine_eqb_refl. f_equal. lia.
  - rewrite (Hlt 0%nat m'); [|lia|done].
    rewrite (IH (S s) i m Hi).
    + f_equal. lia.
    + intros j mj Hj Hmj. apply (Hlt (S j)); [lia|done].
Qed.

(** [machines.index(min(machines, ...))] is the position of the minimum. *)
Lemma index_of_min ms i m :
  min_machine ms = Ok i -> ms !! i = Some m -> index_from 0 m ms = Ok i.
Proof.
  intros Hmin Hi.
  destruct (min_machine_spec ms i Hmin) as (m' & Hm' & _ & Hlt).
  rewrite Hi in Hm'. inversion Hm'; subst m'.
  apply (index_from_first ms 0%nat i m Hi).
  intros j mj Hj Hmj.
  destruct (machine_eqb mj m) eqn:E; [|done].
  apply machine_eqb_processing_time in E.
  specialize (Hlt j mj Hj Hmj). lra.
Qed.

(** ** Placing one transaction *)

Lemma scan_transaction_mono cf tid dur ep omt ep' :
  scan_transaction cf tid dur ep omt = Ok ep' -> (ep <= ep')%Q.
Proof.
  unfold scan_transaction. intros H. inv_bind H.
  destruct (_ && _ && _); inversion H; subst.
  - apply py_max2_ge_r.
  - lra.
Qed.

Lemma scan_track_mono cf tid dur l : forall ep ep',
  foldM (scan_transaction cf tid dur) ep l = Ok ep' -> (ep <= ep')%Q.
Proof.
  induction l as [|omt l IH]; simpl; intros ep ep' H.
  - inversion H; subst. lra.
  - inv_bind H. apply scan_transaction_mono in Ha. apply IH in H. lra.
Qed.

Lemma scan_machines_mono cf tid dur k ms : forall j ep ep',
  scan_machines cf tid dur k j ms ep = Ok ep' -> (ep <= ep')%Q.
Proof.
  induction ms as [|m ms IH]; simpl; intros j ep ep' H.
  - inversion H; subst. lra.
  - inv_bind H. apply IH in H.
    destruct (decide (j = k)).
    + inversion Ha; subst. done.
    + apply scan_track_mono in Ha. lra.
Qed.

(** What [build_transaction_solution] does to the list of machines. *)
Lemma build_transaction_solution_Ok k ms tid dur cf ms' :
  build_transaction_solution k ms tid dur cf = Ok ms' ->
  exists machine ep,
    ms !! k = Some machine /\
    scan_machines cf tid dur k 0 ms (initial_earliest machine) = Ok ep /\
    ms' = append_transaction k
            {| tx_id := tid; start_time := ep;
               end_time := (ep + dur)%Q; duration := dur |} ms.
Proof.
  unfold build_transaction_solution. intros H.
  destruct (ms !! k) as [machine|] eqn:Ek; simpl in H; [|done].
  inv_bind H. inversion H; subst. eauto.
Qed.

Lemma append_transaction_lookup k t ms m :
  ms !! k = Some m ->
  append_transaction k t ms !! k = Some {| transactions := transactions m ++ [t] |}.
Proof.
  intros H. unfold append_transaction. rewrite list_lookup_alter, H. by case_decide.
Qed.

Lemma append_transaction_lookup_ne k j t ms :
  k <> j -> append_transaction k t ms !! j = ms !! j.
Proof. intros H. unfold append_transaction. by rewrite list_lookup_alter_ne. Qed.

Lemma append_transaction_length k t ms :
  length (append_transaction k t ms) = length ms.
Proof. unfold append_transaction. apply length_alter. Qed.

(** One step of the construction appends one timed transaction to the
    track with the smallest processing time. *)
Lemma place_next_Ok task ms tid ms' :
  place_next task ms tid = Ok ms' ->
  exists k machine dur ep,
    min_machine ms = Ok k /\ ms !! k = Some machine /\
    py_index (lengths task) tid = Some dur /\
    (initial_earliest machine <= ep)%Q /\
    ms' = append_transaction k
            {| tx_id := tid; start_time := ep;
               end_time := (ep + dur)%Q; duration := dur |} ms.
Proof.
  unfold place_next. intros H.
  inv_bind H. rename a into k. inv_bind H. rename a into dur.
  apply or_raise_Ok in Ha0.
  apply build_transaction_solution_Ok in H as (machine & ep & Hk & Hscan & ->).
  apply scan_machines_mono in Hscan.
  exists k, machine, dur, ep. done.
Qed.

(** ** Invariants of the construction loop *)

Lemma foldM_invariant {A S} (f : S -> A -> outcome S) (P : S -> Prop) :
  (forall s a s', P s -> f s a = Ok s' -> P s') ->
  forall l s s', P s -> foldM f s l = Ok s' -> P s'.
Proof.
  intros Hstep. induction l as [|a l IH]; simpl; intros s s' Hs H.
  - by inversion H; subst.
  - inv_bind H. eauto.
Qed.

Lemma all_tracks_empty P n : P [] -> all_tracks P (empty_machines n).
Proof.
  intros H. unfold all_tracks, empty_machines.
  apply Forall_replicate. done.
Qed.

Lemma all_tracks_append P k t ms m :
  all_tracks P ms -> ms !! k = Some m -> P (transactions m ++ [t]) ->
  all_tracks P (append_transaction k t ms).
Proof.
  unfold all_tracks. rewrite !Forall_lookup. intros Hall Hk HP j mj Hj.
  destruct (decide (k = j)) as [<-|Hne].
  - rewrite (append_transaction_lookup _ _ _ _ Hk) in Hj.
    inversion Hj; subst. done.
  - rewrite append_transaction_lookup_ne in Hj by done. eauto.
Qed.

Lemma chained_snoc l t :
  chained l ->
  (forall a, last l = Some a -> (end_time a <= start_time t)%Q) ->
  chained (l ++ [t]).
Proof.
  intros Hc Hlast p a b Ha Hb.
  destruct (decide (S p < length l)%nat) as [Hlt|Hge].
  - rewrite lookup_app_l in Ha by lia. rewrite lookup_app_l in Hb by lia. eauto.
  - assert (S p = length l) as Hp.
    { apply lookup_lt_Some in Hb. rewrite length_app in Hb. simpl in Hb. lia. }
    rewrite lookup_app_l in Ha by lia.
    rewrite Hp, list_lookup_middle in Hb by done. inversion Hb; subst b.
    apply Hlast. rewrite last_lookup. rewrite <- Hp. simpl. done.
Qed.

Lemma chained_ordered l :
  chained l -> well_timed l ->
  forall p q a b, (p < q)%nat -> l !! p = Some a -> l !! q = Some b ->
    (end_time a <= start_time b)%Q.
Proof.
  intros Hc Hw p q. induction q as [|q IH]; intros a b Hpq Ha Hb; [lia|].
  destruct (decide (p = q)) as [->|Hne]; [eauto|].
  destruct (lookup_lt_is_Some_2 l q) as [c Hq].
  { apply lookup_lt_Some in Hb. lia. }
  assert (end_time a <= start_time c)%Q by (apply IH; [lia|done..]).
  assert (end_time c <= start_time b)%Q by eauto.
  assert (start_time c <= end_time c)%Q.
  { unfold well_timed in Hw. rewrite Forall_lookup in Hw. eauto. }
  lra.
Qed.

Lemma place_next_chained task ms tid ms' :
  all_tracks chained ms -> place_next task ms tid = Ok ms' ->
  all_tracks chained ms'.
Proof.
  intros Hall H.
  apply place_next_Ok in H as (k & machine & dur & ep & _ & Hk & _ & Hep & ->).
  apply (all_tracks_append _ _ _ _ machine); [done..|].
  apply chained_snoc.
  - unfold all_tracks in Hall. rewrite Forall_lookup in Hall. eauto.
  - intros a Ha. simpl. unfold initial_earliest in Hep. by rewrite Ha in Hep.
Qed.

Lemma py_index_elem_of {A} (l : list A) i x : py_index l i = Some x -> x ∈ l.
Proof.
  unfold py_index. intros H.
  destruct (_ && _); [by eapply list_elem_of_lookup_2|].
  destruct (_ && _); [by eapply list_elem_of_lookup_2|done].
Qed.

Lemma place_next_well_timed task ms tid ms' :
  nonneg_lengths task ->
  all_tracks well_timed ms -> place_next task ms tid = Ok ms' ->
  all_tracks well_timed ms'.
Proof.
  intros Hnn Hall H.
  apply place_next_Ok in H as (k & machine & dur & ep & _ & Hk & Hdur & _ & ->).
  apply (all_tracks_append _ _ _ _ machine); [done..|].
  unfold well_timed. apply Forall_app. split.
  - unfold all_tracks in Hall. rewrite Forall_lookup in Hall. apply (Hall k machine Hk).
  - constructor; [|constructor]. simpl.
    apply py_index_elem_of in Hdur.
    unfold nonneg_lengths in Hnn. rewrite Forall_forall in Hnn.
    specialize (Hnn dur Hdur). lra.
Qed.

Lemma not_overlap_ordered a b :
  (end_time a <= start_time b)%Q -> ~ windows_overlap a b.
Proof. intros H (t & H1 & H2 & H3 & H4). lra. Qed.

Lemma windows_overlap_sym a b : windows_overlap a b -> windows_overlap b a.
Proof. intros (t & H1 & H2 & H3 & H4). exists t. done. Qed.

(** C6. In the schedule built from any processing order, every
    transaction on a track starts no earlier than the end of the one
    appended before it; and, the lengths of the task being
    non-negative, no two transactions of one track have overlapping
    half-open windows. *)
Theorem exclusivity_invariant (task : TransactionScheduleTask)
    (order : list Z) (s : Solution) :
  solution_order_to_solution task order = Ok s ->
  (forall k p a b, placed_at s k p a -> placed_at s k (S p) b ->
     (end_time a <= start_time b)%Q) /\
  (nonneg_lengths task ->
   forall k p q a b, p <> q -> placed_at s k p a -> placed_at s k q b ->
     ~ windows_overlap a b).
Proof.
  unfold solution_order_to_solution. intros H. inv_bind H.
  inversion H; subst s; clear H. rename a into ms, Ha into Hfold.
  assert (all_tracks chained ms) as Hch.
  { eapply (foldM_invariant _ (all_tracks chained)); [|apply all_tracks_empty|done].
    - intros ? ? ? ? ?. by eapply place_next_chained.
    - intros p a b Ha. done. }
  split.
  - intros k p a b (m & Hm & Ha) (m' & Hm' & Hb). simpl in *.
    rewrite Hm in Hm'. inversion Hm'; subst m'.
    unfold all_tracks in Hch. rewrite Forall_lookup in Hch.
    by apply (Hch k m Hm p).
  - intros Hnn.
    assert (all_tracks well_timed ms) as Hwt.
    { eapply (foldM_invariant _ (all_tracks well_timed));
        [|apply all_tracks_empty|done].
      - intros ? ? ? ? ?. by eapply place_next_well_timed.
      - constructor. }
    intros k p q a b Hpq (m & Hm & Ha) (m' & Hm' & Hb). simpl in *.
    rewrite Hm in Hm'. inversion Hm'; subst m'.
    unfold all_tracks in Hch, Hwt. rewrite Forall_lookup in Hch, Hwt.
    specialize (Hch k m Hm). specialize (Hwt k m Hm).
    destruct (decide (p < q)%nat).
    + apply not_overlap_ordered. by apply (chained_ordered _ Hch Hwt p q).
    + intros Ho. apply windows_overlap_sym in Ho. revert Ho.
      apply not_overlap_ordered. apply (chained_ordered _ Hch Hwt q p); [lia|done..].
Qed.

Lemma exclusivity_invariant_witness :
  exists s,
    solution_order_to_solution late_conflict_task [0; 1; 2; 3; 4] = Ok s /\
    (forall k p a b, placed_at s k p a -> placed_at s k (S p) b ->
       (end_time a <= start_time b)%Q) /\
    (forall k p q a b, p <> q -> placed_at s k p a -> placed_at s k q b ->
       ~ windows_overlap a b).
Proof.
  assert (exists s, solution_order_to_solution late_conflict_task [0; 1; 2; 3; 4] = Ok s)
    as [s Hs] by (vm_compute; eauto).
  exists s. split; [exact Hs|].
  destruct (exclusivity_invariant late_conflict_task [0; 1; 2; 3; 4] s Hs) as [H1 H2].
  split; [exact H1|]. apply H2. repeat constructor; done.
Defined.

(** ** Replaying a schedule *)

Lemma extends_refl M : extends M M.
Proof. split; [done|]. intros j m Hj. exists m. done. Qed.

Lemma extends_trans M1 M2 M3 : extends M1 M2 -> extends M2 M3 -> extends M1 M3.
Proof.
  intros [Hl1 H1] [Hl2 H2]. split; [congruence|].
  intros j m Hj. destruct (H1 j m Hj) as (f & Hf & Hp).
  destruct (H2 j f Hf) as (g & Hg & Hq).
  exists g. split; [done|]. by etrans.
Qed.

Lemma append_transaction_extends k t ms : extends ms (append_transaction k t ms).
Proof.
  split; [by rewrite append_transaction_length|].
  intros j m Hj. destruct (decide (k = j)) as [<-|Hne].
  - rewrite (append_transaction_lookup _ _ _ _ Hj). eexists. split; [done|].
    simpl. by apply prefix_app_r.
  - rewrite append_transaction_lookup_ne by done. exists m. done.
Qed.

Lemma construction_extends task order : forall M F,
  foldM (place_next task) M order = Ok F -> extends M F.
Proof.
  induction order as [|tid order IH]; simpl; intros M F H.
  - inversion H; subst. apply extends_refl.
  - inv_bind H. apply IH in H.
    apply place_next_Ok in Ha as (k & machine & dur & ep & _ & _ & _ & _ & ->).
    eapply extends_trans; [|done]. apply append_transaction_extends.
Qed.

Lemma placed_count_append k t ms m :
  ms !! k = Some m ->
  placed_count (append_transaction k t ms) = S (placed_count ms).
Proof.
  unfold placed_count, append_transaction. revert k.
  induction ms as [|m' ms IH]; intros [|k] Hk; try done.
  - simpl in *. inversion Hk; subst. rewrite length_app. simpl. lia.
  - specialize (IH k Hk). unfold fmap, alter in *. simpl in *. lia.
Qed.

Lemma construction_count task order : forall M F,
  foldM (place_next task) M order = Ok F ->
  placed_count F = (placed_count M + length order)%nat.
Proof.
  induction order as [|tid order IH]; simpl; intros M F H.
  - inversion H; subst. lia.
  - inv_bind H. apply IH in H. rewrite H.
    apply place_next_Ok in Ha as (k & machine & dur & ep & _ & Hk & _ & _ & ->).
    rewrite (placed_count_append _ _ _ _ Hk). lia.
Qed.

Lemma placed_count_empty n : placed_count (empty_machines n) = 0%nat.
Proof.
  unfold placed_count, empty_machines.
  induction (Z.to_nat n) as [|k IH]; simpl; [done|]. done.
Qed.

Lemma initial_tracker_lookup n j :
  (j < n)%nat -> initial_tracker n !! j = Some 0%nat.
Proof.
  unfold initial_tracker.
  assert (forall a, (a <= j < a + n)%nat ->
    (list_to_map ((fun m => (m, 0%nat)) <$> seq a n) : gmap nat nat) !! j = Some 0%nat)
    as Hgen.
  { induction n as [|n IH]; intros a Ha; [lia|].
    simpl. destruct (decide (a = j)) as [->|Hne].
    - by rewrite lookup_insert_eq.
    - rewrite lookup_insert_ne by done. apply IH. lia. }
  intros Hj. apply (Hgen 0%nat). lia.
Qed.

(** The replay loop, started in a state that mirrors an intermediate
    state [M] of the construction, emits the rest of the order. *)
Lemma replay_follows task c post : forall M F tracker out,
  foldM (place_next task) M post = Ok F ->
  (forall j m, M !! j = Some m -> tracker !! j = Some (length (transactions m))) ->
  exists st,
    replay {| machines := F; cached_length := c |} (length post)
      {| virtual_machines := M; index_tracker := tracker; solution_order := out |}
      = Ok st /\
    solution_order st = out ++ post.
Proof.
  induction post as [|tid post IH]; simpl; intros M F tracker out Hfold Htr.
  - eexists. split; [done|]. simpl. by rewrite app_nil_r.
  - inv_bind Hfold. rename a into M', Ha into Hstep.
    pose proof (construction_extends _ _ _ _ Hfold) as [_ Hext].
    apply place_next_Ok in Hstep
      as (k & machine & dur & ep & Hmin & Hk & _ & _ & ->).
    set (t := {| tx_id := tid; start_time := ep;
                 end_time := (ep + dur)%Q; duration := dur |}) in *.
    destruct (Hext k _ (append_transaction_lookup k t M machine Hk))
      as (f & Hf & Hpre). simpl in Hpre.
    assert (transactions f !! length (transactions machine) = Some t) as Ht.
    { destruct Hpre as [rest ->]. rewrite <- app_assoc.
      change ([t] ++ rest) with (t :: rest). by rewrite list_lookup_middle. }
    unfold replay_step. simpl.
    rewrite Hmin. simpl. rewrite Hk. simpl.
    rewrite (index_of_min _ _ _ Hmin Hk). simpl.
    rewrite (Htr k machine Hk). simpl. rewrite Hf. simpl. rewrite Ht. simpl.
    destruct (IH (append_transaction k t M) F
                (<[k := S (length (transactions machine))]> tracker)
                (out ++ [tid]) Hfold) as (st & Hst & Hout).
    + intros j m Hj. destruct (decide (k = j)) as [<-|Hne].
      * rewrite (append_transaction_lookup _ _ _ _ Hk) in Hj.
        inversion Hj; subst m. simpl.
        rewrite lookup_insert_eq, length_app. simpl. f_equal. lia.
      * rewrite append_transaction_lookup_ne in Hj by done.
        rewrite lookup_insert_ne by done. eauto.
    + exists st. split; [done|]. rewrite Hout, <- app_assoc. done.
Qed.

(** ** The construction never fails on a well-formed task *)

Lemma py_index_in_range {A} (l : list A) i :
  0 <= i < Z.of_nat (length l) -> exists x, py_index l i = Some x.
Proof.
  intros Hi. unfold py_index.
  destruct (lookup_lt_is_Some_2 l (Z.to_nat i)) as [x Hx]; [lia|].
  exists x. rewrite Hx.
  replace (0 <=? i) with true by (symmetry; apply Z.leb_le; lia).
  replace (i <? Z.of_nat (length l)) with true by (symmetry; apply Z.ltb_lt; lia).
  done.
Qed.

Lemma conflict_entry_in_range task a b :
  square_conflicts task -> valid_id task a -> valid_id task b ->
  exists c, conflict_entry (conflicts task) a b = Ok c.
Proof.
  intros [Hrows Hcols] Ha Hb. unfold valid_id, num_transactions in *.
  unfold conflict_entry.
  destruct (py_index_in_range (conflicts task) a) as [row Hrow]; [lia|].
  rewrite Hrow. simpl.
  apply py_index_elem_of in Hrow. rewrite Forall_forall in Hcols.
  destruct (py_index_in_range row b) as [c Hc]; [rewrite (Hcols row Hrow); lia|].
  rewrite Hc. simpl. eauto.
Qed.

Lemma scan_transaction_total task tid dur ep omt :
  square_conflicts task -> valid_id task tid -> valid_id task (tx_id omt) ->
  exists ep', scan_transaction (conflicts task) tid dur ep omt = Ok ep'.
Proof.
  intros Hsq Htid Homt. unfold scan_transaction.
  destruct (conflict_entry_in_range task (tx_id omt) tid) as [c ->]; [done..|].
  simpl. destruct (_ && _ && _); eauto.
Qed.

Lemma scan_track_total task tid dur l :
  square_conflicts task -> valid_id task tid ->
  Forall (fun t => valid_id task (tx_id t)) l ->
  forall ep, exists ep',
    foldM (scan_transaction (conflicts task) tid dur) ep l = Ok ep'.
Proof.
  intros Hsq Htid. induction 1 as [|omt l Homt _ IH]; intros ep; cbn [foldM].
  - eauto.
  - destruct (scan_transaction_total task tid dur ep omt) as [ep' ->]; [done..|].
    simpl. apply IH.
Qed.

Lemma scan_machines_total task tid dur k ms :
  square_conflicts task -> valid_id task tid -> valid_tracks task ms ->
  forall j ep, exists ep',
    scan_machines (conflicts task) tid dur k j ms ep = Ok ep'.
Proof.
  intros Hsq Htid. induction 1 as [|m ms Hm _ IH]; intros j ep; cbn [scan_machines].
  - eauto.
  - destruct (decide (j = k)); simpl; [apply IH|].
    destruct (scan_track_total task tid dur (transactions m) Hsq Htid Hm ep)
      as [ep' ->].
    simpl. apply IH.
Qed.

Lemma place_next_total task ms tid :
  square_conflicts task -> valid_id task tid ->
  ms <> [] -> valid_tracks task ms ->
  exists ms', place_next task ms tid = Ok ms' /\
              ms' <> [] /\ valid_tracks task ms'.
Proof.
  intros Hsq Htid Hne Hval. unfold place_next.
  destruct (min_machine ms) as [k| |] eqn:Hmin.
  2,3: unfold min_machine in Hmin; destruct ms; simpl in Hmin; done.
  destruct (min_machine_spec _ _ Hmin) as (machine & Hk & _).
  destruct (py_index_in_range (lengths task) tid) as [dur Hdur]; [done|].
  simpl. rewrite Hdur. simpl.
  unfold build_transaction_solution. rewrite Hk. simpl.
  destruct (scan_machines_total task tid dur k ms Hsq Htid Hval 0%nat
              (initial_earliest machine)) as [ep ->].
  simpl. eexists. split; [done|]. split.
  - intros Hnil. apply (f_equal length) in Hnil.
    rewrite append_transaction_length in Hnil. destruct ms; simpl in *; done.
  - apply (all_tracks_append _ _ _ _ machine); [done..|].
    apply Forall_app. split.
    + unfold valid_tracks, all_tracks in Hval. rewrite Forall_lookup in Hval.
      apply (Hval k machine Hk).
    + constructor; [done|constructor].
Qed.

Lemma construction_total task order :
  square_conflicts task -> Forall (valid_id task) order ->
  forall ms, ms <> [] -> valid_tracks task ms ->
  exists F, foldM (place_next task) ms order = Ok F.
Proof.
  intros Hsq. induction 1 as [|tid order Htid _ IH]; intros ms Hne Hval; simpl.
  - eauto.
  - destruct (place_next_total task ms tid Hsq Htid Hne Hval)
      as (ms' & -> & Hne' & Hval').
    simpl. by apply IH.
Qed.

Lemma solution_order_to_solution_total task order :
  1 <= num_machines task -> square_conflicts task ->
  Forall (valid_id task) order ->
  exists s, solution_order_to_solution task order = Ok s.
Proof.
  intros Hm Hsq Hord. unfold solution_order_to_solution.
  destruct (construction_total task order Hsq Hord
              (empty_machines (num_machines task))) as [F ->].
  - unfold empty_machines. destruct (Z.to_nat (num_machines task)) eqn:E; [lia|done].
  - apply all_tracks_empty. constructor.
  - simpl. eauto.
Qed.

(** The round trip, for any schedule the construction returns. *)
Lemma replay_of_construction task order s :
  solution_order_to_solution task order = Ok s ->
  solution_to_solution_order s = Ok order.
Proof.
  unfold solution_order_to_solution. intros H. inv_bind H.
  inversion H; subst s; clear H. rename a into F, Ha into Hfold.
  unfold solution_to_solution_order, new_solution. simpl.
  pose proof (construction_count _ _ _ _ Hfold) as Hcount.
  rewrite placed_count_empty in Hcount. unfold placed_count in Hcount.
  rewrite Hcount. simpl.
  pose proof (construction_extends _ _ _ _ Hfold) as [Hlen _].
  rewrite <- Hlen. unfold empty_machines at 1 2. rewrite length_replicate.
  destruct (replay_follows task None order (empty_machines (num_machines task)) F
              (initial_tracker (Z.to_nat (num_machines task))) [] Hfold)
    as (st & Hst & Hout).
  - intros j m Hj. unfold empty_machines in Hj.
    apply lookup_replicate in Hj as [-> Hj]. simpl.
    by apply initial_tracker_lookup.
  - unfold empty_machines in Hst. rewrite Hst. simpl. by rewrite Hout.
Qed.

(** C4. Round trip: for a task with at least one machine and a square
    conflict matrix, and any sequence [order] of its transaction
    identifiers, the construction returns a schedule and
    [solution_to_solution_order] of that schedule is exactly [order].
    Distinct or non-zero durations, the absence of ties and [order]
    being a permutation are not needed: the replay repeats the very
    selections of the construction. *)
Theorem round_trip (task : TransactionScheduleTask) (order : list Z) :
  1 <= num_machines task -> square_conflicts task ->
  Forall (valid_id task) order ->
  exists s, solution_order_to_solution task order = Ok s /\
            solution_to_solution_order s = Ok order.
Proof.
  intros Hm Hsq Hord.
  destruct (solution_order_to_solution_total task order Hm Hsq Hord) as [s Hs].
  exists s. split; [done|]. by eapply replay_of_construction.
Qed.

Lemma round_trip_witness :
  exists s, solution_order_to_solution scenario_task [0; 1; 2] = Ok s /\
            solution_to_solution_order s = Ok [0; 1; 2].
Proof.
  apply (round_trip scenario_task [0; 1; 2]).
  - simpl. lia.
  - split; [reflexivity|]. repeat constructor.
  - repeat constructor; unfold num_transactions; simpl; lia.
Defined.

(** ** The conflict invariant *)

(** C1. The conflict invariant does not hold of the code: on the
    well-formed task [late_conflict_task] (three machines, symmetric
    conflicts, positive lengths) and the order 0,1,2,3,4 the schedule
    places the conflicting transactions 3 and 4 both on [4, 6). The scan
    passes track 0 before track 1 pushes the start from 1 to 4, and
    track 0 is not looked at again. *)
Theorem conflict_invariant_violated :
  1 <= num_machines late_conflict_task /\
  square_conflicts late_conflict_task /\
  symmetric_conflicts late_conflict_task /\
  nonneg_lengths late_conflict_task /\
  exists s,
    solution_order_to_solution late_conflict_task [0; 1; 2; 3; 4] = Ok s /\
    machines s =
      [ {| transactions := [mk_tx 0 0 1; mk_tx 3 4 2] |};
        {| transactions := [mk_tx 1 0 4] |};
        {| transactions := [mk_tx 2 0 1; mk_tx 4 4 2] |} ] /\
    ~ conflict_free late_conflict_task s.
Proof.
  split; [vm_compute; congruence|].
  split; [split; [done|repeat constructor]|].
  split.
  { intros i j Hi Hj. simpl in Hi, Hj.
    assert (i = 0 \/ i = 1 \/ i = 2 \/ i = 3 \/ i = 4) as Hci by lia.
    assert (j = 0 \/ j = 1 \/ j = 2 \/ j = 3 \/ j = 4) as Hcj by lia.
    destruct Hci as [->|[->|[->|[->| ->]]]];
      destruct Hcj as [->|[->|[->|[->| ->]]]]; reflexivity. }
  split; [repeat constructor; done|].
  eexists. split; [vm_compute; reflexivity|]. split; [reflexivity|].
  intros Hcf.
  apply (Hcf 0%nat 1%nat (mk_tx 3 4 2) 2%nat 1%nat (mk_tx 4 4 2)).
  - eexists. split; reflexivity.
  - eexists. split; reflexivity.
  - exists 1. split; [reflexivity|lia].
  - exists 4%Q. simpl. lra.
Qed.

(** ** The push rule of [build_transaction_solution] *)


Lemma py_max2_left a b : (b <= a)%Q -> py_max2 a b = a.
Proof. intros H. unfold py_max2. by rewrite (proj2 (Qltb_ge a b) H). Qed.






(** ** The makespan *)

Lemma fold_py_max2_spec l : forall x,
  let v := fold_left py_max2 l x in
  v ∈ x :: l /\ forall e, e ∈ x :: l -> (e <= v)%Q.
Proof.
  induction l as [|y l IH]; intros x; simpl.
  - split; [by left|]. intros e He. apply list_elem_of_singleton in He. subst. lra.
  - destruct (IH (py_max2 x y)) as [Hin Hle]. split.
    + apply elem_of_cons in Hin as [Heq|Hin].
      * rewrite Heq. destruct (py_max2_cases x y) as [->| ->].
        -- by left.
        -- right. by left.
      * right. by right.
    + intros e He.
      assert (py_max2 x y <= fold_left py_max2 l (py_max2 x y))%Q as Hm
        by (apply Hle; by left).
      apply elem_of_cons in He as [->|He].
      * pose proof (py_max2_ge_l x y). lra.
      * apply elem_of_cons in He as [->|He].
        -- pose proof (py_max2_ge_r x y). lra.
        -- apply Hle. by right.
Qed.

Lemma elem_of_end_times s e :
  e ∈ end_times s <-> exists k p t, placed_at s k p t /\ e = end_time t.
Proof.
  unfold end_times, placed_at. rewrite list_elem_of_bind. split.
  - intros (m & He & Hm). apply list_elem_of_bind in He as (t & He & Ht).
    apply list_elem_of_singleton in He.
    apply list_elem_of_lookup in Hm as [k Hk].
    apply list_elem_of_lookup in Ht as [p Hp].
    exists k, p, t. split; [eauto|done].
  - intros (k & p & t & (m & Hk & Hp) & ->).
    exists m. split; [|by eapply list_elem_of_lookup_2].
    apply list_elem_of_bind. exists t. split; [by apply list_elem_of_singleton|].
    by eapply list_elem_of_lookup_2.
Qed.

Lemma end_times_nil s : all_tracks_empty_in s -> end_times s = [].
Proof.
  unfold all_tracks_empty_in, end_times.
  induction (machines s) as [|m ms IH]; intros H; [done|].
  inversion H as [|? ? Hm Hms]; subst. simpl. rewrite Hm. simpl. by apply IH.
Qed.

(** C10. Reading the makespan of a freshly built schedule: if the
    schedule holds at least one timed transaction the read returns the
    largest end time over all tracks (and stores it on the object); if
    all tracks are empty it raises [ValueError] instead of returning 0. *)
Theorem length_defined_iff_nonempty (ms : list MachineSolution) :
  (has_transaction (new_solution ms) ->
   exists v,
     solution_length (new_solution ms)
       = Ok (v, {| machines := ms; cached_length := Some v |}) /\
     (exists k p t, placed_at (new_solution ms) k p t /\ v = end_time t) /\
     (forall k p t, placed_at (new_solution ms) k p t -> (end_time t <= v)%Q)) /\
  (all_tracks_empty_in (new_solution ms) ->
   solution_length (new_solution ms) = Raise ValueError).
Proof.
  split.
  - intros (k & p & t & Hp).
    unfold solution_length. simpl.
    destruct (end_times (new_solution ms)) as [|x l] eqn:E.
    + assert (end_time t ∈ end_times (new_solution ms)) as Hin
        by (apply elem_of_end_times; eauto).
      rewrite E in Hin. by apply not_elem_of_nil in Hin.
    + simpl. destruct (fold_py_max2_spec l x) as [Hin Hle].
      eexists. split; [done|]. split.
      * apply elem_of_end_times. by rewrite E.
      * intros k' p' t' Hp'. apply Hle. rewrite <- E.
        apply elem_of_end_times. eauto.
  - intros He. unfold solution_length. simpl.
    by rewrite (end_times_nil _ He).
Qed.

Lemma length_defined_iff_nonempty_witness :
  (exists v,
     solution_length (new_solution [ {| transactions := [mk_tx 0 0 3] |};
                                     {| transactions := [mk_tx 1 0 2; mk_tx 2 2 4] |} ])
       = Ok (v, {| machines := [ {| transactions := [mk_tx 0 0 3] |};
                                  {| transactions := [mk_tx 1 0 2; mk_tx 2 2 4] |} ];
                   cached_length := Some v |})) /\
  solution_length (new_solution [ {| transactions := [] |}; {| transactions := [] |} ])
    = Raise ValueError.
Proof.
  split.
  - destruct (length_defined_iff_nonempty
                [ {| transactions := [mk_tx 0 0 3] |};
                  {| transactions := [mk_tx 1 0 2; mk_tx 2 2 4] |} ]) as [H _].
    destruct H as (v & Hv & _).
    + exists 0%nat, 0%nat, (mk_tx 0 0 3). eexists. split; reflexivity.
    + exists v. exact Hv.
  - apply (length_defined_iff_nonempty
             [ {| transactions := [] |}; {| transactions := [] |} ]).
    repeat constructor.
Defined.

(** ** The scenarios of the specification *)

Example scenario_schedule :
  solution_order_to_solution scenario_task [0; 1; 2]
    = Ok (new_solution [ {| transactions := [mk_tx 0 0 3] |};
                         {| transactions := [mk_tx 1 0 2; mk_tx 2 2 4] |} ]).
Proof. reflexivity. Qed.

Example scenario_makespan :
  solution_length
    (new_solution [ {| transactions := [mk_tx 0 0 3] |};
                    {| transactions := [mk_tx 1 0 2; mk_tx 2 2 4] |} ])
    = Ok (6%Q, {| machines := [ {| transactions := [mk_tx 0 0 3] |};
                                {| transactions := [mk_tx 1 0 2; mk_tx 2 2 4] |} ];
                  cached_length := Some 6%Q |}).
Proof. reflexivity. Qed.

Example delay_schedule :
  solution_order_to_solution delay_task [0; 1]
    = Ok (new_solution [ {| transactions := [mk_tx 0 0 5] |};
                         {| transactions := [mk_tx 1 5 5] |} ]).
Proof. reflexivity. Qed.

(** ** Parsing variable names *)

Lemma digit_not_sep c d : digit_of c = Some d -> Ascii.eqb c "-" = false.
Proof.
  intros H. destruct (Ascii.eqb c "-") eqn:E; [|done].
  apply Ascii.eqb_eq in E. subst c. discriminate H.
Qed.

Lemma digit_not_space c d : digit_of c = Some d -> is_space c = false.
Proof.
  unfold digit_of, is_space. set (n := Z.of_nat (nat_of_ascii c)).
  destruct ((48 <=? n) && (n <=? 57)) eqn:E; [|done]. intros _.
  apply andb_true_iff in E as [E1 E2]. apply Z.leb_le in E1, E2.
  apply orb_false_iff. split.
  - apply andb_false_iff. right. apply Z.leb_gt. lia.
  - apply Z.eqb_neq. lia.
Qed.

Lemma all_digits_cons c s :
  all_digits (String c s) = true ->
  (exists d, digit_of c = Some d) /\ all_digits s = true.
Proof.
  simpl. intros H. apply andb_true_iff in H as [H1 H2].
  apply bool_decide_eq_true in H1 as [d Hd]. eauto.
Qed.

Lemma split_digits s : all_digits s = true -> split "-" s = [s].
Proof.
  induction s as [|c s IH]; intros H; [done|].
  apply all_digits_cons in H as [[d Hd] Hs]. simpl.
  rewrite (digit_not_sep _ _ Hd), (IH Hs). done.
Qed.

Lemma split_digits_sep a rest :
  all_digits a = true ->
  split "-" (String.append a (String "-" rest)) = a :: split "-" rest.
Proof.
  induction a as [|c a IH]; intros H; [done|].
  apply all_digits_cons in H as [[d Hd] Ha]. simpl.
  rewrite (digit_not_sep _ _ Hd), (IH Ha). done.
Qed.

Lemma lstrip_digits s : all_digits s = true -> lstrip s = s.
Proof.
  destruct s as [|c s]; intros H; [done|].
  apply all_digits_cons in H as [[d Hd] _]. simpl.
  by rewrite (digit_not_space _ _ Hd).
Qed.

Lemma rstrip_digits s : all_digits s = true -> rstrip s = s.
Proof.
  induction s as [|c s IH]; intros H; [done|].
  apply all_digits_cons in H as [[d Hd] Hs]. simpl.
  rewrite (IH Hs). destruct s; [|done].
  by rewrite (digit_not_space _ _ Hd).
Qed.

Lemma int_digits_all_digits s : forall after acc count,
  all_digits s = true -> (s <> EmptyString \/ after = true) ->
  int_digits after acc count s
    = Some (decimal_value_from acc s, (count + String.length s)%nat).
Proof.
  induction s as [|c s IH]; intros after acc count H Hne.
  - destruct Hne as [Hne| ->]; [done|]. simpl. do 2 f_equal. lia.
  - apply all_digits_cons in H as [[d Hd] Hs]. simpl. rewrite Hd. simpl.
    rewrite (IH true _ _ Hs) by (by right). do 2 f_equal. lia.
Qed.

(** A digit is neither of the signs. *)
Lemma sign_of_digits c s :
  (exists d, digit_of c = Some d) ->
  match String c s with
  | String "+" r => (false, r)
  | String "-" r => (true, r)
  | _ => (false, String c s)
  end = (false, String c s).
Proof.
  intros [d Hd].
  destruct c as [[] [] [] [] [] [] [] []]; try reflexivity; discriminate Hd.
Qed.

Lemma py_int_decimal s : decimal_field s -> py_int s = Ok (decimal_value s).
Proof.
  intros (Hne & Hd & Hlen). unfold py_int.
  rewrite (lstrip_digits _ Hd), (rstrip_digits _ Hd).
  destruct s as [|c s]; [done|].
  rewrite sign_of_digits by (by apply all_digits_cons in Hd as [? _]).
  rewrite (int_digits_all_digits _ false 0 0%nat Hd) by (by left).
  cbv beta iota. change (0 + String.length (String c s))%nat
    with (String.length (String c s)).
  destruct (Nat.leb_spec (String.length (String c s)) int_max_str_digits);
    [done|lia].
Qed.

(** C9. A name made of three non-empty runs of decimal digits joined by
    '-' parses to the triple of the three numbers, the first two
    lowered by one and the third unchanged. *)
Theorem from_string_well_formed (a b c : string) :
  decimal_field a -> decimal_field b -> decimal_field c ->
  VariableRepresentation.from_string (join3 a b c)
    = Ok {| VariableRepresentation.transaction_id := decimal_value a - 1;
            VariableRepresentation.machine_id := decimal_value b - 1;
            VariableRepresentation.start_time := decimal_value c |}.
Proof.
  intros Ha Hb Hc. unfold VariableRepresentation.from_string, join3.
  rewrite split_digits_sep by apply Ha.
  rewrite split_digits_sep by apply Hb.
  rewrite split_digits by apply Hc.
  simpl. rewrite (py_int_decimal _ Ha). simpl.
  rewrite (py_int_decimal _ Hb). simpl.
  rewrite (py_int_decimal _ Hc). done.
Qed.

Lemma from_string_well_formed_witness :
  VariableRepresentation.from_string "3-1-7"
    = Ok {| VariableRepresentation.transaction_id := 2;
            VariableRepresentation.machine_id := 0;
            VariableRepresentation.start_time := 7 |}.
Proof.
  apply (from_string_well_formed "3" "1" "7");
    (split; [discriminate|split; [reflexivity|vm_compute; lia]]).
Defined.

(** C7, as stated, fails: a name with four fields is accepted and its
    fourth field is dropped. *)
Lemma from_string_drops_extra_fields :
  split "-" "1-2-3-4" = ["1"; "2"; "3"; "4"]%string /\
  VariableRepresentation.from_string "1-2-3-4"
    = Ok {| VariableRepresentation.transaction_id := 0;
            VariableRepresentation.machine_id := 1;
            VariableRepresentation.start_time := 3 |}.
Proof. split; reflexivity. Qed.

Lemma py_int_cases s :
  (exists v, py_int s = Ok v) \/ py_int s = Raise ValueError.
Proof.
  unfold py_int.
  destruct (match rstrip (lstrip s) with
            | String "+" r => (false, r)
            | String "-" r => (true, r)
            | _ => (false, rstrip (lstrip s))
            end) as [negative s2].
  destruct (int_digits false 0 0 s2) as [[v n]|]; [|by right].
  destruct (n <=? int_max_str_digits)%nat; [left; eauto|by right].
Qed.

(** C7, amended. [from_string] raises exactly when the name has fewer
    than three '-'-delimited fields or one of its first three fields is
    not an integer literal for [int]; when the first three fields are
    integer literals the result is built from them and any further
    field is ignored. *)
Theorem from_string_error_rule (input : string) :
  ((exists e, VariableRepresentation.from_string input = Raise e) <->
   ((length (split "-" input) < 3)%nat \/
    exists i f e, (i < 3)%nat /\ split "-" input !! i = Some f /\
                  py_int f = Raise e)) /\
  (forall f0 f1 f2 rest a b c,
     split "-" input = f0 :: f1 :: f2 :: rest ->
     py_int f0 = Ok a -> py_int f1 = Ok b -> py_int f2 = Ok c ->
     VariableRepresentation.from_string input
       = Ok {| VariableRepresentation.transaction_id := a - 1;
               VariableRepresentation.machine_id := b - 1;
               VariableRepresentation.start_time := c |}).
Proof.
  unfold VariableRepresentation.from_string.
  destruct (split "-" input) as [|f0 [|f1 [|f2 rest]]] eqn:E; split.
  - split; [intros _; left; simpl; lia|]. intros _. eexists. reflexivity.
  - intros; discriminate.
  - split.
    + intros _. left. simpl. lia.
    + intros _. simpl. destruct (py_int_cases f0) as [[v ->]| ->]; simpl; eauto.
  - intros; discriminate.
  - split.
    + intros _. left. simpl. lia.
    + intros _. simpl. destruct (py_int_cases f0) as [[v ->]| ->]; simpl; eauto.
      destruct (py_int_cases f1) as [[w ->]| ->]; simpl; eauto.
  - intros; discriminate.
  - split.
    + intros [e He]. right. simpl in He.
      destruct (py_int_cases f0) as [[v Hv]|Hv].
      2: { exists 0%nat, f0, ValueError. split; [lia|done]. }
      rewrite Hv in He. simpl in He.
      destruct (py_int_cases f1) as [[w Hw]|Hw].
      2: { exists 1%nat, f1, ValueError. split; [lia|done]. }
      rewrite Hw in He. simpl in He.
      destruct (py_int_cases f2) as [[u Hu]|Hu].
      2: { exists 2%nat, f2, ValueError. split; [lia|done]. }
      rewrite Hu in He. simpl in He. discriminate.
    + intros [Hlen|(i & f & e & Hi & Hf & He)]; [simpl in Hlen; lia|].
      simpl.
      destruct (py_int_cases f0) as [[v Hv]|Hv]; rewrite Hv; simpl; eauto.
      destruct (py_int_cases f1) as [[w Hw]|Hw]; rewrite Hw; simpl; eauto.
      destruct (py_int_cases f2) as [[u Hu]|Hu]; rewrite Hu; simpl; eauto.
      destruct i as [|[|[|i]]]; simpl in Hf; try lia;
        inversion Hf; subst; congruence.
  - intros g0 g1 g2 rest' a b c [= <- <- <- <-] Ha Hb Hc. simpl.
    rewrite Ha. simpl. rewrite Hb. simpl. rewrite Hc. done.
Qed.

Lemma from_string_error_rule_witness :
  (exists e, VariableRepresentation.from_string "1-2" = Raise e) /\
  (exists e, VariableRepresentation.from_string "1-x-3" = Raise e) /\
  (exists e, VariableRepresentation.from_string
               (String (ascii_of_nat 28) "3-1-7") = Raise e) /\
  VariableRepresentation.from_string "1-2-3-4"
    = Ok {| VariableRepresentation.transaction_id := 1 - 1;
            VariableRepresentation.machine_id := 2 - 1;
            VariableRepresentation.start_time := 3 |}.
Proof.
  split; [|split; [|split]].
  - apply (from_string_error_rule "1-2"). left. simpl. lia.
  - apply (from_string_error_rule "1-x-3"). right.
    exists 1%nat, "x"%string, ValueError. split; [lia|]. split; reflexivity.
  - apply (from_string_error_rule (String (ascii_of_nat 28) "3-1-7")). right.
    exists 0%nat, (String (ascii_of_nat 28) "3"), ValueError.
    split; [lia|]. split; reflexivity.
  - apply (proj2 (from_string_error_rule "1-2-3-4") "1" "2" "3" ["4"]%string);
      reflexivity.
Defined.

(** ** Decoding activated variables *)

Lemma list_pop_snoc {A} (l : list A) x : list_pop (l ++ [x]) = Ok (x, l).
Proof. unfold list_pop. by rewrite last_snoc, removelast_last. Qed.

(** C2. The decoder does not consume a machine's group in start-time
    order: for the names "1-1-0" and "2-1-1" the group of machine 0 is
    [(0,0,0); (1,0,1)], the first [pop()] returns the variable with
    start time 1 although start time 0 is still in the group, and
    transaction 1 is placed before transaction 0. The sorted copy of
    the groups is never used. *)
Theorem decode_pops_last_inserted :
  let v0 := {| VariableRepresentation.transaction_id := 0;
               VariableRepresentation.machine_id := 0;
               VariableRepresentation.start_time := 0 |} in
  let v1 := {| VariableRepresentation.transaction_id := 1;
               VariableRepresentation.machine_id := 0;
               VariableRepresentation.start_time := 1 |} in
  mapM VariableRepresentation.from_string ["1-1-0"; "2-1-1"]%string = Ok [v0; v1] /\
  foldl group_append ∅ [v0; v1] !! 0 = Some [v0; v1] /\
  sorted_by_start_time [v0; v1] = [v0; v1] /\
  list_pop [v0; v1] = Ok (v1, [v0]) /\
  binary_variables_to_solution ["1-1-0"; "2-1-1"]%string one_machine_task
    = Ok (new_solution [ {| transactions := [mk_tx 1 0 1; mk_tx 0 1 1] |} ]).
Proof.
  intros v0 v1. split; [reflexivity|]. split; [reflexivity|].
  split; [reflexivity|]. split; [reflexivity|]. vm_compute. reflexivity.
Qed.

(** ** Discretization *)

Lemma ceil_to_int_Some q z : ceil_to_int (Some q) = Some z -> z = Qceiling q.
Proof. unfold ceil_to_int. destruct (_ && _); congruence. Qed.

Lemma ceil_to_int_in_range q :
  - 2 ^ 63 <= Qceiling q < 2 ^ 63 -> ceil_to_int (Some q) = Some (Qceiling q).
Proof.
  intros [H1 H2]. unfold ceil_to_int.
  apply Z.leb_le in H1. apply Z.ltb_lt in H2. by rewrite H1, H2.
Qed.

Lemma np_div_pos l ts :
  (0 < ts)%Q -> np_div (Some l) (Some ts) = round64 (l / ts).
Proof.
  intros H. unfold np_div. destruct (Qeq_bool ts 0) eqn:E; [|done].
  apply Qeq_bool_iff in E. lra.
Qed.

(** C8 does not hold of the code. The quotient [length /
    time_step_length] is a [float64] division, which rounds: for the
    length [0.9] and the time step [0.3] the exact quotient lies just
    above 3 and is rounded to [3.0], so the discrete length is 3
    although three time steps are shorter than the transaction,
    [3 * 0.3 < 0.9]. The encoder goes on and returns a QUBO built with
    this discrete length. *)
Theorem ceiling_shortens_transaction :
  round64 float_0_9 = Some float_0_9 /\
  round64 float_0_3 = Some float_0_3 /\
  (0 < float_0_3)%Q /\
  (3 < float_0_9 / float_0_3)%Q /\
  np_div (Some float_0_9) (Some float_0_3) = Some 3%Q /\
  discrete_lengths short_ceiling_task (Some float_0_3) = [Some 3] /\
  (inject_Z 3 * float_0_3 < float_0_9)%Q /\
  (exists d, discretize short_ceiling_task (Some float_0_3) None = Ok d /\
             d_lengths d = [Some 3]) /\
  exists q, build_discrete_qubo short_ceiling_task (Some float_0_3) None = Ok q.
Proof.
  split; [vm_compute; reflexivity|].
  split; [vm_compute; reflexivity|].
  split; [reflexivity|].
  split; [reflexivity|].
  split; [vm_compute; reflexivity|].
  split; [vm_compute; reflexivity|].
  split; [reflexivity|].
  split.
  - eexists. split; [vm_compute; reflexivity|]. reflexivity.
  - eexists. vm_compute. reflexivity.
Qed.

(** ** The encoder and malformed tasks *)

(** C3, as stated, fails: the encoder returns a Hamiltonian for a task
    whose conflict matrix is not symmetric, and for a task whose lengths
    are all negative. *)
Lemma encoder_accepts_malformed_tasks :
  (conflict_entry (conflicts asymmetric_task) 0 1 = Ok 1 /\
   conflict_entry (conflicts asymmetric_task) 1 0 = Ok 0 /\
   exists q, build_discrete_qubo asymmetric_task None None = Ok q) /\
  (Forall (fun l => (l < 0)%Q) (lengths negative_lengths_task) /\
   exists q, build_discrete_qubo negative_lengths_task None None = Ok q).
Proof.
  split.
  - split; [reflexivity|]. split; [reflexivity|].
    eexists. vm_compute. reflexivity.
  - split; [repeat constructor|].
    eexists. vm_compute. reflexivity.
Qed.

(** *** Without machines the Hamiltonian is a plain number *)

Lemma py_range_empty a b : b <= a -> py_range a b = [].
Proof. intros H. unfold py_range. replace (Z.to_nat (b - a)) with 0%nat by lia. done. Qed.

Lemma machine_idxs_empty task : num_machines task < 1 -> machine_idxs task = [].
Proof. intros H. apply py_range_empty. lia. Qed.

Lemma foldM_is_py_int {A} (f : pyval -> A -> outcome pyval) l :
  (forall v a, is_py_int v -> exists v', f v a = Ok v' /\ is_py_int v') ->
  forall v, is_py_int v -> exists v', foldM f v l = Ok v' /\ is_py_int v'.
Proof.
  intros Hf. induction l as [|a l IH]; intros v Hv; simpl; [eauto|].
  destruct (Hf v a Hv) as (v' & -> & Hv'). simpl. by apply IH.
Qed.

Lemma py_add_is_py_int a b : is_py_int a -> is_py_int b -> is_py_int (py_add a b).
Proof. by destruct a, b. Qed.

Lemma hamiltonian_without_machines task d :
  num_machines task < 1 ->
  exists v, hamiltonian task d = Ok v /\ is_py_int v.
Proof.
  intros Hm. pose proof (machine_idxs_empty task Hm) as Hidx.
  unfold hamiltonian.
  destruct (foldM_is_py_int (fun A t_idx =>
    a ← foldM (fun a m_idx =>
           sts ← start_times d (t_idx - 1);
           Ok (foldl (fun a start_time =>
                        py_add a (PyExpr (b_var t_idx m_idx start_time)))
                     a sts))
         (PyInt (-1)) (machine_idxs task);
    Ok (py_add A (py_pow a 2))) (transaction_idxs task)) with (v := PyInt 0)
    as (A & HA & HAi); [|done|].
  { intros v a Hv. rewrite Hidx. simpl. eexists. split; [done|].
    by apply py_add_is_py_int. }
  unfold term_A. rewrite HA. simpl.
  unfold term_B, term_C, term_D. rewrite Hidx. simpl.
  destruct (foldM_is_py_int (fun (C : pyval) '(t_idx_a, t_idx_b) => Ok C)
              (unique_conflicts_list (conflicts task))) with (v := PyInt 0)
    as (C & HC & HCi); [|done|].
  { intros v [a b] Hv. eauto. }
  rewrite HC. simpl.
  destruct (foldM_is_py_int (fun (D : pyval) (t_idx : Z) => Ok D)
              (transaction_idxs task)) with (v := PyInt 0)
    as (D & HD & HDi); [|done|].
  { intros v a Hv. eauto. }
  rewrite HD. simpl. eexists. split; [done|].
  repeat apply py_add_is_py_int; done.
Qed.

Lemma estimate_execution_time_cases task a :
  (exists r, estimate_execution_time task a = Ok r) \/
  estimate_execution_time task a = Raise ValueError.
Proof.
  unfold estimate_execution_time, array_max.
  destruct (array_values a); simpl; eauto.
Qed.

Lemma discretize_cases task tsl nts :
  (exists d, discretize task tsl nts = Ok d) \/
  discretize task tsl nts = Raise ValueError.
Proof.
  unfold discretize, time_step. destruct tsl as [ts|]; simpl.
  - destruct (estimate_execution_time_cases task
                (IntArray (discrete_lengths task (Some ts)))) as [[r ->]| ->];
      simpl; eauto.
  - destruct (estimate_execution_time_cases task (FloatArray (lengths task)))
      as [[r ->]| ->]; simpl; [|eauto].
    destruct (estimate_execution_time_cases task
                (IntArray (discrete_lengths task
                   (np_div r (int_to_float (py_int_operand (default 10 nts)))))))
      as [[r' ->]| ->];
      simpl; eauto.
Qed.

Lemma encoder_raises_without_machines task tsl nts :
  num_machines task < 1 -> exists e, build_discrete_qubo task tsl nts = Raise e.
Proof.
  intros Hm. unfold build_discrete_qubo.
  destruct (discretize_cases task tsl nts) as [[d ->]| ->]; simpl; [|eauto].
  destruct (hamiltonian_without_machines task d Hm) as (v & -> & Hv). simpl.
  destruct v; [eauto|done].
Qed.

(** *** The conflict matrix is read as a set of unordered pairs *)

Lemma pair_ltb_lt p q : pair_ltb p q = true <-> pair_lt p q.
Proof.
  unfold pair_ltb, pair_lt.
  rewrite orb_true_iff, andb_true_iff, !Z.ltb_lt, Z.eqb_eq. done.
Qed.

Lemma pair_lt_irrefl p : ~ pair_lt p p.
Proof. unfold pair_lt. lia. Qed.

Lemma pair_lt_trans p q r : pair_lt p q -> pair_lt q r -> pair_lt p r.
Proof. unfold pair_lt. lia. Qed.

Lemma pair_trichotomy p q : ~ pair_lt p q -> ~ pair_lt q p -> p = q.
Proof.
  destruct p as [a b], q as [c d]. unfold pair_lt. simpl. intros H1 H2.
  f_equal; lia.
Qed.

Lemma elem_of_insert_unique x p l :
  x ∈ insert_unique p l <-> x = p \/ x ∈ l.
Proof.
  induction l as [|q l IH]; simpl.
  - rewrite list_elem_of_singleton, elem_of_nil. tauto.
  - destruct (pair_ltb p q) eqn:E1; [by rewrite elem_of_cons|].
    destruct (pair_ltb q p) eqn:E2.
    + rewrite !elem_of_cons, IH. tauto.
    + assert (p = q) as ->.
      { apply pair_trichotomy; rewrite <- pair_ltb_lt; congruence. }
      rewrite elem_of_cons. tauto.
Qed.

Lemma insert_unique_sorted p l :
  StronglySorted pair_lt l -> StronglySorted pair_lt (insert_unique p l).
Proof.
  induction 1 as [|q l Hl IH Hq]; simpl.
  - repeat constructor.
  - destruct (pair_ltb p q) eqn:E1.
    + apply pair_ltb_lt in E1. constructor; [by constructor|].
      constructor; [done|].
      eapply Forall_impl; [exact Hq|]. intros r Hr. by eapply pair_lt_trans.
    + destruct (pair_ltb q p) eqn:E2; [|by constructor].
      apply pair_ltb_lt in E2. constructor; [done|].
      apply Forall_forall. intros r Hr.
      apply elem_of_insert_unique in Hr as [->|Hr]; [done|].
      rewrite Forall_forall in Hq. by apply Hq.
Qed.

Lemma np_unique_sorted l : StronglySorted pair_lt (np_unique l).
Proof.
  induction l as [|p l IH]; simpl; [constructor|]. by apply insert_unique_sorted.
Qed.

Lemma elem_of_np_unique x l : x ∈ np_unique l <-> x ∈ l.
Proof.
  induction l as [|p l IH]; simpl; [done|].
  rewrite elem_of_insert_unique, elem_of_cons, IH. done.
Qed.

Lemma sorted_NoDup l : StronglySorted pair_lt l -> NoDup l.
Proof.
  induction 1 as [|p l Hl IH Hp]; constructor; [|done].
  intros Hin. rewrite Forall_forall in Hp. by apply (pair_lt_irrefl p), Hp.
Qed.

Lemma sorted_ext l1 l2 :
  StronglySorted pair_lt l1 -> StronglySorted pair_lt l2 ->
  (forall x, x ∈ l1 <-> x ∈ l2) -> l1 = l2.
Proof.
  intros H1 H2 Hext.
  apply (StronglySorted_unique_strong pair_lt); [|done..|].
  - intros x1 x2 _ _ Ha Hb. destruct (pair_lt_irrefl x1). by eapply pair_lt_trans.
  - apply NoDup_Permutation; [by apply sorted_NoDup..|done].
Qed.

Lemma elem_of_imap_index {A} (l : list A) (i : Z) (x : A) :
  (i, x) ∈ imap (fun k y => (Z.of_nat k, y)) l <->
  0 <= i /\ l !! Z.to_nat i = Some x.
Proof.
  rewrite list_elem_of_lookup. split.
  - intros [k Hk]. rewrite list_lookup_imap in Hk.
    destruct (l !! k) as [y|] eqn:E; simpl in Hk; [|done].
    inversion Hk; subst. rewrite Nat2Z.id. split; [lia|done].
  - intros [Hi Hx]. exists (Z.to_nat i).
    rewrite list_lookup_imap, Hx. simpl. do 2 f_equal. lia.
Qed.

Lemma elem_of_conflicts_list M i j :
  (i, j) ∈ conflicts_list M <->
  0 <= i /\ 0 <= j /\ flagged M (Z.to_nat i) (Z.to_nat j).
Proof.
  unfold conflicts_list, flagged. rewrite list_elem_of_bind. split.
  - intros ([i' row] & Hin & Hrow).
    apply elem_of_imap_index in Hrow as [Hi Hrow].
    apply list_elem_of_bind in Hin as ([j' x] & Hin & Hx).
    apply elem_of_imap_index in Hx as [Hj Hx].
    destruct (x =? 1) eqn:E; [|by apply elem_of_nil in Hin].
    apply Z.eqb_eq in E. subst x.
    apply list_elem_of_singleton in Hin. inversion Hin; subst.
    split; [done|]. split; [done|]. eauto.
  - intros (Hi & Hj & row & Hrow & Hx).
    exists (i, row). split; [|by apply elem_of_imap_index].
    apply list_elem_of_bind. exists (j, 1). split; [|by apply elem_of_imap_index].
    simpl. by apply list_elem_of_singleton.
Qed.

Lemma sort_pair_swap i j : sort_pair (j, i) = sort_pair (i, j).
Proof.
  unfold sort_pair. simpl.
  destruct (i <? j) eqn:E1, (j <? i) eqn:E2; try done.
  - apply Z.ltb_lt in E1, E2. lia.
  - apply Z.ltb_ge in E1, E2. f_equal; lia.
Qed.

Lemma sorted_conflicts_incl M M' x :
  same_conflict_pairs M M' ->
  x ∈ sort_pair <$> conflicts_list M -> x ∈ sort_pair <$> conflicts_list M'.
Proof.
  intros Hsame Hx.
  apply list_elem_of_fmap in Hx as ([i j] & -> & Hin).
  apply elem_of_conflicts_list in Hin as (Hi & Hj & Hf).
  destruct (proj1 (Hsame (Z.to_nat i) (Z.to_nat j)) (or_introl Hf)) as [Hf'|Hf'].
  - apply list_elem_of_fmap. exists (i, j). split; [done|].
    by apply elem_of_conflicts_list.
  - apply list_elem_of_fmap. exists (j, i). split; [by rewrite sort_pair_swap|].
    by apply elem_of_conflicts_list.
Qed.

Lemma unique_conflicts_list_same M M' :
  same_conflict_pairs M M' ->
  unique_conflicts_list M = unique_conflicts_list M'.
Proof.
  intros Hsame. unfold unique_conflicts_list. f_equal.
  apply sorted_ext; [apply np_unique_sorted..|].
  intros x. rewrite !elem_of_np_unique. split.
  - by apply sorted_conflicts_incl.
  - apply sorted_conflicts_incl. intros i j. symmetry. apply Hsame.
Qed.

Lemma encoder_reads_unordered_pairs task M' tsl nts :
  same_conflict_pairs (conflicts task) M' ->
  build_discrete_qubo (with_conflicts task M') tsl nts
    = build_discrete_qubo task tsl nts.
Proof.
  intros Hsame. unfold build_discrete_qubo, hamiltonian, term_C.
  simpl. by rewrite (unique_conflicts_list_same _ _ Hsame).
Qed.

(** C3, amended. The encoder checks nothing by itself. It does fail
    whenever [num_machines < 1]: no binary variable is then created and
    the Hamiltonian handed to [compile] is a plain number. The conflict
    matrix is read only as the set of unordered index pairs holding a 1,
    so a matrix that is not symmetric gives the same result as any
    matrix flagging the same unordered pairs, its symmetric closure
    included. *)
Theorem encoder_error_rule :
  (forall task time_step_length number_time_steps,
     num_machines task < 1 ->
     exists e, build_discrete_qubo task time_step_length number_time_steps = Raise e) /\
  (forall task M' time_step_length number_time_steps,
     same_conflict_pairs (conflicts task) M' ->
     build_discrete_qubo (with_conflicts task M') time_step_length number_time_steps
       = build_discrete_qubo task time_step_length number_time_steps).
Proof.
  split.
  - intros. by apply encoder_raises_without_machines.
  - intros. by apply encoder_reads_unordered_pairs.
Qed.

Lemma flagged_asymmetric i j :
  flagged [[0; 1]; [0; 0]] i j <-> i = 0%nat /\ j = 1%nat.
Proof.
  unfold flagged. split.
  - intros (row & Hr & Hx).
    destruct i as [|[|i]]; simpl in Hr; inversion Hr; subst row;
      destruct j as [|[|j]]; simpl in Hx; inversion Hx; done.
  - intros [-> ->]. eexists. split; reflexivity.
Qed.

Lemma flagged_symmetric i j :
  flagged [[0; 1]; [1; 0]] i j <->
  (i = 0%nat /\ j = 1%nat) \/ (i = 1%nat /\ j = 0%nat).
Proof.
  unfold flagged. split.
  - intros (row & Hr & Hx).
    destruct i as [|[|i]]; simpl in Hr; inversion Hr; subst row;
      destruct j as [|[|j]]; simpl in Hx; inversion Hx; auto.
  - intros [[-> ->]|[-> ->]]; eexists; split; reflexivity.
Qed.

Lemma encoder_error_rule_witness :
  (exists e, build_discrete_qubo no_machine_task None None = Raise e) /\
  build_discrete_qubo (with_conflicts asymmetric_task [[0; 1]; [1; 0]]) None None
    = build_discrete_qubo asymmetric_task None None.
Proof.
  destruct encoder_error_rule as [Hm Hsym]. split.
  - apply Hm. simpl. lia.
  - apply Hsym. intros i j. simpl.
    rewrite !flagged_asymmetric, !flagged_symmetric. tauto.
Defined.

(** * Further properties of the simulator *)

Lemma schedule_ids_append k t ms m :
  ms !! k = Some m ->
  schedule_ids (append_transaction k t ms) ≡ₚ schedule_ids ms ++ [tx_id t].
Proof.
  unfold schedule_ids, append_transaction. revert k.
  induction ms as [|m' ms IH]; intros [|k] Hk; try done.
  - simpl in Hk. inversion Hk; subst m'.
    change (alter ?f 0%nat (m :: ms)) with (f m :: ms).
    rewrite !bind_cons. simpl. rewrite fmap_app. simpl.
    rewrite <- !app_assoc. apply Permutation_app_head.
    apply Permutation_app_comm.
  - simpl in Hk.
    change (alter ?f (S k) (m' :: ms)) with (m' :: alter f k ms).
    rewrite !bind_cons, (IH k Hk). by rewrite app_assoc.
Qed.

Lemma schedule_ids_empty n : schedule_ids (empty_machines n) = [].
Proof.
  unfold schedule_ids, empty_machines.
  induction (Z.to_nat n) as [|k IH]; [done|]. simpl. exact IH.
Qed.

Lemma construction_ids task order : forall M F,
  foldM (place_next task) M order = Ok F ->
  schedule_ids F ≡ₚ schedule_ids M ++ order.
Proof.
  induction order as [|tid order IH]; simpl; intros M F H.
  - inversion H; subst. by rewrite app_nil_r.
  - inv_bind H. rename a into M'.
    apply IH in H. rewrite H.
    apply place_next_Ok in Ha as (k & machine & dur & ep & _ & Hk & _ & _ & ->).
    rewrite (schedule_ids_append _ _ _ _ Hk). simpl. by rewrite <- app_assoc.
Qed.

Lemma construction_track_count task order F :
  foldM (place_next task) (empty_machines (num_machines task)) order = Ok F ->
  length F = Z.to_nat (num_machines task).
Proof.
  intros Hfold. destruct (construction_extends _ _ _ _ Hfold) as [<- _].
  unfold empty_machines. by rewrite length_replicate.
Qed.

(** X1. The schedule built from a processing order has one track per
    machine and holds every transaction of the order exactly once: its
    identifiers, read track after track, are a permutation of the order. *)
Theorem every_transaction_placed (task : TransactionScheduleTask)
    (order : list Z) (s : Solution) :
  solution_order_to_solution task order = Ok s ->
  length (machines s) = Z.to_nat (num_machines task) /\
  schedule_ids (machines s) ≡ₚ order /\
  placed_count (machines s) = length order.
Proof.
  unfold solution_order_to_solution. intros H. inv_bind H.
  inversion H; subst s; clear H. rename a into F, Ha into Hfold. simpl.
  split; [|split].
  - by eapply construction_track_count.
  - rewrite (construction_ids _ _ _ _ Hfold), schedule_ids_empty. done.
  - rewrite (construction_count _ _ _ _ Hfold), placed_count_empty. done.
Qed.

Lemma every_transaction_placed_witness :
  exists s, solution_order_to_solution scenario_task [2; 0; 1] = Ok s /\
    length (machines s) = 2%nat /\
    schedule_ids (machines s) ≡ₚ [2; 0; 1] /\
    placed_count (machines s) = 3%nat.
Proof.
  assert (exists s, solution_order_to_solution scenario_task [2; 0; 1] = Ok s)
    as [s Hs] by (vm_compute; eauto).
  exists s. split; [exact Hs|].
  exact (every_transaction_placed scenario_task [2; 0; 1] s Hs).
Defined.

(** ** Timing of the placed transactions *)

Lemma all_tracks_lookup P ms k m :
  all_tracks P ms -> ms !! k = Some m -> P (transactions m).
Proof. unfold all_tracks. rewrite Forall_lookup. eauto. Qed.


Lemma place_next_forall (P : TransactionSolution -> Prop) task ms tid ms' :
  all_tracks (Forall P) ms ->
  place_next task ms tid = Ok ms' ->
  (forall k machine dur ep,
     min_machine ms = Ok k -> ms !! k = Some machine ->
     py_index (lengths task) tid = Some dur ->
     scan_machines (conflicts task) tid dur k 0 ms (initial_earliest machine) = Ok ep ->
     P {| tx_id := tid; start_time := ep; end_time := (ep + dur)%Q;
          duration := dur |}) ->
  all_tracks (Forall P) ms'.
Proof.
  intros Hall H HP. unfold place_next in H.
  inv_bind H. rename a into k, Ha into Hmin.
  inv_bind H. rename a into dur. apply or_raise_Ok in Ha.
  apply build_transaction_solution_Ok in H as (machine & ep & Hk & Hscan & ->).
  apply (all_tracks_append _ _ _ _ machine); [done..|].
  apply Forall_app. split; [by eapply all_tracks_lookup|].
  constructor; [|constructor]. by eapply HP.
Qed.



Lemma py_index_nonneg task tid dur :
  nonneg_lengths task -> py_index (lengths task) tid = Some dur -> (0 <= dur)%Q.
Proof.
  intros Hnn H. apply py_index_elem_of in H.
  unfold nonneg_lengths in Hnn. rewrite Forall_forall in Hnn. by apply Hnn.
Qed.





(** ** Schedules of tasks without conflicts *)

Lemma conflict_entry_elem cf a b c :
  conflict_entry cf a b = Ok c -> exists row, row ∈ cf /\ c ∈ row.
Proof.
  unfold conflict_entry. intros H. inv_bind H. apply or_raise_Ok in Ha, H.
  apply py_index_elem_of in Ha, H. eauto.
Qed.

Lemma scan_transaction_no_conflicts task tid dur ep omt ep' :
  no_conflicts task ->
  scan_transaction (conflicts task) tid dur ep omt = Ok ep' -> ep' = ep.
Proof.
  intros Hnc H. unfold scan_transaction in H. inv_bind H. rename a into c.
  apply conflict_entry_elem in Ha as (row & Hrow & Hc).
  unfold no_conflicts in Hnc. rewrite Forall_forall in Hnc.
  specialize (Hnc row Hrow). rewrite Forall_forall in Hnc. specialize (Hnc c Hc).
  replace (0 <? c) with false in H by (symmetry; apply Z.ltb_ge; lia).
  simpl in H. by inversion H.
Qed.

Lemma scan_track_no_conflicts task tid dur l : forall ep ep',
  no_conflicts task ->
  foldM (scan_transaction (conflicts task) tid dur) ep l = Ok ep' -> ep' = ep.
Proof.
  induction l as [|omt l IH]; simpl; intros ep ep' Hnc H.
  - by inversion H.
  - inv_bind H. apply scan_transaction_no_conflicts in Ha; [|done]. subst a.
    by apply IH.
Qed.

Lemma scan_machines_no_conflicts task tid dur k ms : forall j ep ep',
  no_conflicts task ->
  scan_machines (conflicts task) tid dur k j ms ep = Ok ep' -> ep' = ep.
Proof.
  induction ms as [|m ms IH]; simpl; intros j ep ep' Hnc H.
  - by inversion H.
  - inv_bind H. apply IH in H; [|done]. subst ep'.
    destruct (decide (j = k)).
    + by inversion Ha.
    + by apply scan_track_no_conflicts in Ha.
Qed.

Lemma gapless_snoc l t :
  gapless l ->
  start_time t = match last l with Some a => end_time a | None => 0%Q end ->
  gapless (l ++ [t]).
Proof.
  intros [H0 Hc] Ht. split.
  - intros a Ha. destruct l as [|x l]; simpl in *.
    + by inversion Ha; subst.
    + apply H0. done.
  - intros p a b Ha Hb.
    destruct (decide (S p < length l)%nat) as [Hlt|Hge].
    + rewrite lookup_app_l in Ha by lia. rewrite lookup_app_l in Hb by lia. eauto.
    + assert (S p = length l) as Hp.
      { apply lookup_lt_Some in Hb. rewrite length_app in Hb. simpl in Hb. lia. }
      rewrite lookup_app_l in Ha by lia.
      rewrite Hp, list_lookup_middle in Hb by done. inversion Hb; subst b.
      rewrite Ht. rewrite last_lookup, <- Hp. simpl. by rewrite Ha.
Qed.

(** X3. When the task has no conflict at all, no track of the built
    schedule has idle time: the first transaction of a track starts at 0
    and every other one starts exactly when its predecessor ends. *)
Theorem no_conflicts_no_gaps (task : TransactionScheduleTask)
    (order : list Z) (s : Solution) :
  no_conflicts task ->
  solution_order_to_solution task order = Ok s ->
  forall k m, machines s !! k = Some m -> gapless (transactions m).
Proof.
  intros Hnc H. unfold solution_order_to_solution in H. inv_bind H.
  inversion H; subst s; clear H. rename a into F, Ha into Hfold. simpl.
  assert (all_tracks gapless F) as Hall.
  { eapply (foldM_invariant _ (all_tracks gapless));
      [|apply all_tracks_empty|exact Hfold].
    - intros ms tid ms' Hms Hstep. unfold place_next in Hstep.
      inv_bind Hstep. rename a into k. inv_bind Hstep. rename a into dur.
      apply build_transaction_solution_Ok in Hstep
        as (machine & ep & Hk & Hscan & ->).
      apply scan_machines_no_conflicts in Hscan; [|done]. subst ep.
      apply (all_tracks_append _ _ _ _ machine); [done..|].
      apply gapless_snoc; [exact (all_tracks_lookup _ _ _ _ Hms Hk)|done].
    - split; intros; done. }
  intros k m Hm. by eapply all_tracks_lookup.
Qed.

Lemma no_conflicts_no_gaps_witness :
  exists s m, solution_order_to_solution scenario_task [0; 1; 2] = Ok s /\
    machines s !! 1%nat = Some m /\ gapless (transactions m).
Proof.
  assert (exists s m, solution_order_to_solution scenario_task [0; 1; 2] = Ok s /\
                      machines s !! 1%nat = Some m) as (s & m & Hs & Hm).
  { eexists _, _. split; [vm_compute; reflexivity|reflexivity]. }
  exists s, m. split; [exact Hs|]. split; [exact Hm|].
  apply (no_conflicts_no_gaps scenario_task [0; 1; 2] s) with (k := 1%nat);
    [|exact Hs|exact Hm].
  repeat constructor; done.
Defined.

(** ** Bounds on the makespan *)

Lemma scan_transaction_origin cf tid dur ep omt ep' :
  scan_transaction cf tid dur ep omt = Ok ep' -> ep' = ep \/ ep' = end_time omt.
Proof.
  unfold scan_transaction. intros H. inv_bind H.
  destruct (_ && _ && _); inversion H; subst; [|by left].
  destruct (py_max2_cases (end_time omt) ep) as [->| ->]; auto.
Qed.





Lemma total_length_nonneg task order :
  nonneg_lengths task -> (0 <= total_length task order)%Q.
Proof.
  intros Hnn. induction order as [|i order IH]; simpl; [lra|].
  destruct (py_index (lengths task) i) eqn:E; simpl; [|lra].
  pose proof (py_index_nonneg _ _ _ Hnn E). lra.
Qed.




(** ** Failures of the construction *)

Lemma min_machine_empty : min_machine [] = Raise ValueError.
Proof. reflexivity. Qed.

Lemma min_machine_nonempty ms : ms <> [] -> exists k, min_machine ms = Ok k.
Proof. destruct ms; [done|]. intros _. unfold min_machine. simpl. eauto. Qed.

Lemma py_index_out_of_range {A} (l : list A) i :
  ~ (- Z.of_nat (length l) <= i < Z.of_nat (length l)) -> py_index l i = None.
Proof.
  intros H. unfold py_index.
  destruct ((0 <=? i) && (i <? Z.of_nat (length l))) eqn:E1.
  { apply andb_true_iff in E1 as [H1 H2]. apply Z.leb_le in H1.
    apply Z.ltb_lt in H2. lia. }
  destruct ((- Z.of_nat (length l) <=? i) && (i <? 0)) eqn:E2; [|done].
  apply andb_true_iff in E2 as [H1 H2]. apply Z.leb_le in H1.
  apply Z.ltb_lt in H2. lia.
Qed.

Lemma place_next_bad_id task ms bad :
  ms <> [] ->
  ~ (- num_transactions task <= bad < num_transactions task) ->
  place_next task ms bad = Raise IndexError.
Proof.
  intros Hne Hbad. destruct (min_machine_nonempty ms Hne) as [k Hk].
  unfold place_next. rewrite Hk. unfold num_transactions in Hbad.
  rewrite py_index_out_of_range by done. reflexivity.
Qed.

(** X5. The construction fails in two ways. Without a machine
    ([num_machines < 1]) any non-empty order raises [ValueError] (the
    minimum of an empty list of machines). With a machine, the first
    identifier of the order that is no index of the length array, i.e.
    lies outside [-n, n), raises [IndexError]. *)
Theorem construction_failures (task : TransactionScheduleTask) :
  (forall order, num_machines task < 1 -> order <> [] ->
     solution_order_to_solution task order = Raise ValueError) /\
  (forall pre bad post s,
     1 <= num_machines task ->
     solution_order_to_solution task pre = Ok s ->
     ~ (- num_transactions task <= bad < num_transactions task) ->
     solution_order_to_solution task (pre ++ bad :: post) = Raise IndexError).
Proof.
  split.
  - intros [|i order] Hm Hne; [done|].
    unfold solution_order_to_solution, empty_machines.
    replace (Z.to_nat (num_machines task)) with 0%nat by lia. reflexivity.
  - intros pre bad post s Hm Hs Hbad.
    unfold solution_order_to_solution in *. inv_bind Hs.
    inversion Hs; subst s; clear Hs. rename a into F.
    pose proof (construction_track_count _ _ _ Ha) as Hlen.
    assert (foldM (place_next task) F (bad :: post) = Raise IndexError) as Hr.
    { cbn [foldM]. rewrite place_next_bad_id; [reflexivity| |done].
      intros ->. simpl in Hlen. lia. }
    rewrite foldM_app, Ha. cbn [mbind outcome_bind]. rewrite Hr. reflexivity.
Qed.

Lemma construction_failures_witness :
  solution_order_to_solution no_machine_task [0] = Raise ValueError /\
  solution_order_to_solution scenario_task [0; 1; 3; 2] = Raise IndexError.
Proof.
  destruct (construction_failures no_machine_task) as [H1 _].
  destruct (construction_failures scenario_task) as [_ H2].
  split.
  - apply H1; [simpl; lia|discriminate].
  - apply (H2 [0; 1] 3 [2] (new_solution
             [ {| transactions := [mk_tx 0 0 3] |};
               {| transactions := [mk_tx 1 0 2] |} ])).
    + simpl. lia.
    + reflexivity.
    + unfold num_transactions. simpl. lia.
Defined.

(** ** The conflict invariant on at most two machines *)

Lemma chained_app_l l1 l2 : chained (l1 ++ l2) -> chained l1.
Proof.
  intros H p a b Ha Hb. apply (H p); by apply lookup_app_l_Some.
Qed.

Lemma scan_transaction_clear cf tid dur ep omt ep' c :
  scan_transaction cf tid dur ep omt = Ok ep' ->
  conflict_entry cf (tx_id omt) tid = Ok c -> 0 < c ->
  (ep' = end_time omt /\ (ep <= ep')%Q) \/ (ep' = ep /\ clear_of dur ep omt).
Proof.
  unfold scan_transaction. intros H Hc Hpos. rewrite Hc in H. simpl in H.
  replace (0 <? c) with true in H by (symmetry; by apply Z.ltb_lt).
  simpl in H.
  destruct (Qle_bool (start_time omt) (ep + dur)) eqn:E1; simpl in H.
  - destruct (Qle_bool ep (end_time omt)) eqn:E2; injection H as <-.
    + apply Qle_bool_iff in E2. left. by rewrite py_max2_left.
    + right. split; [done|]. left.
      destruct (Qlt_le_dec (end_time omt) ep) as [Hlt|Hge]; [lra|].
      apply Qle_bool_iff in Hge. congruence.
  - injection H as <-. right. split; [done|]. right.
    destruct (Qlt_le_dec (ep + dur) (start_time omt)) as [Hlt|Hge]; [done|].
    apply Qle_bool_iff in Hge. congruence.
Qed.

(** After the scan of one track, no conflicting transaction of that
    track meets the window chosen so far. *)
Lemma scan_track_clear cf tid dur l :
  chained l -> well_timed l ->
  forall ep0 ep, foldM (scan_transaction cf tid dur) ep0 l = Ok ep ->
  forall omt c, omt ∈ l -> conflict_entry cf (tx_id omt) tid = Ok c -> 0 < c ->
    clear_of dur ep omt.
Proof.
  induction l as [|x l IH] using rev_ind; intros Hch Hwt ep0 ep H omt c Hin Hc Hpos.
  { by apply elem_of_nil in Hin. }
  rewrite foldM_app in H. inv_bind H. rename a into ep1, Ha into Hl.
  simpl in H. inv_bind H. inversion H; subst a; clear H. rename Ha into Hx.
  pose proof (chained_app_l _ _ Hch) as Hch'.
  assert (well_timed l) as Hwt'
    by (unfold well_timed in *; by apply Forall_app in Hwt as [? _]).
  assert (start_time x <= end_time x)%Q as Hxw.
  { unfold well_timed in Hwt. apply Forall_app in Hwt as [_ Hwx].
    by inversion Hwx. }
  assert (forall o, o ∈ l -> (end_time o <= start_time x)%Q) as Hord.
  { intros o Ho. apply list_elem_of_lookup in Ho as [p Hp].
    apply (chained_ordered _ Hch Hwt p (length l)).
    - by apply lookup_lt_Some in Hp.
    - by apply lookup_app_l_Some.
    - by rewrite list_lookup_middle. }
  apply elem_of_app in Hin as [Hin|Hin].
  - specialize (IH Hch' Hwt' _ _ Hl omt c Hin Hc Hpos).
    pose proof (Hord omt Hin) as Ho.
    destruct (scan_transaction_origin _ _ _ _ _ _ Hx) as [->| ->]; [done|].
    left. lra.
  - apply list_elem_of_singleton in Hin. subst omt.
    destruct (scan_transaction_clear _ _ _ _ _ _ _ Hx Hc Hpos) as [[-> _]|[-> Hcl]].
    + left. lra.
    + done.
Qed.

Lemma scan_machines_clear_two cf tid dur k ms ep0 ep :
  (length ms <= 2)%nat -> (k < length ms)%nat ->
  all_tracks chained ms -> all_tracks well_timed ms ->
  scan_machines cf tid dur k 0 ms ep0 = Ok ep ->
  forall j m omt c, j <> k -> ms !! j = Some m -> omt ∈ transactions m ->
    conflict_entry cf (tx_id omt) tid = Ok c -> 0 < c ->
    clear_of dur ep omt.
Proof.
  intros Hlen Hk Hch Hwt H j m omt c Hj Hm Hin Hc Hpos.
  destruct ms as [|m0 [|m1 [|m2 ms]]]; simpl in Hlen, Hk; try lia.
  - destruct j as [|j]; [lia|]. destruct k; [done|lia].
  - destruct k as [|[|k]]; [| |lia].
    + destruct j as [|[|j]]; [done| |done]. simpl in Hm. inversion Hm; subst m1.
      simpl in H. inv_bind H. inversion H; subst a; clear H.
      eapply scan_track_clear; [| |exact Ha|done..].
      * exact (all_tracks_lookup _ _ 1%nat _ Hch eq_refl).
      * exact (all_tracks_lookup _ _ 1%nat _ Hwt eq_refl).
    + destruct j as [|[|j]]; [|done|done]. simpl in Hm. inversion Hm; subst m0.
      simpl in H. inv_bind H. inversion H; subst a; clear H.
      eapply scan_track_clear; [| |exact Ha|done..].
      * exact (all_tracks_lookup _ _ 0%nat _ Hch eq_refl).
      * exact (all_tracks_lookup _ _ 0%nat _ Hwt eq_refl).
Qed.

Lemma clear_of_not_overlap dur ep tid omt :
  clear_of dur ep omt ->
  ~ windows_overlap
      {| tx_id := tid; start_time := ep; end_time := (ep + dur)%Q; duration := dur |}
      omt.
Proof. intros [H|H] (x & H1 & H2 & H3 & H4); simpl in *; lra. Qed.

Lemma conflicting_sym task i j :
  symmetric_conflicts task -> valid_id task i -> valid_id task j ->
  conflicting task i j -> conflicting task j i.
Proof.
  intros Hsym Hi Hj (c & Hc & Hpos). exists c. split; [|done].
  rewrite <- Hc. symmetry. by apply Hsym.
Qed.

Lemma place_next_two_machines task ms tid ms' :
  symmetric_conflicts task -> nonneg_lengths task -> valid_id task tid ->
  two_machine_invariant task ms ->
  place_next task ms tid = Ok ms' ->
  two_machine_invariant task ms'.
Proof.
  intros Hsym Hnn Htid (Hlen & Hch & Hwt & Hval & Hcross) Hstep.
  pose proof (place_next_chained _ _ _ _ Hch Hstep) as Hch'.
  pose proof (place_next_well_timed _ _ _ _ Hnn Hwt Hstep) as Hwt'.
  assert (valid_tracks task ms') as Hval'.
  { eapply place_next_forall; [exact Hval|exact Hstep|]. intros. done. }
  unfold place_next in Hstep. inv_bind Hstep. rename a into k.
  inv_bind Hstep. rename a into dur.
  apply build_transaction_solution_Ok in Hstep as (machine & ep & Hk & Hscan & ->).
  clear Ha Ha0.
  set (t := {| tx_id := tid; start_time := ep; end_time := (ep + dur)%Q;
               duration := dur |}) in *.
  split; [by rewrite append_transaction_length|].
  split; [done|]. split; [done|]. split; [done|].
  assert (forall j m omt, j <> k -> ms !! j = Some m -> omt ∈ transactions m ->
            conflicting task (tx_id omt) tid -> ~ windows_overlap t omt) as Hnew.
  { intros j m omt Hj Hm Hin (c & Hc & Hpos).
    apply clear_of_not_overlap.
    eapply (scan_machines_clear_two _ _ _ k ms); [done| |done|done|exact Hscan|..];
      [by apply lookup_lt_Some in Hk|done..]. }
  intros k1 m1 a k2 m2 b Hne Hm1 Ha Hm2 Hb Hconf.
  destruct (decide (k1 = k)) as [->|Hk1].
  - rewrite (append_transaction_lookup _ _ _ _ Hk) in Hm1.
    inversion Hm1; subst m1; clear Hm1. simpl in Ha.
    rewrite append_transaction_lookup_ne in Hm2 by done.
    apply elem_of_app in Ha as [Ha|Ha].
    + by apply (Hcross k machine a k2 m2 b).
    + apply list_elem_of_singleton in Ha. subst a.
      apply (Hnew k2 m2 b); [done..|].
      apply conflicting_sym; [done|done| |done].
      pose proof (all_tracks_lookup _ _ _ _ Hval Hm2) as Hv.
      rewrite Forall_forall in Hv. by apply Hv.
  - rewrite append_transaction_lookup_ne in Hm1 by done.
    destruct (decide (k2 = k)) as [->|Hk2].
    + rewrite (append_transaction_lookup _ _ _ _ Hk) in Hm2.
      inversion Hm2; subst m2; clear Hm2. simpl in Hb.
      apply elem_of_app in Hb as [Hb|Hb].
      * by apply (Hcross k1 m1 a k machine b).
      * apply list_elem_of_singleton in Hb. subst b.
        intros Ho. apply windows_overlap_sym in Ho. revert Ho.
        by apply (Hnew k1 m1 a).
    + rewrite append_transaction_lookup_ne in Hm2 by done.
      by apply (Hcross k1 m1 a k2 m2 b).
Qed.

Lemma construction_two_machines task order :
  symmetric_conflicts task -> nonneg_lengths task ->
  Forall (valid_id task) order ->
  forall M F, two_machine_invariant task M ->
    foldM (place_next task) M order = Ok F -> two_machine_invariant task F.
Proof.
  intros Hsym Hnn Hord.
  induction Hord as [|tid order Htid _ IH]; intros M F HM Hfold; simpl in Hfold.
  - by inversion Hfold; subst.
  - inv_bind Hfold. eapply IH; [|exact Hfold].
    by eapply place_next_two_machines.
Qed.

(** X6. On at most two machines the conflict invariant holds: for a task
    with a square, symmetric conflict matrix and non-negative lengths and
    any order of valid identifiers, two different timed transactions of
    the built schedule that conflict never have overlapping windows. *)
Theorem conflict_invariant_two_machines (task : TransactionScheduleTask)
    (order : list Z) (s : Solution) :
  num_machines task <= 2 ->
  symmetric_conflicts task -> nonneg_lengths task ->
  Forall (valid_id task) order ->
  solution_order_to_solution task order = Ok s ->
  pairwise_conflict_free task s.
Proof.
  intros Hm Hsym Hnn Hord Hs.
  unfold solution_order_to_solution in Hs. inv_bind Hs.
  inversion Hs; subst s; clear Hs. rename a into F, Ha into Hfold.
  assert (two_machine_invariant task F) as (_ & Hch & Hwt & _ & Hcross).
  { eapply construction_two_machines; [done..| |exact Hfold].
    split; [unfold empty_machines; rewrite length_replicate; lia|].
    split; [apply all_tracks_empty; intros p a b Hp; done|].
    split; [apply all_tracks_empty; constructor|].
    split; [apply all_tracks_empty; constructor|].
    intros k1 m1 a k2 m2 b _ Hm1 Hina. unfold empty_machines in Hm1.
    apply lookup_replicate in Hm1 as [-> _]. by apply elem_of_nil in Hina. }
  intros k1 p1 a k2 p2 b Hne (m1 & Hm1 & Ha) (m2 & Hm2 & Hb) Hconf. simpl in *.
  destruct (decide (k1 = k2)) as [->|Hk].
  - rewrite Hm1 in Hm2. inversion Hm2; subst m2.
    pose proof (all_tracks_lookup _ _ _ _ Hch Hm1) as Hc.
    pose proof (all_tracks_lookup _ _ _ _ Hwt Hm1) as Hw.
    assert (p1 <> p2) as Hp by congruence.
    destruct (decide (p1 < p2)%nat).
    + apply not_overlap_ordered. by apply (chained_ordered _ Hc Hw p1 p2).
    + intros Ho. apply windows_overlap_sym in Ho. revert Ho.
      apply not_overlap_ordered. apply (chained_ordered _ Hc Hw p2 p1); [lia|done..].
  - apply (Hcross k1 m1 a k2 m2 b); [done|done| |done| |done];
      by eapply list_elem_of_lookup_2.
Qed.

Lemma symmetric_delay_task : symmetric_conflicts delay_task.
Proof.
  intros i j Hi Hj. simpl in Hi, Hj.
  assert (i = 0 \/ i = 1) as [-> | ->] by lia;
    assert (j = 0 \/ j = 1) as [-> | ->] by lia; reflexivity.
Qed.

Lemma conflict_invariant_two_machines_witness :
  exists s, solution_order_to_solution delay_task [0; 1] = Ok s /\
            pairwise_conflict_free delay_task s.
Proof.
  assert (exists s, solution_order_to_solution delay_task [0; 1] = Ok s)
    as [s Hs] by (vm_compute; eauto).
  exists s. split; [exact Hs|].
  apply (conflict_invariant_two_machines delay_task [0; 1] s).
  - simpl. lia.
  - exact symmetric_delay_task.
  - repeat constructor; done.
  - repeat constructor; unfold num_transactions; simpl; lia.
  - exact Hs.
Defined.

(** ** Replaying an arbitrary schedule *)

Lemma placed_count_le V : forall F,
  Forall2 (fun v f => transactions v `prefix_of` transactions f) V F ->
  (placed_count V <= placed_count F)%nat.
Proof.
  unfold placed_count. induction 1 as [|v f V F Hp _ IH]; simpl; [lia|].
  apply prefix_length in Hp. unfold fmap in *. lia.
Qed.

Lemma prefix_full_count V : forall F,
  Forall2 (fun v f => transactions v `prefix_of` transactions f) V F ->
  placed_count V = placed_count F -> V = F.
Proof.
  induction 1 as [|v f V F Hp HF IH]; intros Hc; [done|].
  pose proof (placed_count_le _ _ HF) as Hle.
  pose proof (prefix_length _ _ Hp) as Hl.
  unfold placed_count in *. simpl in Hc. unfold fmap in *.
  assert (length (transactions v) = length (transactions f)) as Hlen by lia.
  f_equal.
  - destruct v as [tv], f as [tf]. simpl in *. f_equal.
    destruct Hp as [rest ->]. rewrite length_app in Hlen.
    destruct rest; [by rewrite app_nil_r|simpl in Hlen; lia].
  - apply IH. lia.
Qed.

Lemma replay_step_cases self st :
  replay_invariant self st -> virtual_machines st <> [] ->
  (exists st', replay_step self st = Ok st' /\ replay_invariant self st' /\
     placed_count (virtual_machines st') = S (placed_count (virtual_machines st))) \/
  replay_step self st = Raise IndexError.
Proof.
  intros (Hlen & Hpre & Hout) Hne. unfold replay_step.
  destruct (min_machine_nonempty _ Hne) as [i Hi]. rewrite Hi. simpl.
  destruct (min_machine_spec _ _ Hi) as (machine & Hm & _). rewrite Hm. simpl.
  rewrite (index_of_min _ _ _ Hi Hm). simpl.
  destruct (Hpre i machine Hm) as (f & n & Hf & Hn & Htake & Hle).
  rewrite Hn. simpl. rewrite Hf. simpl.
  destruct (transactions f !! n) as [t|] eqn:Et; simpl; [|by right].
  left. eexists. split; [done|]. split; [|by eapply placed_count_append].
  split; [|split]; simpl.
  - by rewrite append_transaction_length.
  - intros j v Hj. destruct (decide (i = j)) as [<-|Hij].
    + rewrite (append_transaction_lookup _ _ _ _ Hm) in Hj.
      inversion Hj; subst v; clear Hj. simpl.
      exists f, (S n). split; [done|]. split; [by rewrite lookup_insert_eq|].
      split.
      * rewrite Htake. symmetry. by apply take_S_r.
      * apply lookup_lt_Some in Et. lia.
    + rewrite append_transaction_lookup_ne in Hj by done.
      destruct (Hpre j v Hj) as (f' & n' & Hf' & Hn' & Htake' & Hle').
      exists f', n'. rewrite lookup_insert_ne by done. done.
  - rewrite (schedule_ids_append _ _ _ _ Hm), Hout. done.
Qed.

Lemma replay_cases self n : forall st,
  replay_invariant self st ->
  (virtual_machines st = [] -> n = 0%nat) ->
  (exists st', replay self n st = Ok st' /\ replay_invariant self st' /\
     placed_count (virtual_machines st')
       = (n + placed_count (virtual_machines st))%nat) \/
  replay self n st = Raise IndexError.
Proof.
  induction n as [|n IH]; intros st Hinv Hempty; simpl.
  - left. exists st. done.
  - assert (virtual_machines st <> []) as Hne by (intros H; by apply Hempty in H).
    destruct (replay_step_cases self st Hinv Hne) as [(st' & -> & Hinv' & Hc)| ->];
      [|by right]. simpl.
    destruct (IH st' Hinv') as [(st'' & Hr & Hinv'' & Hc')|Hr].
    + intros Hnil. destruct Hinv as (Hl & _), Hinv' as (Hl' & _).
      rewrite Hnil in Hl'. rewrite <- Hl in Hl'.
      destruct (virtual_machines st); [done|simpl in Hl'; lia].
    + left. exists st''. split; [done|]. split; [done|]. lia.
    + by right.
Qed.

(** X7. Replaying any schedule, built by the simulator or not, either
    raises [IndexError] or returns an order that lists every timed
    transaction of the schedule exactly once (a permutation of its
    identifiers); no other error occurs. *)
Theorem replay_consumes_schedule (s : Solution) :
  (exists order, solution_to_solution_order s = Ok order /\
     order ≡ₚ schedule_ids (machines s)) \/
  solution_to_solution_order s = Raise IndexError.
Proof.
  unfold solution_to_solution_order.
  set (n := length (machines s)).
  set (st0 := {| virtual_machines := replicate n {| transactions := [] |};
                 index_tracker := initial_tracker n; solution_order := [] |}).
  assert (replay_invariant s st0) as H0.
  { split; [simpl; by rewrite length_replicate|]. split; simpl.
    - intros j v Hj. apply lookup_replicate in Hj as [-> Hj].
      destruct (lookup_lt_is_Some_2 (machines s) j Hj) as [f Hf].
      exists f, 0%nat. split; [done|]. split; [by apply initial_tracker_lookup|].
      split; [done|lia].
    - clear. induction n as [|k IH]; [done|]. simpl. exact IH. }
  destruct (replay_cases s (sum_list ((fun m => length (transactions m)) <$> machines s))
              st0 H0) as [(st & Hr & Hinv & Hc)|Hr].
  - simpl. intros Hnil. subst n. destruct (machines s); [done|]. done.
  - left. rewrite Hr. simpl. exists (solution_order st). split; [done|].
    destruct Hinv as (Hlen & Hpre & Hout).
    assert (virtual_machines st = machines s) as <-; [|done].
    apply prefix_full_count.
    + apply Forall2_same_length_lookup_2; [done|].
      intros j v f Hv Hf. destruct (Hpre j v Hv) as (f' & m & Hf' & _ & Htake & _).
      rewrite Hf in Hf'. inversion Hf'; subst f'. rewrite Htake.
      apply prefix_take.
    + rewrite Hc. simpl.
      assert (placed_count (replicate n {| transactions := [] |}) = 0%nat) as ->.
      { clear. unfold placed_count. induction n as [|k IH]; [done|]. simpl. exact IH. }
      unfold placed_count. lia.
  - right. by rewrite Hr.
Qed.

(** * Further properties of the decoder *)

Lemma mapM_app {A B} (f : A -> outcome B) l1 l2 :
  mapM f (l1 ++ l2) = (bs1 ← mapM f l1; bs2 ← mapM f l2; Ok (bs1 ++ bs2)).
Proof.
  induction l1 as [|a l1 IH]; simpl.
  - destruct (mapM f l2); done.
  - destruct (f a) as [b| |]; simpl; [|done..]. rewrite IH.
    destruct (mapM f l1) as [bs1| |]; simpl; [|done..].
    destruct (mapM f l2); done.
Qed.

Lemma mapM_all_ok {A B} (f : A -> outcome B) l :
  (forall a, a ∈ l -> exists b, f a = Ok b) -> exists bs, mapM f l = Ok bs.
Proof.
  induction l as [|a l IH]; intros H; simpl; [eauto|].
  destruct (H a) as [b ->]; [by left|]. simpl.
  destruct IH as [bs ->]; [|simpl; eauto]. intros a' Ha'. apply H. by right.
Qed.

Lemma mapM_length {A B} (f : A -> outcome B) l bs :
  mapM f l = Ok bs -> length bs = length l.
Proof.
  revert bs. induction l as [|a l IH]; simpl; intros bs H.
  - by inversion H.
  - inv_bind H. inv_bind H. inversion H; subst. simpl. f_equal. by apply IH.
Qed.

(** X8. A malformed variable name is never skipped: if every name before
    it parses, the decoder raises the very error of the first name that
    does not parse, whether a schedule or an order is asked for. *)
Theorem decode_surfaces_parse_errors (task : TransactionScheduleTask)
    (pre : list string) (bad : string) (post : list string) (e : exn) :
  (forall v, v ∈ pre -> exists r, VariableRepresentation.from_string v = Ok r) ->
  VariableRepresentation.from_string bad = Raise e ->
  binary_variables_to_solution (pre ++ bad :: post) task = Raise e /\
  binary_variables_to_solution_order (pre ++ bad :: post) task = Raise e.
Proof.
  intros Hpre Hbad.
  assert (binary_variables_to_solution (pre ++ bad :: post) task = Raise e) as H.
  { unfold binary_variables_to_solution. rewrite mapM_app.
    destruct (mapM_all_ok _ _ Hpre) as [bs ->]. simpl. rewrite Hbad. done. }
  split; [done|]. unfold binary_variables_to_solution_order. by rewrite H.
Qed.

Lemma decode_surfaces_parse_errors_witness :
  binary_variables_to_solution ["1-1-0"; "2-1"; "3-1-2"]%string one_machine_task
    = Raise IndexError /\
  binary_variables_to_solution_order ["1-1-0"; "2-1"; "3-1-2"]%string one_machine_task
    = Raise IndexError.
Proof.
  apply (decode_surfaces_parse_errors one_machine_task
           ["1-1-0"]%string "2-1"%string ["3-1-2"]%string IndexError).
  - intros v Hv. apply list_elem_of_singleton in Hv. subst v.
    eexists. reflexivity.
  - reflexivity.
Defined.

(** ** The decoder builds its schedule greedily *)

Lemma decode_step_Ok task st st' :
  decode_step task st = Ok st' ->
  exists k machine var rest dur ep,
    min_machine (decode_machines st) = Ok k /\
    decode_machines st !! k = Some machine /\
    list_pop (default [] (machine_var_map st !! Z.of_nat k)) = Ok (var, rest) /\
    machine_var_map st' = <[Z.of_nat k := rest]> (machine_var_map st) /\
    py_index (lengths task) (VariableRepresentation.transaction_id var) = Some dur /\
    (initial_earliest machine <= ep)%Q /\
    decode_machines st' =
      append_transaction k
        {| tx_id := VariableRepresentation.transaction_id var; start_time := ep;
           end_time := (ep + dur)%Q; duration := dur |} (decode_machines st).
Proof.
  unfold decode_step. intros H.
  inv_bind H. rename a into k, Ha into Hmin.
  inv_bind H. rename a into machine. apply or_raise_Ok in Ha.
  rewrite (index_of_min _ _ _ Hmin Ha) in H. simpl in H.
  inv_bind H. destruct a as [var rest]. rename Ha0 into Hpop.
  inv_bind H. rename a into dur. apply or_raise_Ok in Ha0.
  inv_bind H. inversion H; subst st'; clear H. simpl.
  apply build_transaction_solution_Ok in Ha1 as (machine' & ep & Hk & Hscan & ->).
  rewrite Ha in Hk. inversion Hk; subst machine'.
  apply scan_machines_mono in Hscan.
  exists k, machine, var, rest, dur, ep. done.
Qed.

Lemma decode_loop_greedy task n : forall st st',
  decode_loop task n st = Ok st' ->
  exists txs, length txs = n /\
    greedy (decode_machines st) txs = Ok (decode_machines st').
Proof.
  induction n as [|n IH]; simpl; intros st st' H.
  - inversion H; subst. exists []. done.
  - inv_bind H. rename a into st1.
    destruct (IH _ _ H) as (txs & Hlen & Hg).
    apply decode_step_Ok in Ha
      as (k & machine & var & rest & dur & ep & Hmin & _ & _ & _ & _ & _ & Heq).
    eexists (_ :: txs). split; [simpl; by rewrite Hlen|].
    simpl. rewrite Hmin. simpl. by rewrite <- Heq.
Qed.

Lemma greedy_extends txs : forall M F, greedy M txs = Ok F -> extends M F.
Proof.
  induction txs as [|t txs IH]; simpl; intros M F H.
  - inversion H; subst. apply extends_refl.
  - inv_bind H. apply IH in H.
    eapply extends_trans; [|exact H]. apply append_transaction_extends.
Qed.

Lemma greedy_ids txs : forall M F,
  greedy M txs = Ok F -> schedule_ids F ≡ₚ schedule_ids M ++ (tx_id <$> txs).
Proof.
  induction txs as [|t txs IH]; simpl; intros M F H.
  - inversion H; subst. by rewrite app_nil_r.
  - inv_bind H. apply IH in H. rewrite H.
    destruct (min_machine_spec _ _ Ha) as (m & Hm & _).
    rewrite (schedule_ids_append _ _ _ _ Hm). by rewrite <- app_assoc.
Qed.

Lemma greedy_count txs : forall M F,
  greedy M txs = Ok F -> placed_count F = (placed_count M + length txs)%nat.
Proof.
  induction txs as [|t txs IH]; simpl; intros M F H.
  - inversion H; subst. lia.
  - inv_bind H. apply IH in H. rewrite H.
    destruct (min_machine_spec _ _ Ha) as (m & Hm & _).
    rewrite (placed_count_append _ _ _ _ Hm). lia.
Qed.

(** The replay loop follows any greedy run. *)
Lemma replay_follows_greedy c txs : forall M F tracker out,
  greedy M txs = Ok F ->
  (forall j m, M !! j = Some m -> tracker !! j = Some (length (transactions m))) ->
  exists st,
    replay {| machines := F; cached_length := c |} (length txs)
      {| virtual_machines := M; index_tracker := tracker; solution_order := out |}
      = Ok st /\
    solution_order st = out ++ (tx_id <$> txs).
Proof.
  induction txs as [|t txs IH]; simpl; intros M F tracker out Hg Htr.
  - eexists. split; [done|]. simpl. by rewrite app_nil_r.
  - inv_bind Hg. rename a into k, Ha into Hmin.
    destruct (min_machine_spec _ _ Hmin) as (machine & Hk & _).
    pose proof (greedy_extends _ _ _ Hg) as [_ Hext].
    destruct (Hext k _ (append_transaction_lookup k t M machine Hk))
      as (f & Hf & Hpre). simpl in Hpre.
    assert (transactions f !! length (transactions machine) = Some t) as Ht.
    { destruct Hpre as [rest ->]. rewrite <- app_assoc.
      change ([t] ++ rest) with (t :: rest). by rewrite list_lookup_middle. }
    unfold replay_step. simpl.
    rewrite Hmin. simpl. rewrite Hk. simpl.
    rewrite (index_of_min _ _ _ Hmin Hk). simpl.
    rewrite (Htr k machine Hk). simpl. rewrite Hf. simpl. rewrite Ht. simpl.
    destruct (IH (append_transaction k t M) F
                (<[k := S (length (transactions machine))]> tracker)
                (out ++ [tx_id t]) Hg) as (st & Hst & Hout).
    + intros j m Hj. destruct (decide (k = j)) as [<-|Hne].
      * rewrite (append_transaction_lookup _ _ _ _ Hk) in Hj.
        inversion Hj; subst m. simpl.
        rewrite lookup_insert_eq, length_app. simpl. f_equal. lia.
      * rewrite append_transaction_lookup_ne in Hj by done.
        rewrite lookup_insert_ne by done. eauto.
    + exists st. split; [done|]. rewrite Hout, <- app_assoc. done.
Qed.

Lemma decode_loop_chained task n : forall st st',
  all_tracks chained (decode_machines st) ->
  decode_loop task n st = Ok st' -> all_tracks chained (decode_machines st').
Proof.
  induction n as [|n IH]; simpl; intros st st' Hch H.
  - by inversion H; subst.
  - inv_bind H. eapply IH; [|exact H].
    apply decode_step_Ok in Ha
      as (k & machine & var & rest & dur & ep & _ & Hk & _ & _ & _ & Hep & ->).
    apply (all_tracks_append _ _ _ _ machine); [done..|].
    apply chained_snoc; [exact (all_tracks_lookup _ _ _ _ Hch Hk)|].
    intros x Hx. simpl. unfold initial_earliest in Hep. by rewrite Hx in Hep.
Qed.

(** X9. Whenever the decoder returns a schedule: the schedule has one
    track per machine and exactly [num_transactions] timed transactions,
    on every track each transaction starts no earlier than its
    predecessor ends, and decoding the same names to an order succeeds
    too, giving [num_transactions] identifiers that are a permutation of
    the identifiers of the schedule. *)
Theorem decoded_schedule_shape (vars : list string)
    (task : TransactionScheduleTask) (s : Solution) :
  binary_variables_to_solution vars task = Ok s ->
  length (machines s) = Z.to_nat (num_machines task) /\
  placed_count (machines s) = Z.to_nat (num_transactions task) /\
  (forall k p a b, placed_at s k p a -> placed_at s k (S p) b ->
     (end_time a <= start_time b)%Q) /\
  exists order,
    binary_variables_to_solution_order vars task = Ok order /\
    length order = Z.to_nat (num_transactions task) /\
    order ≡ₚ schedule_ids (machines s).
Proof.
  intros Hs. unfold binary_variables_to_solution_order. rewrite Hs. simpl.
  unfold binary_variables_to_solution in Hs. inv_bind Hs. rename a into reps.
  inv_bind Hs. rename a into st, Ha0 into Hloop.
  inversion Hs; subst s; clear Hs. simpl.
  destruct (decode_loop_greedy _ _ _ _ Hloop) as (txs & Hlen & Hg). simpl in Hg.
  pose proof (greedy_extends _ _ _ Hg) as [Hl _].
  pose proof (greedy_count _ _ _ Hg) as Hc.
  rewrite placed_count_empty in Hc.
  split; [|split; [|split]].
  - rewrite <- Hl. unfold empty_machines. by rewrite length_replicate.
  - rewrite Hc, Hlen. done.
  - assert (all_tracks chained (decode_machines st)) as Hch.
    { eapply decode_loop_chained; [|exact Hloop]. simpl.
      apply all_tracks_empty. intros p a b Hp. done. }
    intros k p a b (m & Hm & Ha') (m' & Hm' & Hb). simpl in *.
    rewrite Hm in Hm'. inversion Hm'; subst m'.
    by apply (all_tracks_lookup _ _ _ _ Hch Hm p).
  - unfold solution_to_solution_order, new_solution. simpl.
    unfold placed_count in Hc. rewrite Hc. simpl.
    rewrite <- Hl. unfold empty_machines at 1 2. rewrite length_replicate.
    destruct (replay_follows_greedy None txs (empty_machines (num_machines task))
                (decode_machines st)
                (initial_tracker (Z.to_nat (num_machines task))) [] Hg)
      as (st' & Hst & Hout).
    { intros j m Hj. unfold empty_machines in Hj.
      apply lookup_replicate in Hj as [-> Hj]. simpl.
      by apply initial_tracker_lookup. }
    unfold empty_machines in Hst. rewrite Hst. simpl.
    exists (solution_order st'). split; [done|]. rewrite Hout. simpl.
    split; [by rewrite length_fmap|].
    rewrite (greedy_ids _ _ _ Hg), schedule_ids_empty. done.
Qed.

Lemma decoded_schedule_shape_witness :
  exists s order,
    binary_variables_to_solution ["1-1-0"; "2-1-1"]%string one_machine_task = Ok s /\
    placed_count (machines s) = 2%nat /\
    binary_variables_to_solution_order ["1-1-0"; "2-1-1"]%string one_machine_task
      = Ok order /\
    order ≡ₚ schedule_ids (machines s).
Proof.
  assert (exists s,
            binary_variables_to_solution ["1-1-0"; "2-1-1"]%string one_machine_task
              = Ok s) as [s Hs] by (vm_compute; eauto).
  destruct (decoded_schedule_shape _ _ s Hs) as (_ & Hc & _ & order & Ho & _ & Hp).
  exists s, order. split; [exact Hs|]. split; [exact Hc|]. split; [exact Ho|exact Hp].
Defined.

(** ** What the decoder reads of its variables *)

Lemma group_append_lookup m rep k :
  default [] (group_append m rep !! k)
  = default [] (m !! k)
    ++ (if decide (VariableRepresentation.machine_id rep = k) then [rep] else []).
Proof.
  unfold group_append. case_decide as Hk.
  - subst k. by rewrite lookup_insert_eq.
  - rewrite lookup_insert_ne by done. by rewrite app_nil_r.
Qed.

Lemma groups_lookup reps : forall m k,
  default [] (foldl group_append m reps !! k)
  = default [] (m !! k)
    ++ filter (fun r => VariableRepresentation.machine_id r = k) reps.
Proof.
  induction reps as [|rep reps IH]; intros m k; cbn [foldl].
  - by rewrite filter_nil, app_nil_r.
  - rewrite IH, group_append_lookup, <- app_assoc. f_equal.
    rewrite filter_cons. by case_decide.
Qed.

Lemma view_of_machine task reps k :
  0 <= k < num_machines task ->
  VariableRepresentation.transaction_id
    <$> filter (fun r => VariableRepresentation.machine_id r = k) reps
  = fst <$> filter (fun p => p.2 = k) (decode_view task reps).
Proof.
  intros Hk. unfold decode_view.
  induction reps as [|r reps IH]; [done|].
  destruct (decide (VariableRepresentation.machine_id r = k)) as [Hr|Hr].
  - rewrite (filter_cons_True (fun r => VariableRepresentation.machine_id r = k))
      by done.
    rewrite (filter_cons_True
               (fun r => 0 <= VariableRepresentation.machine_id r < num_machines task))
      by lia.
    rewrite !fmap_cons.
    rewrite (filter_cons_True (fun p : Z * Z => p.2 = k)) by done.
    rewrite fmap_cons. simpl. by rewrite IH.
  - rewrite (filter_cons_False (fun r => VariableRepresentation.machine_id r = k))
      by done.
    rewrite IH.
    destruct (decide (0 <= VariableRepresentation.machine_id r < num_machines task)).
    + rewrite (filter_cons_True
                 (fun r => 0 <= VariableRepresentation.machine_id r < num_machines task))
        by done.
      rewrite fmap_cons.
      rewrite (filter_cons_False (fun p : Z * Z => p.2 = k)) by done. done.
    + rewrite (filter_cons_False
                 (fun r => 0 <= VariableRepresentation.machine_id r < num_machines task))
        by done. done.
Qed.

Lemma same_view_same_consumption task reps reps' :
  decode_view task reps = decode_view task reps' ->
  same_consumption (Z.to_nat (num_machines task))
    (foldl group_append ∅ reps) (foldl group_append ∅ reps').
Proof.
  intros Hview k Hk. rewrite !groups_lookup, lookup_empty. simpl.
  rewrite !(view_of_machine task) by lia. by rewrite Hview.
Qed.

Lemma fmap_snoc_inv {A B} (f : A -> B) (l l' : list A) :
  f <$> l = f <$> l' ->
  (l = [] /\ l' = []) \/
  exists r x r' x', l = r ++ [x] /\ l' = r' ++ [x'] /\ f x = f x' /\
                    f <$> r = f <$> r'.
Proof.
  intros H.
  destruct l as [|a l _] using rev_ind; destruct l' as [|a' l' _] using rev_ind.
  - by left.
  - rewrite fmap_app in H. simpl in H. by destruct (f <$> l').
  - rewrite fmap_app in H. simpl in H. by destruct (f <$> l).
  - right. rewrite !fmap_app in H. simpl in H.
    apply app_inj_tail in H as [H1 H2]. exists l, a, l', a'. done.
Qed.

Lemma decode_step_agree task st st' :
  decode_machines st = decode_machines st' ->
  same_consumption (length (decode_machines st))
    (machine_var_map st) (machine_var_map st') ->
  decode_agree (decode_step task st) (decode_step task st').
Proof.
  intros Hms Hsame. unfold decode_step. rewrite <- Hms.
  destruct (min_machine (decode_machines st)) as [i| |] eqn:Hmin; simpl; [|done..].
  destruct (min_machine_spec _ _ Hmin) as (machine & Hi & _). rewrite Hi. simpl.
  rewrite (index_of_min _ _ _ Hmin Hi). simpl.
  assert (i < length (decode_machines st))%nat as Hlt by (by apply lookup_lt_Some in Hi).
  destruct (fmap_snoc_inv _ _ _ (Hsame i Hlt))
    as [[-> ->]|(r & x & r' & x' & -> & -> & Hx & Hr)]; [done|].
  rewrite !list_pop_snoc. simpl. rewrite <- Hx.
  destruct (py_index (lengths task) (VariableRepresentation.transaction_id x))
    as [dur|]; simpl; [|done].
  destruct (build_transaction_solution i (decode_machines st)
              (VariableRepresentation.transaction_id x) dur (conflicts task))
    as [ms'| |] eqn:Hb; simpl; [|done..].
  split; [done|].
  apply build_transaction_solution_Ok in Hb as (? & ? & _ & _ & ->).
  rewrite append_transaction_length.
  intros k Hk. destruct (decide (i = k)) as [<-|Hne].
  - by rewrite !lookup_insert_eq.
  - rewrite !lookup_insert_ne by lia. by apply Hsame.
Qed.

Lemma decode_loop_agree task n : forall st st',
  decode_machines st = decode_machines st' ->
  same_consumption (length (decode_machines st))
    (machine_var_map st) (machine_var_map st') ->
  decode_agree (decode_loop task n st) (decode_loop task n st').
Proof.
  induction n as [|n IH]; intros st st' Hms Hsame; simpl; [done|].
  pose proof (decode_step_agree task st st' Hms Hsame) as Hstep.
  destruct (decode_step task st) as [st1| |], (decode_step task st') as [st1'| |];
    simpl in *; try done.
  destruct Hstep. by apply IH.
Qed.

(** X10. The decoder reads of its variables only the transaction and
    machine identifiers of those naming an existing machine, in input
    order: two lists of names whose parsed variables agree on that view
    decode to the same result. Start times, and variables of machines
    that do not exist, never influence the schedule. *)
Theorem decode_reads_ids_only (task : TransactionScheduleTask)
    (vars vars' : list string) (reps reps' : list VariableRepresentation.t) :
  mapM VariableRepresentation.from_string vars = Ok reps ->
  mapM VariableRepresentation.from_string vars' = Ok reps' ->
  decode_view task reps = decode_view task reps' ->
  binary_variables_to_solution vars task = binary_variables_to_solution vars' task.
Proof.
  intros Hr Hr' Hview. unfold binary_variables_to_solution.
  rewrite Hr, Hr'. simpl.
  pose proof (decode_loop_agree task (Z.to_nat (num_transactions task))
    {| decode_machines := empty_machines (num_machines task);
       machine_var_map := foldl group_append ∅ reps |}
    {| decode_machines := empty_machines (num_machines task);
       machine_var_map := foldl group_append ∅ reps' |} eq_refl) as Hagree.
  simpl in Hagree. unfold empty_machines in Hagree at 1.
  rewrite length_replicate in Hagree.
  specialize (Hagree (same_view_same_consumption _ _ _ Hview)).
  destruct (decode_loop _ _ _) as [st| |], (decode_loop _ _ _) as [st'| |];
    simpl in *; try done.
  - destruct Hagree as [-> _]. done.
  - by subst.
Qed.

Lemma decode_reads_ids_only_witness :
  binary_variables_to_solution ["1-1-0"; "2-1-1"]%string one_machine_task
  = binary_variables_to_solution ["1-1-5"; "2-7-3"; "2-1-0"]%string one_machine_task.
Proof.
  eapply decode_reads_ids_only; reflexivity.
Defined.

(** ** The decoder needs one variable per transaction *)

Lemma sum_list_update (f g : nat -> nat) i n : forall a,
  (a <= i < a + n)%nat -> (forall k, k <> i -> f k = g k) ->
  (sum_list (g <$> seq a n) + f i = sum_list (f <$> seq a n) + g i)%nat.
Proof.
  induction n as [|n IH]; intros a Hi Hfg; [lia|]. simpl.
  destruct (decide (a = i)) as [->|Hne].
  - assert (g <$> seq (S i) n = f <$> seq (S i) n) as Heq.
    { apply list_fmap_ext. intros j k Hk.
      apply lookup_seq in Hk as [-> _]. symmetry. apply Hfg. lia. }
    unfold fmap in *. rewrite Heq. lia.
  - rewrite (Hfg a Hne). specialize (IH (S a) ltac:(lia) Hfg).
    unfold fmap in *. lia.
Qed.

Lemma list_pop_Ok {A} (l : list A) x rest :
  list_pop l = Ok (x, rest) -> l = rest ++ [x].
Proof.
  unfold list_pop. destruct l as [|a l _] using rev_ind; [done|].
  rewrite last_snoc, removelast_last. by intros [= -> ->].
Qed.

Lemma decode_step_waiting task st st' :
  decode_step task st = Ok st' ->
  length (decode_machines st') = length (decode_machines st) /\
  waiting (length (decode_machines st)) (machine_var_map st)
  = S (waiting (length (decode_machines st)) (machine_var_map st')).
Proof.
  intros H. apply decode_step_Ok in H
    as (k & machine & var & rest & dur & ep & _ & Hk & Hpop & -> & _ & _ & ->).
  split; [by rewrite append_transaction_length|].
  apply list_pop_Ok in Hpop. apply lookup_lt_Some in Hk.
  pose proof (sum_list_update
    (fun j => length (default [] (machine_var_map st !! Z.of_nat j)))
    (fun j => length (default [] (<[Z.of_nat k := rest]> (machine_var_map st)
                                    !! Z.of_nat j)))
    k (length (decode_machines st)) 0%nat) as Hsum.
  cbv beta in Hsum. rewrite lookup_insert_eq, Hpop, length_app in Hsum.
  simpl in Hsum. unfold waiting.
  assert (forall j, j <> k ->
    length (default [] (machine_var_map st !! Z.of_nat j))
    = length (default [] (<[Z.of_nat k := rest]> (machine_var_map st) !! Z.of_nat j)))
    as Hne.
  { intros j Hj. rewrite lookup_insert_ne by lia. done. }
  specialize (Hsum ltac:(lia) Hne). unfold fmap in *. lia.
Qed.

Lemma decode_loop_waiting task n : forall st st',
  decode_loop task n st = Ok st' ->
  waiting (length (decode_machines st)) (machine_var_map st)
  = (n + waiting (length (decode_machines st)) (machine_var_map st'))%nat.
Proof.
  induction n as [|n IH]; simpl; intros st st' H.
  - by inversion H; subst.
  - inv_bind H. apply decode_step_waiting in Ha as [Hlen Hw].
    apply IH in H. rewrite Hlen in H. lia.
Qed.

Lemma filter_length_split {A} (P Q R : A -> Prop)
    `{!forall x, Decision (P x), !forall x, Decision (Q x), !forall x, Decision (R x)}
    (l : list A) :
  (forall x, R x <-> P x \/ Q x) -> (forall x, P x -> Q x -> False) ->
  length (filter R l) = (length (filter P l) + length (filter Q l))%nat.
Proof.
  intros HR Hdis. induction l as [|x l IH]; [done|].
  rewrite !filter_cons.
  destruct (decide (P x)) as [HP|HP], (decide (Q x)) as [HQ|HQ].
  - by destruct (Hdis x).
  - rewrite decide_True by (apply HR; by left). simpl. lia.
  - rewrite decide_True by (apply HR; by right). simpl. lia.
  - rewrite decide_False by (rewrite HR; tauto). done.
Qed.

Lemma waiting_groups reps n :
  waiting n (foldl group_append ∅ reps)
  = length (filter (fun r => 0 <= VariableRepresentation.machine_id r < Z.of_nat n)
              reps).
Proof.
  unfold waiting. induction n as [|n IH].
  - simpl. symmetry. apply length_zero_iff_nil.
    induction reps as [|r reps IHr]; [done|].
    rewrite filter_cons_False by lia. done.
  - rewrite seq_S, fmap_app, sum_list_with_app, IH. simpl.
    rewrite groups_lookup, lookup_empty. simpl.
    rewrite (filter_length_split
               (fun r => 0 <= VariableRepresentation.machine_id r < Z.of_nat n)
               (fun r => VariableRepresentation.machine_id r = Z.of_nat n)
               (fun r => 0 <= VariableRepresentation.machine_id r < Z.of_nat (S n)));
      [lia| |]; intros x; lia.
Qed.

(** X11. The decoder cannot place more transactions than it is given
    variables: whenever it returns a schedule, at least
    [num_transactions] of the parsed variables name an existing
    machine; in particular there are at least that many names. *)
Theorem decode_needs_enough_variables (vars : list string)
    (task : TransactionScheduleTask) (s : Solution) :
  binary_variables_to_solution vars task = Ok s ->
  exists reps,
    mapM VariableRepresentation.from_string vars = Ok reps /\
    (Z.to_nat (num_transactions task) <= length (decode_view task reps))%nat /\
    (length (decode_view task reps) <= length vars)%nat.
Proof.
  intros Hs. unfold binary_variables_to_solution in Hs.
  inv_bind Hs. rename a into reps, Ha into Hreps.
  inv_bind Hs. rename a into st, Ha into Hloop. clear Hs.
  exists reps. split; [done|].
  apply decode_loop_waiting in Hloop. simpl in Hloop.
  unfold empty_machines in Hloop. rewrite length_replicate in Hloop.
  rewrite waiting_groups in Hloop.
  unfold decode_view. rewrite length_fmap.
  split.
  - destruct (Z_le_gt_dec 0 (num_machines task)) as [Hm|Hm].
    + rewrite Z2Nat.id in Hloop by done. lia.
    + replace (Z.to_nat (num_machines task)) with 0%nat in Hloop by lia.
      simpl in Hloop.
      enough (forall l, length (filter (fun r =>
                0 <= VariableRepresentation.machine_id r < 0) l) = 0%nat) as H0
        by (rewrite H0 in Hloop; lia).
      intros l. apply length_zero_iff_nil.
      induction l as [|r l IHl]; [done|]. rewrite filter_cons_False by lia. done.
  - rewrite <- (mapM_length _ _ _ Hreps). apply length_filter.
Qed.

Lemma decode_needs_enough_variables_witness :
  exists reps,
    mapM VariableRepresentation.from_string ["1-1-0"; "2-1-1"]%string = Ok reps /\
    (Z.to_nat (num_transactions one_machine_task)
       <= length (decode_view one_machine_task reps))%nat /\
    (length (decode_view one_machine_task reps) <= 2)%nat.
Proof.
  apply (decode_needs_enough_variables ["1-1-0"; "2-1-1"]%string one_machine_task
           (new_solution [ {| transactions := [mk_tx 1 0 1; mk_tx 0 1 1] |} ])).
  vm_compute. reflexivity.
Defined.

(** * Further properties of variable names *)

Lemma decimal_value_from_acc s : forall acc,
  decimal_value_from acc s
  = acc * 10 ^ Z.of_nat (String.length s) + decimal_value_from 0 s.
Proof.
  induction s as [|c s IH]; intros acc.
  - simpl. lia.
  - cbn [decimal_value_from String.length]. rewrite IH, (IH (10 * 0 + _)).
    rewrite Nat2Z.inj_succ, Z.pow_succ_r by lia. ring.
Qed.

Lemma digit_of_pretty_N_char d :
  (d < 10)%N -> digit_of (pretty_N_char d) = Some (Z.of_N d).
Proof.
  intros H.
  assert (d = 0 \/ d = 1 \/ d = 2 \/ d = 3 \/ d = 4 \/ d = 5 \/ d = 6 \/ d = 7 \/
          d = 8 \/ d = 9)%N as Hd by lia.
  repeat (destruct Hd as [-> | Hd]; [reflexivity|]). subst d. reflexivity.
Qed.

Lemma pretty_N_go_spec x : forall s,
  all_digits s = true ->
  all_digits (pretty_N_go x s) = true /\
  decimal_value_from 0 (pretty_N_go x s)
  = Z.of_N x * 10 ^ Z.of_nat (String.length s) + decimal_value_from 0 s /\
  (String.length s <= String.length (pretty_N_go x s))%nat.
Proof.
  induction (N.lt_wf_0 x) as [x _ IH]. intros s Hs.
  destruct (decide (0 < x)%N) as [Hx|Hx].
  - rewrite pretty_N_go_step by done.
    pose proof (digit_of_pretty_N_char (x `mod` 10)%N
                  (N.mod_lt x 10 ltac:(done))) as Hd.
    destruct (IH (x `div` 10)%N (N.div_lt x 10 Hx eq_refl)
                (String (pretty_N_char (x `mod` 10)) s)) as (H1 & H2 & H3).
    { simpl. rewrite Hd. simpl. done. }
    split; [done|]. split.
    + rewrite H2. cbn [decimal_value_from String.length]. rewrite Hd. simpl default.
      rewrite (decimal_value_from_acc s (10 * 0 + _)).
      rewrite Nat2Z.inj_succ, Z.pow_succ_r by lia.
      rewrite (N.div_mod x 10) at 3 by done.
      rewrite N2Z.inj_add, N2Z.inj_mul. change (Z.of_N 10) with 10. ring.
    + simpl in H3. lia.
  - assert (x = 0%N) as -> by lia. rewrite pretty_N_go_0.
    split; [done|]. split; [simpl; lia|done].
Qed.

Lemma pretty_N_go_length k : forall x s,
  (Z.of_N x < 10 ^ Z.of_nat k) ->
  (String.length (pretty_N_go x s) <= k + String.length s)%nat.
Proof.
  induction k as [|k IH]; intros x s Hx.
  - assert (x = 0%N) as -> by (simpl in Hx; lia). rewrite pretty_N_go_0. lia.
  - destruct (decide (0 < x)%N) as [Hpos|Hpos].
    + rewrite pretty_N_go_step by done.
      etrans; [apply IH|simpl; lia].
      rewrite N2Z.inj_div. change (Z.of_N 10) with 10.
      apply Z.div_lt_upper_bound; [lia|].
      rewrite Nat2Z.inj_succ, Z.pow_succ_r in Hx by lia. lia.
    + assert (x = 0%N) as -> by lia. rewrite pretty_N_go_0. lia.
Qed.

(** The decimal rendering of a non-negative integer is a field that
    [int] reads back. *)
Lemma pretty_decimal_field z :
  0 <= z < 10 ^ Z.of_nat int_max_str_digits ->
  decimal_field (pretty z) /\ decimal_value (pretty z) = z.
Proof.
  intros [H0 Hlt]. destruct z as [|p|p]; [| |lia].
  - split; [|done]. split; [done|]. split; [done|].
    apply Nat.leb_le. vm_compute. reflexivity.
  - change (pretty (Z.pos p)) with (pretty_N_go (N.pos p) "").
    destruct (pretty_N_go_spec (N.pos p) "" eq_refl) as (H1 & H2 & H3).
    pose proof (pretty_N_go_length int_max_str_digits (N.pos p) "" Hlt) as H4.
    split; [split; [|split]|].
    + rewrite pretty_N_go_step by lia.
      intros Hnil.
      destruct (pretty_N_go_spec (N.pos p `div` 10)
                  (String (pretty_N_char (N.pos p `mod` 10)) "")) as (_ & _ & H5).
      { simpl. rewrite digit_of_pretty_N_char by (by apply N.mod_lt). done. }
      rewrite Hnil in H5. simpl in H5. lia.
    + done.
    + change (String.length "") with 0%nat in H4.
      by rewrite Nat.add_0_r in H4.
    + unfold decimal_value. rewrite H2. simpl. lia.
Qed.

(** X12. The names the encoder gives its binary variables parse back:
    for a 1-based transaction index, a 1-based machine index and a start
    time that are non-negative (and within the digit limit of [int]),
    [from_string] of the name of [b_var] returns the 0-based transaction
    and machine identifiers and the start time. *)
Theorem variable_name_round_trip (transaction machine time : Z) (name : string) :
  0 <= transaction < 10 ^ Z.of_nat int_max_str_digits ->
  0 <= machine < 10 ^ Z.of_nat int_max_str_digits ->
  0 <= time < 10 ^ Z.of_nat int_max_str_digits ->
  b_var transaction machine time = Binary name ->
  VariableRepresentation.from_string name
    = Ok {| VariableRepresentation.transaction_id := transaction - 1;
            VariableRepresentation.machine_id := machine - 1;
            VariableRepresentation.start_time := time |}.
Proof.
  intros Ht Hm Hs [= <-].
  destruct (pretty_decimal_field _ Ht) as [Ft Vt].
  destruct (pretty_decimal_field _ Hm) as [Fm Vm].
  destruct (pretty_decimal_field _ Hs) as [Fs Vs].
  change (pretty transaction +:+ "-" +:+ pretty machine +:+ "-" +:+ pretty time)
    with (join3 (pretty transaction) (pretty machine) (pretty time)).
  unfold VariableRepresentation.from_string, join3.
  rewrite split_digits_sep by apply Ft.
  rewrite split_digits_sep by apply Fm.
  rewrite split_digits by apply Fs.
  simpl. rewrite (py_int_decimal _ Ft). simpl.
  rewrite (py_int_decimal _ Fm). simpl.
  rewrite (py_int_decimal _ Fs). simpl.
  by rewrite Vt, Vm, Vs.
Qed.

Lemma variable_name_round_trip_witness :
  VariableRepresentation.from_string "12-3-40"
    = Ok {| VariableRepresentation.transaction_id := 12 - 1;
            VariableRepresentation.machine_id := 3 - 1;
            VariableRepresentation.start_time := 40 |}.
Proof.
  apply (variable_name_round_trip 12 3 40 "12-3-40");
    try (split; [lia|vm_compute; reflexivity]).
  reflexivity.
Defined.

(** ** No negative field *)

Lemma split_nonempty sep s : split sep s <> [].
Proof.
  destruct s as [|c s]; simpl; [done|].
  destruct (Ascii.eqb c sep); [done|]. by destruct (split sep s).
Qed.

Lemma split_no_sep sep s f : f ∈ split sep s -> contains sep f = false.
Proof.
  revert f. induction s as [|c s IH]; intros f Hf; simpl in Hf.
  - apply list_elem_of_singleton in Hf. by subst.
  - destruct (Ascii.eqb c sep) eqn:E.
    + apply elem_of_cons in Hf as [->|Hf]; [done|]. by apply IH.
    + destruct (split sep s) as [|f0 fs] eqn:Es.
      * apply list_elem_of_singleton in Hf. subst. simpl. by rewrite E.
      * apply elem_of_cons in Hf as [->|Hf].
        -- simpl. rewrite E. simpl. apply IH. by left.
        -- apply IH. by right.
Qed.

Lemma contains_lstrip c s : contains c s = false -> contains c (lstrip s) = false.
Proof.
  induction s as [|c' s IH]; simpl; [done|]. intros H.
  apply orb_false_iff in H as [H1 H2].
  destruct (is_space c'); [by apply IH|]. simpl. by rewrite H1, H2.
Qed.

Lemma contains_rstrip c s : contains c s = false -> contains c (rstrip s) = false.
Proof.
  induction s as [|c' s IH]; simpl; [done|]. intros H.
  apply orb_false_iff in H as [H1 H2]. specialize (IH H2).
  destruct (rstrip s) as [|c'' r].
  - destruct (is_space c'); [done|]. simpl. by rewrite H1.
  - simpl in *. by rewrite H1, IH.
Qed.

Lemma digit_of_nonneg c d : digit_of c = Some d -> 0 <= d.
Proof.
  unfold digit_of. destruct (_ && _) eqn:E; [|done]. intros [= <-].
  apply andb_true_iff in E as [E _]. apply Z.leb_le in E. lia.
Qed.

Lemma int_digits_nonneg s : forall after acc count v n,
  0 <= acc -> int_digits after acc count s = Some (v, n) -> 0 <= v.
Proof.
  induction s as [|c s IH]; simpl; intros after acc count v n Hacc H.
  - destruct after; inversion H; by subst.
  - destruct (digit_of c) as [d|] eqn:Hd.
    + apply digit_of_nonneg in Hd. eapply IH; [|exact H]. lia.
    + destruct (_ && _); [|done]. by eapply IH.
Qed.

Lemma sign_not_minus c r :
  Ascii.eqb c "-" = false ->
  exists s2, match String c r with
             | String "+" r' => (false, r')
             | String "-" r' => (true, r')
             | _ => (false, String c r)
             end = (false, s2).
Proof.
  intros H.
  destruct c as [[] [] [] [] [] [] [] []];
    try (eexists; reflexivity); discriminate H.
Qed.

Lemma py_int_nonneg s v :
  contains "-" s = false -> py_int s = Ok v -> 0 <= v.
Proof.
  intros Hc. apply contains_lstrip, contains_rstrip in Hc. unfold py_int.
  destruct (rstrip (lstrip s)) as [|c r] eqn:E.
  - simpl. done.
  - simpl in Hc. apply orb_false_iff in Hc as [Hc _].
    destruct (sign_not_minus c r Hc) as [s2 ->].
    destruct (int_digits false 0 0 s2) as [[w n]|] eqn:Ed; [|done].
    destruct (n <=? int_max_str_digits)%nat; [|done].
    intros [= <-]. by eapply int_digits_nonneg.
Qed.

(** X13. No parsed field comes from a negative number: since '-' is the
    delimiter, a name that parses has a start time of at least 0 and
    transaction and machine identifiers of at least -1 (the value for a
    field 0). *)
Theorem parsed_fields_lower_bounds (input : string) (v : VariableRepresentation.t) :
  VariableRepresentation.from_string input = Ok v ->
  -1 <= VariableRepresentation.transaction_id v /\
  -1 <= VariableRepresentation.machine_id v /\
  0 <= VariableRepresentation.start_time v.
Proof.
  unfold VariableRepresentation.from_string. intros H.
  inv_bind H. rename a into f0. apply or_raise_Ok in Ha.
  inv_bind H. rename a into a0.
  inv_bind H. rename a into f1. apply or_raise_Ok in Ha1.
  inv_bind H. rename a into a1.
  inv_bind H. rename a into f2. apply or_raise_Ok in Ha3.
  inv_bind H. rename a into a2.
  inversion H; subst v; clear H. simpl.
  apply list_elem_of_lookup_2, split_no_sep in Ha, Ha1, Ha3.
  pose proof (py_int_nonneg _ _ Ha Ha0).
  pose proof (py_int_nonneg _ _ Ha1 Ha2).
  pose proof (py_int_nonneg _ _ Ha3 Ha4). lia.
Qed.

Lemma parsed_fields_lower_bounds_witness :
  -1 <= -1 /\ -1 <= 4 /\ 0 <= 0.
Proof.
  exact (parsed_fields_lower_bounds "0-5-0"
           {| VariableRepresentation.transaction_id := -1;
              VariableRepresentation.machine_id := 4;
              VariableRepresentation.start_time := 0 |} eq_refl).
Defined.

(** * Rounding to binary64 *)

(** ** Powers of two *)

Lemma pow2_pos e : (0 < pow2 e)%Q.
Proof. apply Qpower_0_lt. reflexivity. Qed.

Lemma pow2_add a b : (pow2 (a + b) == pow2 a * pow2 b)%Q.
Proof. apply Qpower_plus. discriminate. Qed.

Lemma pow2_le a b : a <= b -> (pow2 a <= pow2 b)%Q.
Proof. intros H. apply Qpower_le_compat_l; [done|discriminate]. Qed.

Lemma pow2_lt a b : a < b -> (pow2 a < pow2 b)%Q.
Proof. intros H. apply Qpower_lt_compat_l; [done|reflexivity]. Qed.

Lemma pow2_Z n : 0 <= n -> (pow2 n == inject_Z (2 ^ n))%Q.
Proof. intros H. symmetry. by apply Zpower_Qpower. Qed.

Lemma pow2_split a b : (pow2 a == pow2 (a - b) * pow2 b)%Q.
Proof. rewrite <- pow2_add. by replace (a - b + b) with a by lia. Qed.

Lemma pow2_scale x s : (x / pow2 s * pow2 s == x)%Q.
Proof. field. pose proof (pow2_pos s). lra. Qed.

Lemma scale_le x y s : (x <= y)%Q -> (x / pow2 s <= y / pow2 s)%Q.
Proof.
  intros H. unfold Qdiv. apply Qmult_le_compat_r; [done|].
  apply Qlt_le_weak, Qinv_lt_0_compat, pow2_pos.
Qed.

Lemma scale_pow2 a s : (pow2 a / pow2 s == pow2 (a - s))%Q.
Proof.
  rewrite (pow2_split a s). field. pose proof (pow2_pos s). lra.
Qed.

(** ** Rounding to the nearest integer *)

Lemma round_half_even_cases y :
  (round_half_even y = Qfloor y /\
   (y - inject_Z (Qfloor y) <= 1 # 2)%Q /\
   ((y - inject_Z (Qfloor y) == 1 # 2)%Q -> Z.even (Qfloor y) = true)) \/
  (round_half_even y = Qfloor y + 1 /\
   (1 # 2 <= y - inject_Z (Qfloor y))%Q /\
   ((y - inject_Z (Qfloor y) == 1 # 2)%Q -> Z.even (Qfloor y) = false)).
Proof.
  unfold round_half_even.
  destruct (Qcompare_spec (y - inject_Z (Qfloor y)) (1 # 2)) as [H|H|H].
  - destruct (Z.even (Qfloor y)) eqn:E.
    + left. split; [done|]. split; [lra|done].
    + right. split; [done|]. split; [lra|done].
  - left. split; [done|]. split; [lra|]. intros Heq. lra.
  - right. split; [done|]. split; [lra|]. intros Heq. lra.
Qed.

Lemma round_half_even_Z k : round_half_even (inject_Z k) = k.
Proof.
  unfold round_half_even. rewrite Qfloor_Z.
  destruct (Qcompare_spec (inject_Z k - inject_Z k) (1 # 2)) as [H|H|H];
    [lra|done|lra].
Qed.

Lemma Qfloor_fraction y : (0 <= y - inject_Z (Qfloor y) < 1)%Q.
Proof.
  pose proof (Qfloor_le y). pose proof (Qlt_floor y) as H1.
  rewrite inject_Z_plus in H1. change (inject_Z 1) with 1%Q in H1. lra.
Qed.

Lemma round_half_even_mono x y :
  (x <= y)%Q -> round_half_even x <= round_half_even y.
Proof.
  intros Hxy. pose proof (Qfloor_resp_le _ _ Hxy) as Hf.
  destruct (round_half_even_cases x) as [(-> & Hx & Ex)|(-> & Hx & Ex)];
    destruct (round_half_even_cases y) as [(-> & Hy & Ey)|(-> & Hy & Ey)];
    try lia.
  destruct (decide (Qfloor x = Qfloor y)) as [Heq|Hne]; [|lia].
  exfalso. rewrite Heq in *.
  assert (x - inject_Z (Qfloor y) == 1 # 2)%Q as H1 by lra.
  assert (y - inject_Z (Qfloor y) == 1 # 2)%Q as H2 by lra.
  rewrite (Ex H1) in Ey. by specialize (Ey H2).
Qed.

Lemma round_half_even_le y k : (y <= inject_Z k)%Q -> round_half_even y <= k.
Proof.
  intros H. rewrite <- (round_half_even_Z k). by apply round_half_even_mono.
Qed.

Lemma round_half_even_ge y k : (inject_Z k <= y)%Q -> k <= round_half_even y.
Proof.
  intros H. rewrite <- (round_half_even_Z k). by apply round_half_even_mono.
Qed.

Lemma round_half_even_comp x y : (x == y)%Q -> round_half_even x = round_half_even y.
Proof.
  intros H. apply Z.le_antisymm; apply round_half_even_mono; lra.
Qed.

(** ** The exponent of a positive rational *)

Lemma Q_of_fraction x : (x == inject_Z (Qnum x) / inject_Z (Z.pos (Qden x)))%Q.
Proof. destruct x as [p q]. apply Qmake_Qdiv. Qed.

Lemma log2_bounds n :
  0 < n ->
  (pow2 (Z.log2 n) <= inject_Z n)%Q /\ (inject_Z n < pow2 (Z.log2 n + 1))%Q.
Proof.
  intros Hn. pose proof (Z.log2_spec n Hn) as [H1 H2].
  pose proof (Z.log2_nonneg n) as H0.
  rewrite !pow2_Z by lia. rewrite <- Zle_Qle, <- Zlt_Qlt.
  split; [done|]. by replace (Z.log2 n + 1) with (Z.succ (Z.log2 n)) by lia.
Qed.

Lemma binade_spec x :
  (0 < x)%Q -> (pow2 (binade x) <= x)%Q /\ (x < pow2 (binade x + 1))%Q.
Proof.
  intros Hx. unfold binade.
  assert (0 < Qnum x) as Hp.
  { destruct x as [p q]. unfold Qlt in Hx. simpl in *. lia. }
  destruct (log2_bounds (Qnum x) Hp) as [Hp1 Hp2].
  destruct (log2_bounds (Z.pos (Qden x)) ltac:(lia)) as [Hq1 Hq2].
  set (a := Z.log2 (Qnum x)) in *. set (b := Z.log2 (Z.pos (Qden x))) in *.
  pose proof (Q_of_fraction x) as Hfrac.
  set (p := inject_Z (Qnum x)) in *. set (q := inject_Z (Z.pos (Qden x))) in *.
  pose proof (pow2_pos a) as Ha. pose proof (pow2_pos b) as Hb.
  pose proof (pow2_pos (a - b)) as Hab.
  assert (0 < q)%Q as Hq by lra.
  assert (x * q == p)%Q as Hxq by (rewrite Hfrac; field; lra).
  assert (pow2 (a + 1) == 2 * pow2 a)%Q as Ha1.
  { rewrite pow2_add. change (pow2 1) with 2%Q. ring. }
  assert (pow2 (b + 1) == 2 * pow2 b)%Q as Hb1.
  { rewrite pow2_add. change (pow2 1) with 2%Q. ring. }
  assert (pow2 a == pow2 (a - b) * pow2 b)%Q as Hsplit by apply pow2_split.
  assert (pow2 (a - b + 1) == 2 * pow2 (a - b))%Q as Hab1.
  { rewrite pow2_add. change (pow2 1) with 2%Q. ring. }
  assert (pow2 (a - b) == 2 * pow2 (a - b - 1))%Q as Hab0.
  { rewrite (pow2_split (a - b) (a - b - 1)).
    replace (a - b - (a - b - 1)) with 1 by lia. change (pow2 1) with 2%Q. ring. }
  (* x < 2^(a-b+1) and 2^(a-b-1) < x *)
  assert (x < pow2 (a - b + 1))%Q as Hup.
  { apply Qnot_le_lt. intros Hle.
    assert (pow2 (a - b + 1) * q <= x * q)%Q
      by (apply Qmult_le_compat_r; lra).
    assert (pow2 (a - b + 1) * pow2 b <= pow2 (a - b + 1) * q)%Q
      by (apply Qmult_le_l; [rewrite Hab1|]; lra).
    rewrite Hab1 in *. lra. }
  assert (pow2 (a - b - 1) < x)%Q as Hlow.
  { apply Qnot_le_lt. intros Hle.
    assert (x * q <= pow2 (a - b - 1) * q)%Q
      by (apply Qmult_le_compat_r; lra).
    assert (pow2 (a - b - 1) * q < pow2 (a - b - 1) * pow2 (b + 1))%Q
      as Hlt by (apply Qmult_lt_l; lra).
    rewrite Hb1 in Hlt. rewrite Hab0 in Hsplit. lra. }
  destruct (Qle_bool (pow2 (a - b)) x) eqn:E.
  - apply Qle_bool_iff in E. done.
  - assert (x < pow2 (a - b))%Q as Hlt.
    { apply Qnot_le_lt. intros Hle. apply Qle_bool_iff in Hle. congruence. }
    replace (a - b - 1 + 1) with (a - b) by lia. split; [lra|done].
Qed.

Lemma binade_unique x e :
  (0 < x)%Q -> (pow2 e <= x)%Q -> (x < pow2 (e + 1))%Q -> binade x = e.
Proof.
  intros Hx H1 H2. destruct (binade_spec x Hx) as [H3 H4].
  destruct (Z.lt_trichotomy (binade x) e) as [Hlt|[Heq|Hgt]]; [|done|].
  - pose proof (pow2_le (binade x + 1) e ltac:(lia)). lra.
  - pose proof (pow2_le (e + 1) (binade x) ltac:(lia)). lra.
Qed.

Lemma binade_mono x y : (0 < x)%Q -> (x <= y)%Q -> binade x <= binade y.
Proof.
  intros Hx Hxy. destruct (binade_spec x Hx) as [H1 H2].
  destruct (binade_spec y ltac:(lra)) as [H3 H4].
  destruct (Z.le_gt_cases (binade x) (binade y)) as [|Hgt]; [done|].
  pose proof (pow2_le (binade y + 1) (binade x) ltac:(lia)). lra.
Qed.

Lemma binade_comp x y : (0 < x)%Q -> (x == y)%Q -> binade x = binade y.
Proof.
  intros Hx Hxy. apply Z.le_antisymm; apply binade_mono; lra.
Qed.

Lemma binade_pow2 e : binade (pow2 e) = e.
Proof.
  apply binade_unique; [apply pow2_pos|lra|]. apply pow2_lt. lia.
Qed.

(** ** Rounding a positive rational *)

Lemma ulp_exponent_bounds x :
  binade x - 52 <= ulp_exponent x /\ -1074 <= ulp_exponent x.
Proof. unfold ulp_exponent. lia. Qed.

Lemma scale_lt x y s : (x < y)%Q -> (x / pow2 s < y / pow2 s)%Q.
Proof.
  intros H. unfold Qdiv. apply Qmult_lt_compat_r; [|done].
  apply Qinv_lt_0_compat, pow2_pos.
Qed.

Lemma scaled_lt x : (0 < x)%Q -> (x / pow2 (ulp_exponent x) < pow2 53)%Q.
Proof.
  intros Hx. destruct (binade_spec x Hx) as [_ H].
  pose proof (ulp_exponent_bounds x) as [Hs _].
  pose proof (pow2_le (binade x + 1) (ulp_exponent x + 53) ltac:(lia)) as Hle.
  apply (scale_lt _ _ (ulp_exponent x)) in H.
  apply (scale_le _ _ (ulp_exponent x)) in Hle.
  rewrite (scale_pow2 (ulp_exponent x + 53)) in Hle.
  replace (ulp_exponent x + 53 - ulp_exponent x) with 53 in Hle by lia. lra.
Qed.

Lemma scaled_ge x :
  (0 < x)%Q -> -1022 <= binade x -> (pow2 52 <= x / pow2 (ulp_exponent x))%Q.
Proof.
  intros Hx He. destruct (binade_spec x Hx) as [H _].
  apply (scale_le _ _ (ulp_exponent x)) in H. rewrite scale_pow2 in H.
  unfold ulp_exponent in *. rewrite Z.max_l in * by lia.
  by replace (binade x - (binade x - 52)) with 52 in H by lia.
Qed.

Lemma scaled_pos x : (0 < x)%Q -> (0 < x / pow2 (ulp_exponent x))%Q.
Proof.
  intros Hx. unfold Qdiv. apply Qmult_lt_0_compat; [done|].
  apply Qinv_lt_0_compat, pow2_pos.
Qed.

Lemma mantissa_bounds x :
  (0 < x)%Q ->
  0 <= round_half_even (x / pow2 (ulp_exponent x)) <= 2 ^ 53 /\
  (-1022 <= binade x -> 2 ^ 52 <= round_half_even (x / pow2 (ulp_exponent x))).
Proof.
  intros Hx. split; [split|].
  - apply round_half_even_ge. pose proof (scaled_pos x Hx).
    change (inject_Z 0) with 0%Q. lra.
  - apply round_half_even_le. rewrite <- pow2_Z by lia.
    apply Qlt_le_weak. by apply scaled_lt.
  - intros He. apply round_half_even_ge. rewrite <- pow2_Z by lia.
    by apply scaled_ge.
Qed.

Lemma round_positive_eq x :
  (round_positive x
   == inject_Z (round_half_even (x / pow2 (ulp_exponent x))) * pow2 (ulp_exponent x))%Q.
Proof. unfold round_positive. apply Qred_correct. Qed.

Lemma round_positive_nonneg x : (0 < x)%Q -> (0 <= round_positive x)%Q.
Proof.
  intros Hx. rewrite round_positive_eq.
  destruct (mantissa_bounds x Hx) as [[H _] _].
  apply Qmult_le_0_compat.
  - change 0%Q with (inject_Z 0). by rewrite <- Zle_Qle.
  - apply Qlt_le_weak, pow2_pos.
Qed.

Lemma round_positive_comp x y :
  (0 < x)%Q -> (x == y)%Q -> round_positive x = round_positive y.
Proof.
  intros Hx Hxy. unfold round_positive, ulp_exponent.
  rewrite (binade_comp x y Hx Hxy). apply Qred_complete.
  set (s := Z.max (binade y) (-1022) - 52).
  assert (x / pow2 s == y / pow2 s)%Q as Heq by (by rewrite Hxy).
  by rewrite (round_half_even_comp _ _ Heq).
Qed.

Lemma round_positive_upper x :
  (0 < x)%Q -> (round_positive x <= pow2 (ulp_exponent x + 53))%Q.
Proof.
  intros Hx. rewrite round_positive_eq, pow2_add.
  destruct (mantissa_bounds x Hx) as [[_ H] _].
  rewrite (pow2_Z 53) by lia. rewrite Qmult_comm.
  apply Qmult_le_l; [apply pow2_pos|]. by rewrite <- Zle_Qle.
Qed.

Lemma round_positive_lower x :
  (0 < x)%Q -> -1022 <= binade x ->
  (pow2 (ulp_exponent x + 52) <= round_positive x)%Q.
Proof.
  intros Hx He. rewrite round_positive_eq, pow2_add.
  destruct (mantissa_bounds x Hx) as [_ H]. specialize (H He).
  rewrite (pow2_Z 52) by lia. rewrite (Qmult_comm (pow2 _)).
  apply Qmult_le_compat_r; [|apply Qlt_le_weak, pow2_pos].
  by rewrite <- Zle_Qle.
Qed.

Lemma round_positive_mono x y :
  (0 < x)%Q -> (x <= y)%Q -> (round_positive x <= round_positive y)%Q.
Proof.
  intros Hx Hxy. assert (0 < y)%Q as Hy by lra.
  pose proof (binade_mono x y Hx Hxy) as Hb.
  destruct (decide (ulp_exponent x = ulp_exponent y)) as [Heq|Hne].
  - rewrite !round_positive_eq, Heq.
    apply Qmult_le_compat_r; [|apply Qlt_le_weak, pow2_pos].
    rewrite <- Zle_Qle. apply round_half_even_mono. by apply scale_le.
  - assert (ulp_exponent x < ulp_exponent y) as Hlt
      by (unfold ulp_exponent in *; lia).
    assert (-1022 <= binade y) as Hn by (unfold ulp_exponent in *; lia).
    pose proof (round_positive_upper x Hx) as H1.
    pose proof (round_positive_lower y Hy Hn) as H2.
    pose proof (pow2_le (ulp_exponent x + 53) (ulp_exponent y + 52) ltac:(lia)).
    lra.
Qed.

(** A number with at most 53 significant bits and an exponent the
    format has is not changed by rounding. *)
Lemma round_positive_dyadic m s :
  0 < m <= 2 ^ 53 -> -1074 <= s ->
  (round_positive (inject_Z m * pow2 s) == inject_Z m * pow2 s)%Q.
Proof.
  intros Hm Hs. set (x := (inject_Z m * pow2 s)%Q).
  pose proof (pow2_pos s) as Hps.
  assert (0 < inject_Z m)%Q as Hm0.
  { change 0%Q with (inject_Z 0). rewrite <- Zlt_Qlt. lia. }
  assert (0 < x)%Q as Hx by (apply Qmult_lt_0_compat; done).
  destruct (log2_bounds m ltac:(lia)) as [Hl1 Hl2].
  assert (binade x = Z.log2 m + s) as He.
  { apply binade_unique; [done|..]; unfold x.
    - rewrite pow2_add. apply Qmult_le_compat_r; lra.
    - replace (Z.log2 m + s + 1) with (Z.log2 m + 1 + s) by lia.
      rewrite pow2_add. apply Qmult_lt_compat_r; lra. }
  assert (Z.log2 m <= 53) as Hlog.
  { destruct (Z.le_gt_cases (Z.log2 m) 53) as [|Hgt]; [done|].
    pose proof (Z.log2_spec m ltac:(lia)) as [Hlo _].
    pose proof (Z.pow_le_mono_r 2 54 (Z.log2 m) ltac:(lia) ltac:(lia)). lia. }
  assert (exists k, x / pow2 (ulp_exponent x) == inject_Z k)%Q as [k Hk].
  { assert (ulp_exponent x = Z.max (Z.log2 m + s) (-1022) - 52) as Hu
      by (unfold ulp_exponent; by rewrite He).
    set (u := ulp_exponent x) in *. pose proof (pow2_pos u) as Hpu.
    destruct (Z.le_gt_cases u s) as [Hle|Hgt].
    - exists (m * 2 ^ (s - u)).
      rewrite inject_Z_mult, <- pow2_Z by lia. unfold x.
      pose proof (pow2_split s u) as Hsp.
      set (a := pow2 s) in *. set (b := pow2 (s - u)) in *. set (c := pow2 u) in *.
      rewrite Hsp. field. lra.
    - assert (Z.log2 m = 53 /\ u = s + 1) as [Hl53 Hs1] by lia.
      assert (m = 2 ^ 53) as Hm53.
      { pose proof (Z.log2_spec m ltac:(lia)) as [Hlo _]. rewrite Hl53 in Hlo. lia. }
      exists (2 ^ 52). rewrite Hs1. unfold x. rewrite Hm53.
      rewrite <- !pow2_Z by lia.
      pose proof (pow2_add s 1) as Hs2. change (pow2 1) with 2%Q in Hs2.
      assert (pow2 53 == 2 * pow2 52)%Q as H53 by reflexivity.
      set (a := pow2 s) in *. set (b := pow2 (s + 1)) in *.
      rewrite H53, Hs2. field. lra. }
  rewrite round_positive_eq, (round_half_even_comp _ _ Hk), round_half_even_Z.
  rewrite <- Hk. apply pow2_scale.
Qed.

Lemma round_positive_idem x :
  (0 < x)%Q -> (0 < round_positive x)%Q ->
  round_positive (round_positive x) = round_positive x.
Proof.
  intros Hx Hr. pose proof (round_positive_eq x) as Heq.
  destruct (mantissa_bounds x Hx) as [[Hm0 Hm1] _].
  pose proof (ulp_exponent_bounds x) as [_ Hs].
  set (m := round_half_even (x / pow2 (ulp_exponent x))) in *.
  set (s := ulp_exponent x) in *.
  assert (0 < m) as Hm.
  { destruct (decide (m = 0)) as [Hz|]; [|lia].
    rewrite Hz in Heq. change (inject_Z 0) with 0%Q in Heq. lra. }
  rewrite (round_positive_comp _ _ Hr Heq).
  pose proof (round_positive_dyadic m s ltac:(lia) Hs) as Hd.
  unfold round_positive at 1 in Hd. rewrite Qred_correct in Hd.
  unfold round_positive. apply Qred_complete. fold s. fold m. exact Hd.
Qed.

(** ** Rounding to binary64 *)

Lemma round64_zero x : (x == 0)%Q -> round64 x = Some 0%Q.
Proof. intros H. unfold round64. by rewrite (proj1 (Qeq_alt x 0) H). Qed.

Lemma round64_pos x :
  (0 < x)%Q ->
  round64 x = if Qle_bool (pow2 1024) (round_positive x) then None
              else Some (round_positive x).
Proof. intros H. unfold round64. by rewrite (proj1 (Qgt_alt x 0) H). Qed.

Lemma round64_neg x :
  (x < 0)%Q ->
  round64 x = if Qle_bool (pow2 1024) (round_positive (- x)) then None
              else Some (- round_positive (- x))%Q.
Proof. intros H. unfold round64. by rewrite (proj1 (Qlt_alt x 0) H). Qed.

Lemma round64_pos_Some x a :
  (0 < x)%Q -> round64 x = Some a ->
  a = round_positive x /\ (round_positive x < pow2 1024)%Q.
Proof.
  intros Hx H. rewrite (round64_pos x Hx) in H.
  destruct (Qle_bool (pow2 1024) (round_positive x)) eqn:E; [done|].
  injection H as <-. split; [done|].
  apply Qnot_le_lt. intros Hle. apply Qle_bool_iff in Hle. congruence.
Qed.

Lemma round64_neg_Some x a :
  (x < 0)%Q -> round64 x = Some a ->
  a = (- round_positive (- x))%Q /\ (round_positive (- x) < pow2 1024)%Q.
Proof.
  intros Hx H. rewrite (round64_neg x Hx) in H.
  destruct (Qle_bool (pow2 1024) (round_positive (- x))) eqn:E; [done|].
  injection H as <-. split; [done|].
  apply Qnot_le_lt. intros Hle. apply Qle_bool_iff in Hle. congruence.
Qed.

Lemma round64_pos_intro x :
  (0 < x)%Q -> (round_positive x < pow2 1024)%Q ->
  round64 x = Some (round_positive x).
Proof.
  intros Hx H. rewrite (round64_pos x Hx).
  destruct (Qle_bool (pow2 1024) (round_positive x)) eqn:E; [|done].
  apply Qle_bool_iff in E. lra.
Qed.

Lemma round64_neg_intro x :
  (x < 0)%Q -> (round_positive (- x) < pow2 1024)%Q ->
  round64 x = Some (- round_positive (- x))%Q.
Proof.
  intros Hx H. rewrite (round64_neg x Hx).
  destruct (Qle_bool (pow2 1024) (round_positive (- x))) eqn:E; [|done].
  apply Qle_bool_iff in E. lra.
Qed.

Lemma round64_sign x a :
  round64 x = Some a ->
  ((0 <= x)%Q -> (0 <= a)%Q) /\ ((x <= 0)%Q -> (a <= 0)%Q).
Proof.
  intros H. destruct (Q_dec x 0) as [[Hx|Hx]|Hx].
  - apply (round64_neg_Some _ _ Hx) in H as [-> _].
    pose proof (round_positive_nonneg (- x) ltac:(lra)). split; intros; lra.
  - apply (round64_pos_Some _ _ Hx) in H as [-> _].
    pose proof (round_positive_nonneg x Hx). split; intros; lra.
  - rewrite (round64_zero x Hx) in H. injection H as <-. split; intros; lra.
Qed.

(** Rounding is monotone. *)
Lemma round64_mono x y a b :
  (x <= y)%Q -> round64 x = Some a -> round64 y = Some b -> (a <= b)%Q.
Proof.
  intros Hxy Ha Hb.
  destruct (round64_sign x a Ha) as [Ha1 Ha2].
  destruct (round64_sign y b Hb) as [Hb1 Hb2].
  destruct (Q_dec x 0) as [[Hx|Hx]|Hx].
  - destruct (Qlt_le_dec y 0) as [Hy|Hy].
    + apply (round64_neg_Some _ _ Hx) in Ha as [-> _].
      apply (round64_neg_Some _ _ Hy) in Hb as [-> _].
      pose proof (round_positive_mono (- y) (- x) ltac:(lra) ltac:(lra)). lra.
    + specialize (Ha2 ltac:(lra)). specialize (Hb1 Hy). lra.
  - apply (round64_pos_Some _ _ Hx) in Ha as [-> _].
    assert (0 < y)%Q as Hy by lra.
    apply (round64_pos_Some _ _ Hy) in Hb as [-> _].
    by apply round_positive_mono.
  - specialize (Ha2 ltac:(lra)). specialize (Hb1 ltac:(lra)). lra.
Qed.

(** Between two numbers that round to finite values, rounding gives a
    finite value. *)
Lemma round64_between lo hi x a b :
  round64 lo = Some a -> round64 hi = Some b ->
  (lo <= x)%Q -> (x <= hi)%Q ->
  exists r, round64 x = Some r /\ (a <= r)%Q /\ (r <= b)%Q.
Proof.
  intros Ha Hb Hlo Hhi.
  assert (exists r, round64 x = Some r) as [r Hr].
  { destruct (Q_dec x 0) as [[Hx|Hx]|Hx].
    - assert (lo < 0)%Q as Hl by lra.
      apply (round64_neg_Some _ _ Hl) in Ha as [_ Ha].
      pose proof (round_positive_mono (- x) (- lo) ltac:(lra) ltac:(lra)).
      eexists. apply round64_neg_intro; [done|lra].
    - assert (0 < hi)%Q as Hh by lra.
      apply (round64_pos_Some _ _ Hh) in Hb as [_ Hb].
      pose proof (round_positive_mono x hi Hx Hhi).
      eexists. apply round64_pos_intro; [done|lra].
    - eexists. by apply round64_zero. }
  exists r. split; [done|]. split.
  - exact (round64_mono lo x a r Hlo Ha Hr).
  - exact (round64_mono x hi r b Hhi Hr Hb).
Qed.

Lemma round64_comp x y : (x == y)%Q -> round64 x = round64 y.
Proof.
  intros Hxy. destruct (Q_dec x 0) as [[Hx|Hx]|Hx].
  - rewrite (round64_neg x Hx), (round64_neg y ltac:(lra)).
    assert (- x == - y)%Q as Hn by lra.
    by rewrite (round_positive_comp (- x) (- y) ltac:(lra) Hn).
  - rewrite (round64_pos x Hx), (round64_pos y ltac:(lra)).
    by rewrite (round_positive_comp x y Hx Hxy).
  - rewrite (round64_zero x Hx), (round64_zero y ltac:(lra)). done.
Qed.

Lemma Qred_zero x : (x == 0)%Q -> Qred x = 0%Q.
Proof. intros H. by apply (Qred_complete x 0). Qed.

(** A value of the format is not changed by rounding. *)
Lemma round64_idem x a : round64 x = Some a -> round64 a = Some a.
Proof.
  intros H. destruct (Q_dec x 0) as [[Hx|Hx]|Hx].
  - apply (round64_neg_Some _ _ Hx) in H as [-> Hlt].
    pose proof (round_positive_nonneg (- x) ltac:(lra)) as Hnn.
    destruct (Qlt_le_dec 0 (round_positive (- x))) as [Hr|Hr].
    + pose proof (round_positive_idem (- x) ltac:(lra) Hr) as Hid.
      assert (- - round_positive (- x) == round_positive (- x))%Q as Hopp by ring.
      rewrite round64_neg by lra.
      assert (0 < - - round_positive (- x))%Q as Hpp by lra.
      rewrite (round_positive_comp _ _ Hpp Hopp), Hid.
      destruct (Qle_bool (pow2 1024) (round_positive (- x))) eqn:E; [|done].
      apply Qle_bool_iff in E. lra.
    + assert (round_positive (- x) = 0%Q) as ->.
      { unfold round_positive in *. apply Qred_zero.
        rewrite Qred_correct in Hr, Hnn. lra. }
      reflexivity.
  - apply (round64_pos_Some _ _ Hx) in H as [-> Hlt].
    pose proof (round_positive_nonneg x Hx) as Hnn.
    destruct (Qlt_le_dec 0 (round_positive x)) as [Hr|Hr].
    + rewrite round64_pos by done. rewrite (round_positive_idem x Hx Hr).
      destruct (Qle_bool (pow2 1024) (round_positive x)) eqn:E; [|done].
      apply Qle_bool_iff in E. lra.
    + assert (round_positive x = 0%Q) as ->.
      { unfold round_positive in *. apply Qred_zero.
        rewrite Qred_correct in Hr, Hnn. lra. }
      reflexivity.
  - rewrite (round64_zero x Hx) in H. injection H as <-. reflexivity.
Qed.

Lemma Qred_inject_Z m : Qred (inject_Z m) = inject_Z m.
Proof.
  unfold Qred, inject_Z.
  pose proof (Z.ggcd_gcd m 1) as Hg.
  pose proof (Z.ggcd_correct_divisors m 1) as Hd.
  destruct (Z.ggcd m 1) as [g [a b]]. simpl in *.
  rewrite Z.gcd_1_r in Hg. subst g. destruct Hd as [Ha Hb].
  assert (a = m) as -> by lia. assert (b = 1) as -> by lia. done.
Qed.

(** Integers of at most 53 bits are values of the format. *)
Lemma round64_Z n : - 2 ^ 53 <= n <= 2 ^ 53 -> round64 (inject_Z n) = Some (inject_Z n).
Proof.
  intros Hn.
  assert (forall m, 0 < m <= 2 ^ 53 -> round_positive (inject_Z m) = inject_Z m)
    as Hpos.
  { intros m Hm. pose proof (round_positive_dyadic m 0 Hm ltac:(lia)) as Hd.
    change (pow2 0) with 1%Q in Hd.
    assert (0 < inject_Z m)%Q as Hm0.
    { change 0%Q with (inject_Z 0). rewrite <- Zlt_Qlt. lia. }
    assert (inject_Z m * 1 == inject_Z m)%Q as H1 by ring.
    assert (0 < inject_Z m * 1)%Q as Hm1 by lra.
    rewrite (round_positive_comp _ _ Hm1 H1) in Hd.
    unfold round_positive in *. rewrite Qred_correct in Hd.
    rewrite (Qred_complete _ _ Hd), (Qred_complete _ _ H1).
    apply Qred_inject_Z. }
  assert (inject_Z (2 ^ 53) < pow2 1024)%Q as Hbig.
  { rewrite (pow2_Z 1024) by lia. rewrite <- Zlt_Qlt.
    apply Z.pow_lt_mono_r; lia. }
  destruct (Z.lt_trichotomy n 0) as [Hneg|[->|Hp]].
  - assert (inject_Z n < 0)%Q as Hq.
    { change 0%Q with (inject_Z 0). rewrite <- Zlt_Qlt. lia. }
    assert (- inject_Z n = inject_Z (- n))%Q as Ho by reflexivity.
    rewrite round64_neg_intro by (try done; rewrite Ho, Hpos by lia;
      assert (inject_Z (- n) <= inject_Z (2 ^ 53))%Q
        by (rewrite <- Zle_Qle; lia); lra).
    rewrite Ho, Hpos by lia. f_equal. unfold inject_Z, Qopp. simpl.
    by rewrite Z.opp_involutive.
  - reflexivity.
  - assert (0 < inject_Z n)%Q as Hq.
    { change 0%Q with (inject_Z 0). rewrite <- Zlt_Qlt. lia. }
    rewrite round64_pos_intro; rewrite ?Hpos by lia; [done|done|].
    assert (inject_Z n <= inject_Z (2 ^ 53))%Q by (rewrite <- Zle_Qle; lia). lra.
Qed.

(** Some roundings: [0.1 + 0.2] gives [0.30000000000000004]; [1 / 3];
    an odd integer above [2 ^ 53] goes to the even neighbour; a quarter
    of the smallest subnormal number underflows to 0, one and a half
    times it goes to twice it (the tie goes to the even multiple); half
    a unit in the last place below [2 ^ 1024] overflows. *)
Lemma round64_examples :
  round64 ((3602879701896397 # 36028797018963968)
           + (3602879701896397 # 18014398509481984))
    = Some (1351079888211149 # 4503599627370496) /\
  round64 (1 # 3) = Some (6004799503160661 # 18014398509481984) /\
  round64 (inject_Z (2 ^ 53 + 1)) = Some (inject_Z (2 ^ 53)) /\
  round64 (pow2 (-1074) / 4) = Some 0%Q /\
  round64 (3 * pow2 (-1075)) = Some (Qred (pow2 (-1073))) /\
  round64 (pow2 1024 - pow2 970) = None /\
  round64 (inject_Z (- 7)) = Some (inject_Z (- 7)).
Proof. repeat split; vm_compute; reflexivity. Qed.

(** * Further properties of the encoder *)

(** ** The discrete lengths *)

Lemma np_div_Some a ts x :
  np_div (Some a) ts = Some x ->
  exists t, ts = Some t /\ ~ (t == 0)%Q /\ round64 (a / t) = Some x.
Proof.
  unfold np_div. destruct ts as [t|]; [|done].
  destruct (Qeq_bool t 0) eqn:E; [done|]. intros H. exists t.
  split; [done|]. split; [|done]. intros Ht. apply Qeq_bool_iff in Ht. congruence.
Qed.

Lemma ceiling_le_Z x k : (x <= inject_Z k)%Q -> Qceiling x <= k.
Proof. intros H. rewrite <- (Qceiling_Z k). by apply Qceiling_resp_le. Qed.

Lemma ceiling_ge_Z x k : (inject_Z k <= x)%Q -> k <= Qceiling x.
Proof. intros H. rewrite <- (Qceiling_Z k). by apply Qceiling_resp_le. Qed.

Lemma inject_Z_pm n :
  (inject_Z (n - 1) == inject_Z n - 1)%Q /\ (inject_Z (n + 1) == inject_Z n + 1)%Q.
Proof.
  split.
  - unfold Z.sub, Qminus. rewrite inject_Z_plus. reflexivity.
  - rewrite inject_Z_plus. reflexivity.
Qed.

(** X14. With a positive time step, a discrete length of at most 53 bits
    lies within one step of the exact quotient: the division rounds, so
    [discrete_length * time_step_length] may fall short of the length,
    but by less than one time step, and it exceeds the length by less
    than one time step. *)
Theorem discrete_length_tight (task : TransactionScheduleTask) (ts : Q)
    (i : nat) (l : Q) (n : Z) :
  (0 < ts)%Q ->
  lengths task !! i = Some l ->
  discrete_lengths task (Some ts) !! i = Some (Some n) ->
  - 2 ^ 53 < n < 2 ^ 53 ->
  (inject_Z n * ts < l + ts)%Q /\ (l < inject_Z n * ts + ts)%Q.
Proof.
  intros Hts Hl Hn Hb. unfold discrete_lengths in Hn.
  rewrite list_lookup_fmap, Hl in Hn. cbv [fmap option_fmap option_map] in Hn.
  rewrite (np_div_pos _ _ Hts) in Hn. injection Hn as Hn.
  destruct (round64 (l / ts)) as [x|] eqn:Hx; [|done].
  apply ceil_to_int_Some in Hn.
  destruct (inject_Z_pm n) as [Hm1 Hp1].
  assert (l == l / ts * ts)%Q as Hq by (field; lra).
  split.
  - assert (inject_Z n - 1 < l / ts)%Q as Hlt.
    { apply Qnot_le_lt. intros Hle. rewrite <- Hm1 in Hle.
      pose proof (round64_mono _ _ _ _ Hle Hx (round64_Z (n - 1) ltac:(lia))) as H.
      apply ceiling_le_Z in H. lia. }
    assert ((inject_Z n - 1) * ts < l / ts * ts)%Q
      by (apply Qmult_lt_compat_r; lra).
    lra.
  - assert (l / ts < inject_Z n + 1)%Q as Hlt.
    { apply Qnot_le_lt. intros Hle. rewrite <- Hp1 in Hle.
      pose proof (round64_mono _ _ _ _ Hle (round64_Z (n + 1) ltac:(lia)) Hx) as H.
      apply ceiling_ge_Z in H. lia. }
    assert (l / ts * ts < (inject_Z n + 1) * ts)%Q
      by (apply Qmult_lt_compat_r; lra).
    lra.
Qed.

Lemma discrete_length_tight_witness :
  (inject_Z 3 * float_0_3 < float_0_9 + float_0_3)%Q /\
  (float_0_9 < inject_Z 3 * float_0_3 + float_0_3)%Q.
Proof.
  apply (discrete_length_tight short_ceiling_task float_0_3 0%nat float_0_9 3).
  - reflexivity.
  - reflexivity.
  - vm_compute. reflexivity.
  - lia.
Defined.

(** ** The horizon *)

Lemma wrap64_id z : - 2 ^ 63 <= z < 2 ^ 63 -> wrap64 z = z.
Proof. intros H. unfold wrap64. rewrite Z.mod_small; lia. Qed.

Lemma wrap64_range z : - 2 ^ 63 <= wrap64 z < 2 ^ 63.
Proof.
  unfold wrap64. pose proof (Z.mod_pos_bound (z + 2 ^ 63) (2 ^ 64) ltac:(lia)). lia.
Qed.

Lemma foldl_np_max2_Some l : forall x v,
  foldl np_max2 x l = Some v ->
  exists x0, x = Some x0 /\ (x0 <= v)%Q /\
    forall y, y ∈ l -> exists y0, y = Some y0 /\ (y0 <= v)%Q.
Proof.
  induction l as [|y l IH]; intros x v H; simpl in H.
  - subst x. exists v. split; [done|]. split; [lra|]. intros y Hy.
    by apply elem_of_nil in Hy.
  - destruct (IH _ _ H) as (m0 & Hm & Hle & Hall).
    unfold np_max2 in Hm. destruct x as [x0|]; [|done].
    destruct y as [y0|]; [|done]. injection Hm as <-.
    exists x0. split; [done|]. split.
    + pose proof (py_max2_ge_l x0 y0). lra.
    + intros z Hz. apply elem_of_cons in Hz as [->|Hz]; [|by apply Hall].
      exists y0. split; [done|]. pose proof (py_max2_ge_r x0 y0). lra.
Qed.

Lemma foldl_np_max2_all_Some l : forall x0,
  Forall (fun y => is_Some y) l -> is_Some (foldl np_max2 (Some x0) l).
Proof.
  induction l as [|y l IH]; intros x0 H; simpl; [done|].
  inversion H as [|? ? [y0 ->] Hl]; subst. simpl. by apply IH.
Qed.

Lemma array_max_ge a v :
  array_max a = Ok (Some v) ->
  forall y, y ∈ array_values a -> exists y0, y = Some y0 /\ (y0 <= v)%Q.
Proof.
  unfold array_max. destruct (array_values a) as [|x l]; [done|].
  intros [= H] y Hy. destruct (foldl_np_max2_Some _ _ _ H) as (x0 & -> & Hx & Hall).
  apply elem_of_cons in Hy as [->|Hy]; [eauto|by apply Hall].
Qed.

Lemma estimate_ge_max task a r v :
  estimate_execution_time task a = Ok (Some r) ->
  Some v ∈ array_values a -> (v <= r)%Q.
Proof.
  unfold estimate_execution_time. intros H Hv. inv_bind H. rename a0 into mx.
  injection H as H. unfold np_max2 in H.
  destruct (np_div _ _) as [med|]; [|done]. destruct mx as [mx|]; [|done].
  injection H as <-.
  destruct (array_max_ge _ _ Ha _ Hv) as (y0 & [= <-] & Hle).
  pose proof (py_max2_ge_r med mx). lra.
Qed.

Lemma estimate_values_tracked task a r :
  estimate_execution_time task a = Ok (Some r) ->
  forall y, y ∈ array_values a -> exists y0, y = Some y0 /\ (y0 <= r)%Q.
Proof.
  unfold estimate_execution_time. intros H y Hy. inv_bind H. rename a0 into mx.
  injection H as H. unfold np_max2 in H.
  destruct (np_div _ _) as [med|]; [|done]. destruct mx as [mx|]; [|done].
  injection H as <-.
  destruct (array_max_ge _ _ Ha _ Hy) as (y0 & -> & Hle).
  exists y0. split; [done|]. pose proof (py_max2_ge_r med mx). lra.
Qed.

Lemma ceil_to_int_ge r h n :
  ceil_to_int (Some r) = Some h -> (inject_Z n <= r)%Q -> n <= h.
Proof.
  intros Hh Hn. apply ceil_to_int_Some in Hh. subst h.
  rewrite <- (Qceiling_Z n). by apply Qceiling_resp_le.
Qed.

Lemma get_int_lookup (l : list (option Z)) i z :
  l !! i = Some (Some z) -> get_int l (Z.of_nat i) = Ok z.
Proof.
  intros H. unfold get_int, py_index. cbv zeta. unfold npint in *.
  pose proof (lookup_lt_Some _ _ _ H) as Hi.
  destruct (Z.leb_spec 0 (Z.of_nat i)); [|lia].
  destruct (Z.ltb_spec (Z.of_nat i) (Z.of_nat (length l))); [|lia].
  cbn [andb]. rewrite Nat2Z.id. unfold npint in *. rewrite H. reflexivity.
Qed.

(** X15. In every discretization the encoder computes, the horizon is at
    least every discrete length, so a transaction with a non-negative
    discrete length [n] has the latest start [h - n >= 0], and start
    time 0 is among its candidates (as long as [h - n + 1] is still a
    64-bit integer). *)
Theorem horizon_covers_lengths (task : TransactionScheduleTask)
    (time_step_length : option Q) (number_time_steps : option Z)
    (d : discretization) (h : Z) (i : nat) (n : Z) :
  discretize task time_step_length number_time_steps = Ok d ->
  d_execution_length d = Some h ->
  d_lengths d !! i = Some (Some n) ->
  n <= h /\
  (0 <= n ->
   d_max_start_times d !! i = Some (Some (h - n)) /\
   (h - n + 1 < 2 ^ 63 -> exists sts, start_times d (Z.of_nat i) = Ok (0 :: sts))).
Proof.
  intros Hd Hh Hn. unfold discretize in Hd.
  inv_bind Hd. rename a into ts. inv_bind Hd. rename a into r.
  injection Hd as <-.
  cbn [d_lengths d_execution_length d_max_start_times] in *.
  unfold npint in *.
  destruct r as [r|]; [|done].
  assert (n <= h) as Hle.
  { (* the discrete length is the ceiling of a float64 value [x] *)
    pose proof Hn as Hx. unfold discrete_lengths in Hx.
    rewrite list_lookup_fmap in Hx.
    destruct (lengths task !! i) as [l|]; [|discriminate Hx].
    cbv [fmap option_fmap option_map] in Hx. injection Hx as Hx.
    change (ceil_to_int (np_div (Some l) ts) = Some n) in Hx.
    destruct (np_div (Some l) ts) as [x|] eqn:Hdiv; [|discriminate Hx].
    apply ceil_to_int_Some in Hx.
    apply np_div_Some in Hdiv as (t & _ & _ & Hround).
    apply round64_idem in Hround.
    (* converted back to float64, [n] is no smaller than [x] *)
    destruct (estimate_values_tracked _ _ _ Ha0 (int_to_float (Some n)))
      as (y & Hy & Hyr).
    { simpl. apply list_elem_of_fmap. exists (Some n). split; [done|].
      by eapply list_elem_of_lookup_2. }
    cbn [int_to_float] in Hy.
    assert (x <= inject_Z n)%Q as Hxn by (subst n; apply Qle_ceiling).
    pose proof (round64_mono _ _ _ _ Hxn Hround Hy) as Hxy.
    apply ceil_to_int_Some in Hh. subst h n.
    apply Qceiling_resp_le. lra. }
  split; [done|]. intros H0.
  assert (h < 2 ^ 63) as Hh63.
  { unfold ceil_to_int in Hh. destruct (_ && _) eqn:E; [|done].
    injection Hh as <-. apply andb_true_iff in E as [_ E]. by apply Z.ltb_lt in E. }
  match goal with
  | |- ?l !! i = _ /\ _ =>
      assert (l !! i = Some (Some (h - n))) as Hms
  end.
  { rewrite list_lookup_fmap, Hn.
    cbv [fmap option_fmap option_map]. rewrite Hh. simpl.
    unfold i64_sub. rewrite wrap64_id by lia. done. }
  split; [done|]. intros Htop.
  unfold start_times. cbn [d_max_start_times].
  rewrite (get_int_lookup _ _ _ Hms). cbn [mbind outcome_bind].
  unfold i64_add. rewrite wrap64_id by lia. unfold py_range.
  replace (Z.to_nat (h - n + 1 - 0)) with (S (Z.to_nat (h - n))) by lia.
  simpl. eauto.
Qed.

Lemma horizon_covers_lengths_witness :
  exists d,
    discretize scenario_task (Some (1 # 2)%Q) None = Ok d /\
    6 <= 9 /\
    d_max_start_times d !! 0%nat = Some (Some (9 - 6)) /\
    exists sts, start_times d 0 = Ok (0 :: sts).
Proof.
  assert (exists d, discretize scenario_task (Some (1 # 2)%Q) None = Ok d /\
            d_execution_length d = Some 9 /\
            d_lengths d !! 0%nat = Some (Some 6)) as (d & Hd & Hh & Hn).
  { eexists. split; [vm_compute; reflexivity|]. split; reflexivity. }
  exists d. split; [exact Hd|].
  destruct (horizon_covers_lengths _ _ _ d 9 0%nat 6 Hd Hh Hn) as [H1 H2].
  split; [exact H1|]. destruct (H2 ltac:(lia)) as [H3 H4].
  split; [exact H3|]. apply H4. lia.
Defined.

(** ** Discretizations without overflow *)

Lemma ceiling_nonneg l ts : (0 < ts)%Q -> (0 <= l)%Q -> 0 <= Qceiling (l / ts).
Proof.
  intros Hts Hl. rewrite <- (Qceiling_Z 0). apply Qceiling_resp_le.
  change (inject_Z 0) with 0%Q. unfold Qdiv.
  apply Qmult_le_0_compat; [done|]. apply Qinv_le_0_compat. lra.
Qed.

Lemma ceilings_nonneg task ts :
  (0 < ts)%Q -> nonneg_lengths task -> Forall (fun n => 0 <= n) (ceilings task ts).
Proof.
  intros Hts Hnn. unfold ceilings. apply Forall_fmap.
  eapply Forall_impl; [exact Hnn|]. intros l Hl. by apply ceiling_nonneg.
Qed.

Lemma elem_le_sum (ns : list Z) n :
  Forall (fun x => 0 <= x) ns -> n ∈ ns -> n <= foldr Z.add 0 ns.
Proof.
  induction 1 as [|x ns Hx Hns IH]; intros Hin; [by apply elem_of_nil in Hin|].
  assert (0 <= foldr Z.add 0 ns) as Hs.
  { clear -Hns. induction Hns; simpl; lia. }
  simpl. apply elem_of_cons in Hin as [->|Hin]; [lia|]. specialize (IH Hin). lia.
Qed.

Lemma sum_nonneg (ns : list Z) :
  Forall (fun x => 0 <= x) ns -> 0 <= foldr Z.add 0 ns.
Proof. induction 1; simpl; lia. Qed.

Lemma int_sum_exact (ns : list Z) : forall a,
  Forall (fun x => 0 <= x) ns -> 0 <= a -> a + foldr Z.add 0 ns < 2 ^ 63 ->
  foldl (fun acc x => a ← acc; b ← x; Some (i64_add a b)) (Some a) (Some <$> ns)
  = Some (a + foldr Z.add 0 ns).
Proof.
  induction ns as [|x ns IH]; intros a Hns Ha Hlt; simpl.
  - f_equal. lia.
  - inversion Hns as [|? ? Hx Hns']; subst.
    pose proof (sum_nonneg _ Hns') as Hs. simpl in Hlt.
    unfold i64_add at 2. rewrite wrap64_id by lia.
    rewrite IH by (done || lia). f_equal. lia.
Qed.

Lemma int_to_float_small n :
  - 2 ^ 53 <= n <= 2 ^ 53 -> int_to_float (Some n) = Some (inject_Z n).
Proof. intros H. by apply round64_Z. Qed.

Lemma int_max_exact (ns : list Z) : forall x0,
  Forall (fun n => - 2 ^ 53 <= n <= 2 ^ 53) ns ->
  exists n, n ∈ x0 :: ns /\
    foldl np_max2 (Some (inject_Z x0)) (int_to_float <$> (Some <$> ns))
    = Some (inject_Z n).
Proof.
  induction ns as [|x ns IH]; intros x0 Hns.
  - exists x0. split; [by left|done].
  - inversion Hns as [|? ? Hx Hns']; subst.
    rewrite !fmap_cons. cbn [foldl]. rewrite (int_to_float_small x Hx).
    change (np_max2 (Some (inject_Z x0)) (Some (inject_Z x)))
      with (Some (py_max2 (inject_Z x0) (inject_Z x))).
    destruct (py_max2_cases (inject_Z x0) (inject_Z x)) as [-> | ->].
    + destruct (IH x0 Hns') as (n & Hn & ->). exists n. split; [|done].
      apply elem_of_cons in Hn as [->|Hn]; [by left|]. right. by right.
    + destruct (IH x Hns') as (n & Hn & ->). exists n. split; [|done]. by right.
Qed.

Lemma round64_2_63 : round64 (inject_Z (2 ^ 63)) = Some (inject_Z (2 ^ 63)).
Proof. vm_compute. reflexivity. Qed.

(** The machine count as a [float64]: at least 1 when there is a
    machine, and exact up to [2 ^ 53]. *)
Lemma machines_to_float m :
  1 <= m < 2 ^ 63 ->
  exists fm, int_to_float (py_int_operand m) = Some fm /\ (1 <= fm)%Q /\
    (m <= 2 ^ 53 -> fm = inject_Z m).
Proof.
  intros Hm. unfold py_int_operand.
  destruct (Z.leb_spec (- 2 ^ 63) m); [|lia].
  destruct (Z.ltb_spec m (2 ^ 63)); [|lia]. cbn [andb int_to_float].
  destruct (round64_between 1 (inject_Z (2 ^ 63)) (inject_Z m) 1 (inject_Z (2 ^ 63)))
    as (fm & Hfm & Hlo & _).
  - reflexivity.
  - exact round64_2_63.
  - change 1%Q with (inject_Z 1). rewrite <- Zle_Qle. lia.
  - rewrite <- Zle_Qle. lia.
  - exists fm. split; [done|]. split; [done|]. intros Hs.
    rewrite round64_Z in Hfm by lia. by injection Hfm.
Qed.

Lemma round64_dyadic m s :
  0 < m <= 2 ^ 53 -> -1074 <= s ->
  (inject_Z m * pow2 s < pow2 1024)%Q ->
  exists r, round64 (inject_Z m * pow2 s) = Some r /\
            (r == inject_Z m * pow2 s)%Q.
Proof.
  intros Hm Hs Hlt. pose proof (round_positive_dyadic m s Hm Hs) as Hd.
  assert (0 < inject_Z m * pow2 s)%Q as Hx.
  { apply Qmult_lt_0_compat; [|apply pow2_pos].
    change 0%Q with (inject_Z 0). rewrite <- Zlt_Qlt. lia. }
  eexists. split; [apply round64_pos_intro; [done|lra]|done].
Qed.

(** The rounded quotient of the total work by the machine count still
    gives a horizon with room for the total work, as long as the total
    has at most 52 bits. *)
Lemma rounded_quotient_capacity T m med :
  1 <= T <= 2 ^ 52 -> 1 <= m <= 2 ^ 53 ->
  round64 (inject_Z T / inject_Z m) = Some med ->
  T <= Qceiling med * m.
Proof.
  intros HT Hm Hmed.
  set (j := Z.log2_up m).
  assert (0 <= j) as Hj0 by apply Z.log2_up_nonneg.
  assert (m <= 2 ^ j /\ 2 ^ j <= 2 * m) as [Hj1 Hj2].
  { destruct (decide (m = 1)) as [->|Hne]; [by vm_compute|].
    pose proof (Z.log2_up_spec m ltac:(lia)) as [Hlo Hhi]. fold j in Hlo, Hhi.
    split; [done|].
    assert (j <> 0) as Hjne.
    { intros Hz. rewrite Hz in Hhi. change (2 ^ 0) with 1 in Hhi. lia. }
    replace j with (Z.succ (Z.pred j)) at 1 by lia.
    rewrite Z.pow_succ_r by lia. lia. }
  set (M := T * 2 ^ j / m).
  assert (M * m <= T * 2 ^ j < M * m + m) as [HM1 HM2].
  { unfold M. pose proof (Z.mul_div_le (T * 2 ^ j) m ltac:(lia)).
    pose proof (Z.mul_succ_div_gt (T * 2 ^ j) m ltac:(lia)). lia. }
  assert (0 < 2 ^ j) as Hpj0 by lia.
  assert (m <= T * 2 ^ j) as HmT.
  { pose proof (Z.mul_le_mono_nonneg_r 1 T (2 ^ j) ltac:(lia) ltac:(lia)). lia. }
  assert (1 <= M) as HMpos.
  { destruct (Z.le_gt_cases 1 M) as [|Hlt]; [done|].
    pose proof (Z.mul_le_mono_nonneg_r M 0 m ltac:(lia) ltac:(lia)). lia. }
  assert (M <= 2 * T) as HM2T.
  { apply (Z.mul_le_mono_pos_r _ _ m); [lia|].
    pose proof (Z.mul_le_mono_nonneg_l (2 ^ j) (2 * m) T ltac:(lia) Hj2). lia. }
  assert (M <= 2 ^ 53) as HMtop.
  { change (2 ^ 53) with (2 * 2 ^ 52). lia. }
  assert (j <= 54) as Hj54.
  { destruct (Z.le_gt_cases j 54) as [|Hgt]; [done|].
    pose proof (Z.pow_le_mono_r 2 55 j ltac:(lia) ltac:(lia)). lia. }
  pose proof (pow2_pos (- j)) as Hpj. pose proof (pow2_pos j) as Hpj'.
  assert (pow2 (- j) * pow2 j == 1)%Q as Hinv.
  { rewrite <- pow2_add. by replace (- j + j) with 0 by lia. }
  assert (pow2 j == inject_Z (2 ^ j))%Q as HpZ by (by apply pow2_Z).
  assert (0 < inject_Z m)%Q as Hmq.
  { change 0%Q with (inject_Z 0). rewrite <- Zlt_Qlt. lia. }
  set (y := (inject_Z M * pow2 (- j))%Q).
  assert (y * pow2 j == inject_Z M)%Q as Hy.
  { unfold y. rewrite <- Qmult_assoc, Hinv. ring. }
  assert (0 < inject_Z M)%Q as HMq.
  { change 0%Q with (inject_Z 0). rewrite <- Zlt_Qlt. lia. }
  assert (y <= inject_Z T / inject_Z m)%Q as Hyq.
  { apply Qle_shift_div_l; [done|].
    assert (inject_Z M * inject_Z m <= inject_Z T * pow2 j)%Q as Hle.
    { rewrite HpZ, <- !inject_Z_mult, <- Zle_Qle. done. }
    rewrite <- Hy in Hle.
    apply (Qmult_le_r _ _ (pow2 j)); [done|].
    assert (y * inject_Z m * pow2 j == y * pow2 j * inject_Z m)%Q as -> by ring.
    exact Hle. }
  destruct (round64_dyadic M (- j)) as (ry & Hry & Hryy); [lia|lia| |].
  { assert (pow2 (- j) <= 1)%Q as Hp1.
    { change 1%Q with (pow2 0). apply pow2_le. lia. }
    assert (inject_Z M * pow2 (- j) <= inject_Z M * 1)%Q
      by (apply Qmult_le_l; done).
    assert (inject_Z M < pow2 1024)%Q.
    { rewrite (pow2_Z 1024) by lia. rewrite <- Zlt_Qlt.
      pose proof (Z.pow_lt_mono_r 2 53 1024 ltac:(lia) ltac:(lia) ltac:(lia)). lia. }
    lra. }
  pose proof (round64_mono _ _ _ _ Hyq Hry Hmed) as Hmono.
  set (c := Qceiling med).
  assert (y <= inject_Z c)%Q as Hyc.
  { pose proof (Qle_ceiling med). fold c in H. fold y in Hryy. lra. }
  assert (M <= c * 2 ^ j) as HMc.
  { rewrite Zle_Qle, inject_Z_mult, <- HpZ, <- Hy.
    apply Qmult_le_compat_r; lra. }
  nia.
Qed.

Lemma positive_sum_elem (ns : list Z) :
  Forall (fun n => 0 <= n) ns -> 1 <= foldr Z.add 0 ns ->
  exists n, n ∈ ns /\ 1 <= n.
Proof.
  induction 1 as [|x ns Hx _ IH]; simpl; intros Hs; [lia|].
  destruct (Z.le_gt_cases 1 x) as [|Hlt].
  - exists x. split; [by left|done].
  - destruct IH as (n & Hn & Hn1); [lia|]. exists n. split; [by right|done].
Qed.

(** One discrete length: with a non-negative length and an exact
    quotient of at most 53 bits the division cannot overflow, and
    rounding keeps the result between 0 and the exact ceiling. *)
Lemma float_ceiling ts l :
  (0 < ts)%Q -> (0 <= l)%Q -> Qceiling (l / ts) <= 2 ^ 53 ->
  exists n, ceil_to_int (np_div (Some l) (Some ts)) = Some n /\
    discrete_for ts l n.
Proof.
  intros Hts Hl Hc. rewrite (np_div_pos _ _ Hts).
  assert (0 <= l / ts)%Q as Hq0.
  { unfold Qdiv. apply Qmult_le_0_compat; [done|]. apply Qinv_le_0_compat. lra. }
  pose proof (Qle_ceiling (l / ts)) as Hqc.
  assert (0 <= Qceiling (l / ts)) as Hc0 by (by apply ceiling_ge_Z).
  destruct (round64_between 0 (inject_Z (Qceiling (l / ts))) (l / ts)
              0 (inject_Z (Qceiling (l / ts)))) as (x & Hx & Hx0 & Hxc);
    [reflexivity|apply round64_Z; lia|done|done|].
  rewrite Hx. exists (Qceiling x).
  assert (0 <= Qceiling x) as Hn0 by (by apply ceiling_ge_Z).
  assert (Qceiling x <= Qceiling (l / ts)) as Hnc by (by apply ceiling_le_Z).
  split; [apply ceil_to_int_in_range; lia|].
  split; [lia|]. split.
  - intros Hz. assert (l / ts == 0)%Q as Hqz by (rewrite Hz; field; lra).
    rewrite (round64_zero _ Hqz) in Hx. by injection Hx as <-.
  - intros Hge. apply ceiling_ge_Z.
    assert (1 <= l / ts)%Q as Hq1.
    { assert (ts / ts <= l / ts)%Q by (by apply Qmult_le_compat_r;
        [|apply Qlt_le_weak, Qinv_lt_0_compat]).
      assert (ts / ts == 1)%Q by (field; lra). lra. }
    assert (round64 1 = Some 1%Q) as H1 by reflexivity.
    exact (round64_mono _ _ _ _ Hq1 H1 Hx).
Qed.

Lemma discrete_lengths_regular ts (ls : list Q) :
  (0 < ts)%Q ->
  Forall (fun l => (0 <= l)%Q /\ Qceiling (l / ts) <= 2 ^ 53) ls ->
  exists ns,
    (fun l => ceil_to_int (np_div (Some l) (Some ts))) <$> ls = Some <$> ns /\
    Forall2 (discrete_for ts) ls ns.
Proof.
  intros Hts. induction 1 as [|l ls [Hl Hc] _ (ns & Hns & Hrel)].
  - exists []. split; [done|constructor].
  - destruct (float_ceiling ts l Hts Hl Hc) as (n & Hn & Hr).
    exists (n :: ns). rewrite !fmap_cons, Hn, Hns. split; [done|].
    by constructor.
Qed.

Lemma discrete_for_sum ts ls ns :
  Forall2 (discrete_for ts) ls ns ->
  Forall (fun n => 0 <= n) ns /\
  foldr Z.add 0 ns <= foldr Z.add 0 ((fun l => Qceiling (l / ts)) <$> ls).
Proof.
  induction 1 as [|l n ls ns [Hn _] _ [IH1 IH2]]; [split; [constructor|done]|].
  split; [constructor; [lia|done]|]. rewrite fmap_cons. simpl. lia.
Qed.

Lemma discrete_for_zero ts ls ns :
  Forall2 (discrete_for ts) ls ns ->
  Exists (fun l => (l == 0)%Q) ls -> 0 ∈ ns.
Proof.
  induction 1 as [|l n ls ns (_ & Hz & _) _ IH]; intros Hex.
  - by apply Exists_nil in Hex.
  - apply Exists_cons in Hex as [Hl|Hex].
    + rewrite (Hz Hl). by left.
    + right. by apply IH.
Qed.

Lemma discrete_for_positive ts ls ns :
  Forall2 (discrete_for ts) ls ns ->
  Forall (fun l => (ts <= l)%Q) ls -> Forall (fun n => 1 <= n) ns.
Proof.
  induction 1 as [|l n ls ns (_ & _ & Hp) _ IH]; intros Hall; [constructor|].
  inversion Hall; subst. constructor; auto.
Qed.

(** The discretization of a task with non-negative lengths whose exact
    discrete lengths sum to at most [2 ^ 53]: nothing overflows and
    nothing is lost in a conversion. *)
Lemma discretize_regular task tsl nts ts :
  1 <= num_machines task < 2 ^ 63 ->
  time_step task tsl nts = Ok (Some ts) -> (0 < ts)%Q ->
  lengths task <> [] -> nonneg_lengths task ->
  discrete_total task ts <= 2 ^ 53 ->
  exists d h ns,
    discretize task tsl nts = Ok d /\
    regular_discretization d ns h /\
    Forall2 (discrete_for ts) (lengths task) ns /\
    h <= foldr Z.add 0 ns <= discrete_total task ts /\
    (discrete_total task ts <= 2 ^ 52 ->
     foldr Z.add 0 ns <= h * num_machines task).
Proof.
  intros Hm Hts Hpos Hne Hnn Htot.
  pose proof (ceilings_nonneg task ts Hpos Hnn) as Hcs.
  assert (Forall (fun l => (0 <= l)%Q /\ Qceiling (l / ts) <= 2 ^ 53)
            (lengths task)) as Hls.
  { apply Forall_forall. intros l Hl.
    split; [by apply (proj1 (Forall_forall _ _) Hnn)|].
    assert (Qceiling (l / ts) ∈ ceilings task ts) as Hin
      by (apply list_elem_of_fmap; eauto).
    pose proof (elem_le_sum _ _ Hcs Hin). unfold discrete_total in Htot. lia. }
  destruct (discrete_lengths_regular ts (lengths task) Hpos Hls)
    as (ns & Hdl & Hrel).
  destruct (discrete_for_sum _ _ _ Hrel) as [Hns Hsum].
  change (foldr Z.add 0 ((fun l => Qceiling (l / ts)) <$> lengths task))
    with (discrete_total task ts) in Hsum.
  assert (Forall (fun n => n <= foldr Z.add 0 ns) ns) as Hle.
  { apply Forall_forall. intros n Hn. by apply elem_le_sum. }
  assert (Forall (fun n => - 2 ^ 53 <= n <= 2 ^ 53) ns) as Hsmall.
  { rewrite Forall_forall in Hns, Hle. apply Forall_forall. intros n Hn.
    specialize (Hns n Hn). specialize (Hle n Hn). lia. }
  unfold discretize. rewrite Hts. cbn [mbind outcome_bind].
  unfold discrete_lengths. rewrite Hdl.
  unfold estimate_execution_time, array_max, array_sum. cbn [array_values].
  destruct ns as [|n0 ns].
  { apply Forall2_length in Hrel. destruct (lengths task); [done|]. done. }
  rewrite !fmap_cons.
  inversion Hsmall as [|? ? Hn0 Hsmall']; subst.
  rewrite (int_to_float_small n0 Hn0).
  destruct (int_max_exact ns n0 Hsmall') as (nmax & Hin & Hmax).
  unfold npfloat, npint in *. rewrite Hmax. cbn [mbind outcome_bind].
  rewrite <- fmap_cons.
  set (T := foldr Z.add 0 (n0 :: ns)) in *.
  assert (0 <= T) as HT0 by (apply sum_nonneg; done).
  rewrite (int_sum_exact (n0 :: ns) 0); [|done|done|fold T; lia].
  rewrite Z.add_0_l. fold T. rewrite (int_to_float_small T) by lia.
  destruct (machines_to_float _ Hm) as (fm & -> & Hfm & Hexact).
  unfold np_div. destruct (Qeq_bool fm 0) eqn:Em.
  { apply Qeq_bool_iff in Em. lra. }
  assert (0 <= inject_Z T)%Q as HTq.
  { change 0%Q with (inject_Z 0). by rewrite <- Zle_Qle. }
  assert (0 <= inject_Z T / fm)%Q as Hq0.
  { unfold Qdiv. apply Qmult_le_0_compat; [done|]. apply Qinv_le_0_compat. lra. }
  assert (inject_Z T / fm <= inject_Z T)%Q as HqT.
  { assert (inject_Z T == inject_Z T / fm * fm)%Q as Heq by (field; lra).
    assert (inject_Z T / fm * 1 <= inject_Z T / fm * fm)%Q
      by (rewrite !(Qmult_comm (inject_Z T / fm)); apply Qmult_le_compat_r; lra).
    lra. }
  destruct (round64_between 0 (inject_Z T) (inject_Z T / fm) 0 (inject_Z T))
    as (med & Hmed & Hmed0 & HmedT);
    [reflexivity|apply round64_Z; lia|done|done|].
  rewrite Hmed. cbn [np_max2].
  set (r := py_max2 med (inject_Z nmax)).
  assert (nmax <= T) as HnT.
  { rewrite Forall_forall in Hle. by apply Hle. }
  assert (r <= inject_Z T)%Q as HrT.
  { unfold r. destruct (py_max2_cases med (inject_Z nmax)) as [-> | ->]; [done|].
    by rewrite <- Zle_Qle. }
  assert (inject_Z nmax <= r)%Q as Hnr by apply py_max2_ge_r.
  assert (forall n, n ∈ n0 :: ns -> (inject_Z n <= r)%Q) as Hall.
  { intros n Hn.
    destruct (foldl_np_max2_Some _ _ _ Hmax) as (x0 & [= <-] & Hx & Hrest).
    apply elem_of_cons in Hn as [->|Hn]; [lra|].
    destruct (Hrest (int_to_float (Some n))) as (y0 & Hy & Hyle).
    { apply list_elem_of_fmap. exists (Some n). split; [done|].
      apply list_elem_of_fmap. eauto. }
    rewrite Forall_forall in Hsmall'.
    rewrite (int_to_float_small n (Hsmall' n Hn)) in Hy.
    injection Hy as <-. lra. }
  assert (Qceiling r <= T) as HcT by (by apply ceiling_le_Z).
  assert (forall n, n ∈ n0 :: ns -> n <= Qceiling r) as Hcall.
  { intros n Hn. apply ceiling_ge_Z. by apply Hall. }
  assert (0 <= Qceiling r) as Hc0.
  { rewrite Forall_forall in Hns. specialize (Hns n0 ltac:(by left)).
    specialize (Hcall n0 ltac:(by left)). lia. }
  rewrite (ceil_to_int_in_range r) by lia.
  eexists _, (Qceiling r), (n0 :: ns). split; [reflexivity|]. split.
  - split; [done|]. split; [done|]. split; [|split].
    + cbn [d_max_start_times]. rewrite <- list_fmap_compose.
      apply list_fmap_ext. intros i n Hn. simpl.
      apply list_elem_of_lookup_2 in Hn.
      rewrite Forall_forall in Hns. specialize (Hns n Hn).
      specialize (Hcall n Hn). unfold i64_sub. rewrite wrap64_id by lia. done.
    + apply Forall_forall. intros n Hn.
      rewrite Forall_forall in Hns. specialize (Hns n Hn).
      specialize (Hcall n Hn). lia.
    + lia.
  - split; [done|]. split; [lia|]. intros Hsmall52. fold T.
    destruct (Z.le_gt_cases T 0) as [Hz|HT1]; [nia|].
    destruct (Z.le_gt_cases (num_machines task) (2 ^ 53)) as [Hms|Hml].
    + rewrite (Hexact Hms) in Hmed.
      assert (1 <= T <= 2 ^ 52) as HT52 by lia.
      assert (1 <= num_machines task <= 2 ^ 53) as Hm53 by lia.
      pose proof (rounded_quotient_capacity T _ med HT52 Hm53 Hmed) as Hcap.
      assert (Qceiling med <= Qceiling r) as Hmr
        by (apply Qceiling_resp_le, py_max2_ge_l).
      nia.
    + destruct (positive_sum_elem (n0 :: ns) Hns ltac:(fold T; lia))
        as (n & Hn & Hn1).
      specialize (Hcall n Hn). nia.
Qed.

(** X16. For a task with at least one transaction, non-negative
    lengths, a machine count from 1 up to the [np.int64] range and exact
    discrete lengths that sum to at most [2 ^ 52], the discretization
    succeeds; the discrete lengths it computes are bounded by the exact
    ceilings, and the horizon [h] is at most their sum and, multiplied
    by the number of machines, at least their sum: the time grid has
    room for all transactions, although the quotient is rounded. *)
Theorem horizon_has_capacity (task : TransactionScheduleTask)
    (time_step_length : option Q) (number_time_steps : option Z) (ts : Q) :
  1 <= num_machines task < 2 ^ 63 ->
  time_step task time_step_length number_time_steps = Ok (Some ts) ->
  (0 < ts)%Q ->
  lengths task <> [] -> nonneg_lengths task ->
  discrete_total task ts <= 2 ^ 52 ->
  exists d h ns,
    discretize task time_step_length number_time_steps = Ok d /\
    d_lengths d = Some <$> ns /\
    Forall2 (discrete_for ts) (lengths task) ns /\
    d_execution_length d = Some h /\
    h <= foldr Z.add 0 ns <= h * num_machines task.
Proof.
  intros Hm Hts Hpos Hne Hnn Htot.
  assert (discrete_total task ts <= 2 ^ 53) as Htot'.
  { change (2 ^ 53) with (2 * 2 ^ 52). lia. }
  destruct (discretize_regular task _ _ ts Hm Hts Hpos Hne Hnn Htot')
    as (d & h & ns & Hd & (Hl & Hh & _) & Hrel & [Hle _] & Hcap).
  exists d, h, ns. split; [done|]. split; [done|]. split; [done|].
  split; [done|]. split; [done|]. by apply Hcap.
Qed.

Lemma horizon_has_capacity_witness :
  exists d h ns,
    discretize scenario_task (Some (1 # 2)%Q) None = Ok d /\
    d_lengths d = Some <$> ns /\
    Forall2 (discrete_for (1 # 2)) (lengths scenario_task) ns /\
    d_execution_length d = Some h /\
    h <= foldr Z.add 0 ns <= h * num_machines scenario_task.
Proof.
  apply (horizon_has_capacity scenario_task (Some (1 # 2)%Q) None (1 # 2)%Q).
  - simpl. lia.
  - reflexivity.
  - reflexivity.
  - discriminate.
  - repeat constructor; discriminate.
  - vm_compute. discriminate.
Defined.

(** ** Building the Hamiltonian *)

Lemma elem_of_py_range a b x : x ∈ py_range a b <-> a <= x < b.
Proof.
  unfold py_range. rewrite list_elem_of_fmap. split.
  - intros (k & -> & Hk). apply elem_of_seq in Hk. lia.
  - intros Hx. exists (Z.to_nat (x - a)). split; [lia|]. apply elem_of_seq. lia.
Qed.

Lemma py_range_cons a b : a < b -> py_range a b = a :: py_range (a + 1) b.
Proof.
  intros H. unfold py_range.
  replace (Z.to_nat (b - a)) with (S (Z.to_nat (b - (a + 1)))) by lia.
  cbn [seq fmap list_fmap]. f_equal; [lia|].
  rewrite <- fmap_S_seq, <- list_fmap_compose.
  apply list_fmap_ext. intros i k Hk. simpl. lia.
Qed.

Lemma foldM_ok {A S} (f : S -> A -> outcome S) (P : S -> Prop) l :
  (forall s a, a ∈ l -> P s -> exists s', f s a = Ok s' /\ P s') ->
  forall s, P s -> exists s', foldM f s l = Ok s' /\ P s'.
Proof.
  induction l as [|a l IH]; intros Hf s Hs; simpl; [eauto|].
  destruct (Hf s a) as (s1 & -> & Hs1); [by left|done|]. simpl.
  apply IH; [|done]. intros s' a' Ha'. apply Hf. by right.
Qed.

Lemma foldM_raise {A S} (f : S -> A -> outcome S) e l :
  (forall s a, a ∈ l -> (exists s', f s a = Ok s') \/ f s a = Raise e) ->
  (exists a, a ∈ l /\ forall s, f s a = Raise e) ->
  forall s, foldM f s l = Raise e.
Proof.
  induction l as [|a l IH]; intros Hf (a0 & Ha0 & Hr) s.
  { by apply elem_of_nil in Ha0. }
  simpl. destruct (Hf s a) as [[s1 Hs1]|Hs1]; [by left| |by rewrite Hs1].
  rewrite Hs1. simpl. apply IH.
  - intros s' a' Ha'. apply Hf. by right.
  - apply elem_of_cons in Ha0 as [->|Ha0]; [|eauto].
    rewrite Hr in Hs1. done.
Qed.

Lemma py_add_expr_l a b : is_py_expr a -> is_py_expr (py_add a b).
Proof. by destruct a, b. Qed.

Lemma py_add_expr_r a b : is_py_expr b -> is_py_expr (py_add a b).
Proof. by destruct a, b. Qed.

Lemma foldl_py_add_expr {A} (g : A -> expr) l : forall a,
  is_py_expr a \/ l <> [] ->
  is_py_expr (foldl (fun a x => py_add a (PyExpr (g x))) a l).
Proof.
  induction l as [|x l IH]; intros a [Ha|Hl]; simpl; try done.
  - apply IH. left. by apply py_add_expr_l.
  - apply IH. left. by apply py_add_expr_r.
Qed.

Lemma foldl_py_add_keeps {A} (g : A -> expr) l a :
  is_py_expr a -> is_py_expr (foldl (fun a x => py_add a (PyExpr (g x))) a l).
Proof. intros Ha. apply foldl_py_add_expr. by left. Qed.

Lemma elem_of_removelast {A} (x : A) l : x ∈ removelast l -> x ∈ l.
Proof.
  induction l as [|y l IH]; [done|].
  destruct l as [|z l]; [simpl; by intros ?%elem_of_nil|].
  change (removelast (y :: z :: l)) with (y :: removelast (z :: l)).
  intros [->|Hx]%elem_of_cons; [by left|]. right. by apply IH.
Qed.

Lemma foldM_all_ok {A S} (f : S -> A -> outcome S) l :
  (forall s a, a ∈ l -> exists s', f s a = Ok s') ->
  forall s, exists s', foldM f s l = Ok s'.
Proof.
  intros Hf s.
  destruct (foldM_ok f (fun _ => True) l) with (s := s) as (s' & Hs' & _);
    [|done|eauto].
  intros s0 a Ha _. destruct (Hf s0 a Ha) as [s1 Hs1]. eauto.
Qed.

Lemma elem_of_unique_conflicts_list M a b :
  (a, b) ∈ unique_conflicts_list M ->
  exists i j, flagged M i j /\
    ((a = Z.of_nat i + 1 /\ b = Z.of_nat j + 1) \/
     (a = Z.of_nat j + 1 /\ b = Z.of_nat i + 1)).
Proof.
  unfold unique_conflicts_list. rewrite list_elem_of_fmap.
  intros ([x y] & Heq & Hin). simpl in Heq. injection Heq as -> ->.
  apply elem_of_np_unique, list_elem_of_fmap in Hin as ([i j] & Hs & Hin).
  apply elem_of_conflicts_list in Hin as (Hi & Hj & Hf).
  exists (Z.to_nat i), (Z.to_nat j). split; [done|].
  unfold sort_pair in Hs. simpl in Hs.
  destruct (j <? i); injection Hs as -> ->; lia.
Qed.

Lemma i64_pow_nonneg a b : 0 <= b -> i64_pow a b = Ok (wrap64 (a ^ b)).
Proof. intros H. unfold i64_pow. by destruct (Z.ltb_spec b 0); [lia|]. Qed.

Lemma i64_pow_negative a b : b < 0 -> i64_pow a b = Raise ValueError.
Proof. intros H. unfold i64_pow. by destruct (Z.ltb_spec b 0); [|lia]. Qed.

Section regular.
Variable task : TransactionScheduleTask.
Variable d : discretization.
Variable ns : list Z.
Variable h : Z.
Hypothesis Hreg : regular_discretization d ns h.
Hypothesis Hlen : length ns = length (lengths task).

Lemma regular_entry t :
  1 <= t <= num_transactions task ->
  exists n, ns !! Z.to_nat (t - 1) = Some n /\ 0 <= n <= h /\
    get_int (d_lengths d) (t - 1) = Ok n /\
    get_int (d_max_start_times d) (t - 1) = Ok (h - n).
Proof.
  intros Ht. unfold num_transactions in Ht.
  destruct Hreg as (Hl & _ & Hms & Hall & _).
  destruct (lookup_lt_is_Some_2 ns (Z.to_nat (t - 1))) as [n Hn]; [lia|].
  exists n. split; [done|]. split.
  - rewrite Forall_lookup in Hall. by eapply Hall.
  - rewrite Hl, Hms. replace (t - 1) with (Z.of_nat (Z.to_nat (t - 1))) by lia.
    split; apply get_int_lookup; rewrite list_lookup_fmap, Hn; done.
Qed.

Lemma regular_start_times t :
  1 <= t <= num_transactions task ->
  exists n, ns !! Z.to_nat (t - 1) = Some n /\ 0 <= n <= h /\
    start_times d (t - 1) = Ok (py_range 0 (h - n + 1)).
Proof.
  intros Ht. destruct (regular_entry t Ht) as (n & Hn & Hb & _ & Hms).
  exists n. split; [done|]. split; [done|].
  unfold start_times. rewrite Hms. cbn [mbind outcome_bind].
  destruct Hreg as (_ & _ & _ & _ & Hh).
  unfold i64_add. rewrite wrap64_id by lia. done.
Qed.

Lemma regular_invalid_start_times t u s :
  1 <= t <= num_transactions task -> 1 <= u <= num_transactions task ->
  exists l, invalid_start_times d t u s = Ok l.
Proof.
  intros Ht Hu. unfold invalid_start_times.
  destruct (regular_entry u Hu) as (nu & _ & _ & -> & ->).
  destruct (regular_entry t Ht) as (nt & _ & _ & -> & _).
  cbn [mbind outcome_bind]. eauto.
Qed.

Lemma regular_add_products t m u m' s acc :
  1 <= t <= num_transactions task -> 1 <= u <= num_transactions task ->
  exists v, add_products d t m u m' s acc = Ok v.
Proof.
  intros Ht Hu. unfold add_products.
  destruct (regular_invalid_start_times t u s Ht Hu) as [l ->].
  cbn [mbind outcome_bind]. eauto.
Qed.

Lemma transaction_idx_range t :
  t ∈ transaction_idxs task <-> 1 <= t <= num_transactions task.
Proof. unfold transaction_idxs. rewrite elem_of_py_range. lia. Qed.

Lemma term_B_ok : exists v, term_B task d = Ok v.
Proof.
  unfold term_B.
  destruct (foldM_ok (S:=pyval) (fun B m_idx =>
    foldM (fun B t_idx =>
      sts ← start_times d (t_idx - 1);
      foldM (fun B start_time =>
        foldM (fun B remaining_t_idx =>
                 add_products d t_idx m_idx remaining_t_idx m_idx start_time B)
              B (drop (Z.to_nat t_idx) (transaction_idxs task)))
        B sts)
      B (removelast (transaction_idxs task))) (fun _ => True)
    (machine_idxs task)) with (s := PyInt 0) as (v & Hv & _); [|done|eauto].
  intros B m_idx _ _.
  destruct (foldM_ok (S:=pyval) (fun B t_idx =>
      sts ← start_times d (t_idx - 1);
      foldM (fun B start_time =>
        foldM (fun B remaining_t_idx =>
                 add_products d t_idx m_idx remaining_t_idx m_idx start_time B)
              B (drop (Z.to_nat t_idx) (transaction_idxs task)))
        B sts) (fun _ => True) (removelast (transaction_idxs task)))
    with (s := B) as (v & Hv & _); [|done|eauto].
  intros B1 t Ht _.
  assert (1 <= t <= num_transactions task) as Htr.
  { apply transaction_idx_range. by apply elem_of_removelast. }
  destruct (regular_start_times t Htr) as (n & _ & _ & ->).
  cbn [mbind outcome_bind].
  destruct (foldM_ok (S:=pyval) (fun B start_time =>
        foldM (fun B remaining_t_idx =>
                 add_products d t m_idx remaining_t_idx m_idx start_time B)
              B (drop (Z.to_nat t) (transaction_idxs task)))
      (fun _ => True) (py_range 0 (h - n + 1)))
    with (s := B1) as (v & Hv & _); [|done|eauto].
  intros B2 s _ _.
  destruct (foldM_ok (S:=pyval) (fun B remaining_t_idx =>
                 add_products d t m_idx remaining_t_idx m_idx s B)
      (fun _ => True) (drop (Z.to_nat t) (transaction_idxs task)))
    with (s := B2) as (v & Hv & _); [|done|eauto].
  intros B3 u Hu _.
  assert (1 <= u <= num_transactions task) as Hur.
  { apply transaction_idx_range. apply list_elem_of_lookup in Hu as [i Hi].
    rewrite lookup_drop in Hi. by eapply list_elem_of_lookup_2. }
  destruct (regular_add_products t m_idx u m_idx s B3 Htr Hur) as [v ->]. eauto.
Qed.

Lemma term_A_ok :
  exists v, term_A task d = Ok v /\
    (lengths task <> [] -> 1 <= num_machines task -> is_py_expr v).
Proof.
  assert (forall t a m, 1 <= t <= num_transactions task ->
    exists a', (sts ← start_times d (t - 1);
                Ok (foldl (fun a start_time =>
                             py_add a (PyExpr (b_var t m start_time))) a sts))
               = Ok a' /\ is_py_expr a') as Hcell.
  { intros t a m Ht. destruct (regular_start_times t Ht) as (n & _ & Hn & ->).
    cbn [mbind outcome_bind]. eexists. split; [done|].
    apply foldl_py_add_expr. right.
    rewrite py_range_cons by lia. done. }
  assert (forall t, 1 <= t <= num_transactions task ->
    exists a, foldM (fun a m_idx =>
         sts ← start_times d (t - 1);
         Ok (foldl (fun a start_time =>
                      py_add a (PyExpr (b_var t m_idx start_time)))
                   a sts))
       (PyInt (-1)) (machine_idxs task) = Ok a /\
      (1 <= num_machines task -> is_py_expr a)) as Hrow.
  { intros t Ht.
    destruct (Z.le_gt_cases 1 (num_machines task)) as [Hm|Hm].
    - unfold machine_idxs. rewrite py_range_cons by lia. cbn [foldM].
      destruct (Hcell t (PyInt (-1)) 1 Ht) as (a1 & -> & Ha1).
      cbn [mbind outcome_bind].
      destruct (foldM_ok (fun a m_idx =>
         sts ← start_times d (t - 1);
         Ok (foldl (fun a start_time =>
                      py_add a (PyExpr (b_var t m_idx start_time)))
                   a sts)) is_py_expr (py_range (1 + 1) (num_machines task + 1)))
        with (s := a1) as (a & Ha & Hexpr); [|done|by eauto].
      intros a0 m _ _. apply Hcell. done.
    - rewrite machine_idxs_empty by lia. simpl. eexists. split; [done|]. lia. }
  unfold term_A.
  destruct (decide (lengths task = [])) as [Hnil|Hne].
  { unfold transaction_idxs, num_transactions. rewrite Hnil. simpl.
    eexists. split; [done|]. done. }
  assert (1 <= num_transactions task) as Hn.
  { unfold num_transactions. destruct (lengths task); [done|]. simpl. lia. }
  unfold transaction_idxs at 1. rewrite py_range_cons by lia. cbn [foldM].
  destruct (Hrow 1 ltac:(lia)) as (a1 & -> & Ha1). cbn [mbind outcome_bind].
  destruct (foldM_ok (fun A t_idx =>
    a ← foldM (fun a m_idx =>
         sts ← start_times d (t_idx - 1);
         Ok (foldl (fun a start_time =>
                      py_add a (PyExpr (b_var t_idx m_idx start_time)))
                   a sts))
       (PyInt (-1)) (machine_idxs task);
    Ok (py_add A (py_pow a 2)))
    (fun A => 1 <= num_machines task -> is_py_expr A)
    (py_range (1 + 1) (num_transactions task + 1)))
    with (s := py_add (PyInt 0) (py_pow a1 2)) as (A & HA & Hexpr).
  - intros A t Ht HA. apply elem_of_py_range in Ht.
    destruct (Hrow t ltac:(lia)) as (a & -> & Ha). cbn [mbind outcome_bind].
    eexists. split; [done|]. intros Hm. apply py_add_expr_l. by apply HA.
  - intros Hm. apply py_add_expr_r. specialize (Ha1 Hm). by destruct a1.
  - exists A. split; [done|]. auto.
Qed.

Hypothesis Hsq : square_conflicts task.

Lemma term_C_ok : exists v, term_C task d = Ok v.
Proof.
  unfold term_C. apply foldM_all_ok. intros C [a b] Hab.
  assert (1 <= a <= num_transactions task /\
          1 <= b <= num_transactions task) as [Ha Hb].
  { apply elem_of_unique_conflicts_list in Hab as (i & j & (row & Hi & Hj) & Hij).
    destruct Hsq as [Hrows Hcols]. unfold num_transactions.
    pose proof (lookup_lt_Some _ _ _ Hi) as Hi'.
    pose proof (lookup_lt_Some _ _ _ Hj) as Hj'.
    rewrite Forall_lookup in Hcols. specialize (Hcols _ _ Hi).
    simpl in Hcols. lia. }
  apply foldM_all_ok. intros C1 m _.
  destruct (regular_start_times a Ha) as (n & _ & _ & ->).
  cbn [mbind outcome_bind].
  apply foldM_all_ok. intros C2 s _.
  apply foldM_all_ok. intros C3 m' _.
  destruct (m =? m'); [eauto|].
  apply regular_add_products; done.
Qed.

Lemma regular_horizon_nonneg t :
  1 <= t <= num_transactions task -> 0 <= h < 2 ^ 63.
Proof.
  intros Ht. destruct (regular_entry t Ht) as (n & _ & Hn & _).
  destruct Hreg as (_ & _ & _ & _ & Hh). lia.
Qed.

Lemma term_D_cell t n s D m :
  1 <= t <= num_transactions task ->
  ns !! Z.to_nat (t - 1) = Some n -> 0 <= s <= h - n ->
  let cell :=
    (hh ← match d_execution_length d with
          | Some h => Ok h
          | None => Unspecified
          end;
     w1 ← i64_pow (num_machines task + 1) hh;
     dt ← get_int (d_lengths d) (t - 1);
     w2 ← i64_pow (num_machines task + 1) (i64_sub (i64_add s dt) 1);
     let w := np_div (int_to_float (Some w2)) (int_to_float (Some w1)) in
     Ok (py_add D (PyExpr (Mul (b_var t m s) (Num (CFloat w)))))) in
  (1 <= n + s -> exists D', cell = Ok D') /\
  (n + s = 0 -> cell = Raise ValueError).
Proof.
  intros Ht Hn Hs cell. subst cell.
  pose proof (regular_horizon_nonneg t Ht) as Hh.
  destruct (regular_entry t Ht) as (n' & Hn' & Hb & Hdl & _).
  rewrite Hn in Hn'. injection Hn' as <-.
  destruct Hreg as (_ & -> & _). cbn [mbind outcome_bind].
  rewrite (i64_pow_nonneg _ h) by lia.
  cbn [mbind outcome_bind]. rewrite Hdl. cbn [mbind outcome_bind].
  unfold i64_sub, i64_add. rewrite (wrap64_id (s + n)) by lia.
  rewrite (wrap64_id (s + n - 1)) by lia.
  split; intros Hsn.
  - rewrite i64_pow_nonneg by lia. cbn [mbind outcome_bind]. eauto.
  - rewrite i64_pow_negative by lia. done.
Qed.

Hypothesis Hm : 1 <= num_machines task.

Lemma term_D_row t n :
  1 <= t <= num_transactions task ->
  ns !! Z.to_nat (t - 1) = Some n ->
  forall D,
  let row :=
    foldM (fun D m_idx =>
      sts ← start_times d (t - 1);
      foldM (fun D start_time =>
        hh ← match d_execution_length d with
            | Some h => Ok h
            | None => Unspecified
            end;
        w1 ← i64_pow (num_machines task + 1) hh;
        dt ← get_int (d_lengths d) (t - 1);
        w2 ← i64_pow (num_machines task + 1) (i64_sub (i64_add start_time dt) 1);
        let w := np_div (int_to_float (Some w2)) (int_to_float (Some w1)) in
        Ok (py_add D (PyExpr (Mul (b_var t m_idx start_time)
                                   (Num (CFloat w))))))
        D sts)
      D (machine_idxs task) in
  (1 <= n -> exists D', row = Ok D') /\
  (n = 0 -> row = Raise ValueError).
Proof.
  intros Ht Hn D row. subst row.
  destruct (regular_start_times t Ht) as (n' & Hn' & Hb & Hst).
  rewrite Hn in Hn'. injection Hn' as <-.
  split; intros Hcase.
  - apply foldM_all_ok. intros D1 m _. rewrite Hst. cbn [mbind outcome_bind].
    apply foldM_all_ok. intros D2 s Hs. apply elem_of_py_range in Hs.
    apply (term_D_cell t n s D2 m Ht Hn); lia.
  - unfold machine_idxs. rewrite py_range_cons by lia. cbn [foldM].
    rewrite Hst. cbn [mbind outcome_bind].
    rewrite py_range_cons by lia. cbn [foldM].
    destruct (term_D_cell t n 0 D 1 Ht Hn ltac:(lia)) as [_ Hr].
    cbv zeta in Hr. rewrite Hr by lia. done.
Qed.

Lemma term_D_ok :
  Forall (fun n => 1 <= n) ns -> exists v, term_D task d = Ok v.
Proof.
  intros Hpos. unfold term_D. cbv zeta. apply foldM_all_ok.
  intros D t Ht. apply transaction_idx_range in Ht.
  destruct (regular_entry t Ht) as (n & Hn & _).
  apply (term_D_row t n Ht Hn D).
  rewrite Forall_lookup in Hpos. by eapply Hpos.
Qed.

Lemma term_D_raises :
  0 ∈ ns -> term_D task d = Raise ValueError.
Proof.
  intros Hzero. unfold term_D. cbv zeta. apply foldM_raise.
  - intros D t Ht. apply transaction_idx_range in Ht.
    destruct (regular_entry t Ht) as (n & Hn & Hb & _).
    destruct (term_D_row t n Ht Hn D) as [Hok Hr]. cbv zeta in Hok, Hr.
    destruct (decide (n = 0)) as [->|Hne]; [right; by apply Hr|].
    left. apply Hok. lia.
  - apply list_elem_of_lookup in Hzero as [i Hi].
    pose proof (lookup_lt_Some _ _ _ Hi) as Hlt.
    exists (Z.of_nat i + 1). split.
    + apply transaction_idx_range. unfold num_transactions. lia.
    + intros D.
      assert (1 <= Z.of_nat i + 1 <= num_transactions task) as Ht
        by (unfold num_transactions; lia).
      assert (ns !! Z.to_nat (Z.of_nat i + 1 - 1) = Some 0) as Hn.
      { replace (Z.to_nat (Z.of_nat i + 1 - 1)) with i by lia. done. }
      destruct (term_D_row _ 0 Ht Hn D) as [_ Hr]. cbv zeta in Hr.
      by apply Hr.
Qed.
End regular.

(** X17. A task with a transaction of length zero cannot be encoded.
    For a machine count from 1 up to the [np.int64] range, a positive
    time step, non-negative lengths, a square conflict matrix and exact
    discrete lengths that sum to at most [2 ^ 53] (so that no sum,
    conversion or division overflows or loses an integer), the first
    three terms of the Hamiltonian are built, and the weight of the
    zero-length transaction at start time 0 is
    [machines ** (0 + 0 - 1)], an integer raised to a negative integer
    power, which NumPy refuses with a ValueError. *)
Theorem encoder_rejects_zero_length (task : TransactionScheduleTask)
    (time_step_length : option Q) (number_time_steps : option Z) (ts : Q) :
  1 <= num_machines task < 2 ^ 63 ->
  time_step task time_step_length number_time_steps = Ok (Some ts) ->
  (0 < ts)%Q ->
  nonneg_lengths task ->
  square_conflicts task ->
  discrete_total task ts <= 2 ^ 53 ->
  Exists (fun l => (l == 0)%Q) (lengths task) ->
  build_discrete_qubo task time_step_length number_time_steps
    = Raise ValueError.
Proof.
  intros Hm Hts Hpos Hnn Hsq Htot Hzero.
  assert (lengths task <> []) as Hne.
  { intros Hnil. rewrite Hnil in Hzero. by apply Exists_nil in Hzero. }
  destruct (discretize_regular task _ _ ts Hm Hts Hpos Hne Hnn Htot)
    as (d & h & ns & Hd & Hreg & Hrel & _ & _).
  assert (length ns = length (lengths task)) as Hlen
    by (symmetry; by eapply Forall2_length).
  unfold build_discrete_qubo. rewrite Hd. cbn [mbind outcome_bind].
  unfold hamiltonian.
  destruct (term_A_ok task d _ h Hreg Hlen) as (A & -> & _).
  destruct (term_B_ok task d _ h Hreg Hlen) as (B & ->).
  destruct (term_C_ok task d _ h Hreg Hlen Hsq) as (C & ->).
  cbn [mbind outcome_bind].
  rewrite (term_D_raises task d _ h Hreg Hlen (proj1 Hm)); [done|].
  by eapply discrete_for_zero.
Qed.

Lemma encoder_rejects_zero_length_witness :
  build_discrete_qubo zero_length_task (Some 1%Q) None = Raise ValueError.
Proof.
  apply (encoder_rejects_zero_length zero_length_task (Some 1%Q) None 1%Q).
  - simpl. lia.
  - reflexivity.
  - reflexivity.
  - repeat constructor; done.
  - split; [reflexivity|]. repeat constructor.
  - vm_compute. discriminate.
  - left. reflexivity.
Defined.

(** The bound on the total discrete work cannot be the [np.int64]
    range: for [near_limit_task] the discrete lengths sum to
    [2 ^ 63 - 424], the conversion of that sum to [float64] rounds up to
    [2 ^ 63], and the cast of the horizon back to an integer is not
    defined portably, so the run leaves the embedding before the
    zero-length transaction is reached. *)
Lemma zero_length_near_int64_limit :
  discrete_total near_limit_task 1 + 1 < 2 ^ 63 /\
  discrete_lengths near_limit_task (Some 1%Q)
    = [Some 0; Some (2 ^ 63 - 1024); Some 600] /\
  int_to_float (Some (2 ^ 63 - 424)) = Some (inject_Z (2 ^ 63)) /\
  ceil_to_int (Some (inject_Z (2 ^ 63))) = None /\
  build_discrete_qubo near_limit_task (Some 1%Q) None = Unspecified.
Proof.
  split; [vm_compute; reflexivity|].
  split; [vm_compute; reflexivity|].
  split; [vm_compute; reflexivity|].
  split; [vm_compute; reflexivity|].
  vm_compute. reflexivity.
Qed.

(** X18. The encoder succeeds on every well-formed task whose
    transactions all last at least one time step: with a machine count
    from 1 up to the [np.int64] range, at least one transaction, a
    positive time step, a square conflict matrix and exact discrete
    lengths that sum to at most [2 ^ 53], every discrete length is at
    least 1, all four terms are built, their sum contains a binary
    variable, and the QUBO is returned. (A positive length below one
    time step is not enough: its quotient can round to 0.) *)
Theorem encoder_accepts_long_transactions (task : TransactionScheduleTask)
    (time_step_length : option Q) (number_time_steps : option Z) (ts : Q) :
  1 <= num_machines task < 2 ^ 63 ->
  time_step task time_step_length number_time_steps = Ok (Some ts) ->
  (0 < ts)%Q ->
  lengths task <> [] ->
  Forall (fun l => (ts <= l)%Q) (lengths task) ->
  square_conflicts task ->
  discrete_total task ts <= 2 ^ 53 ->
  exists q, build_discrete_qubo task time_step_length number_time_steps = Ok q.
Proof.
  intros Hm Hts Hpos Hne Hall Hsq Htot.
  assert (nonneg_lengths task) as Hnn.
  { eapply Forall_impl; [exact Hall|]. intros l Hl. simpl in *. lra. }
  destruct (discretize_regular task _ _ ts Hm Hts Hpos Hne Hnn Htot)
    as (d & h & ns & Hd & Hreg & Hrel & _ & _).
  assert (length ns = length (lengths task)) as Hlen
    by (symmetry; by eapply Forall2_length).
  unfold build_discrete_qubo. rewrite Hd. cbn [mbind outcome_bind].
  unfold hamiltonian.
  destruct (term_A_ok task d _ h Hreg Hlen) as (A & -> & HA).
  destruct (term_B_ok task d _ h Hreg Hlen) as (B & ->).
  destruct (term_C_ok task d _ h Hreg Hlen Hsq) as (C & ->).
  destruct (term_D_ok task d _ h Hreg Hlen (proj1 Hm)) as (D & ->).
  { by eapply discrete_for_positive. }
  cbn [mbind outcome_bind]. specialize (HA Hne (proj1 Hm)).
  destruct A as [|e]; [done|]. simpl. eauto.
Qed.

Lemma encoder_accepts_long_transactions_witness :
  exists q, build_discrete_qubo scenario_task (Some (1 # 2)%Q) None = Ok q.
Proof.
  apply (encoder_accepts_long_transactions scenario_task (Some (1 # 2)%Q) None
           (1 # 2)%Q).
  - simpl. lia.
  - reflexivity.
  - reflexivity.
  - discriminate.
  - repeat constructor; discriminate.
  - split; [reflexivity|]. repeat constructor.
  - vm_compute. discriminate.
Defined.
